(** * Virtual-Idol-Hikari: memory lifecycle and sticker cache

    A shallow embedding of [services/memoryManager.ts],
    [services/memoryProcessor.ts], [summarizeLongTermMemories] of the topic
    generator and [services/stickerCache.ts], followed by the properties of
    the memory lifecycle and of the similarity cache.

    Conventions of the embedding.
    - A JavaScript string is the list of its UTF-16 code units ([jsstring]);
      [length] is then JavaScript's [.length].  Record ids, which the code
      builds from digits and ASCII letters only, are Rocq strings, compared
      as IndexedDB compares keys.
    - An IndexedDB object store is the list of its records in primary-key
      order; [add] rejects an existing key, [put] replaces or inserts,
      [delete] removes, [index.getAll key] filters in key order.  A rejected
      [add] is the one storage failure of the embedding: reads, [put] and
      [delete] always succeed.
    - [Date.now()], [new Date().toISOString()] and [Math.random()] are inputs:
      every call that creates a record receives its stamp (id, time in
      milliseconds).
    - The text-generation service is an input: a reply is either a failure
      (the call or [JSON.parse] throws) or the parsed object.
    - IEEE doubles holding counts and lengths are integers.  The lookup of
      the cache ([Stickers]) is stated with the square roots and quotients
      of the real numbers; [Doubles] has the embedding and the cosine
      similarity with every operation rounded to the nearest double, and
      what is proved of their values is proved there. *)

From Stdlib Require Import String Ascii.
From Stdlib Require Import List ZArith NArith QArith Qround Lia Bool.
From Stdlib Require Import Permutation Sorted.
From Stdlib Require Import Reals Lra.
Import ListNotations.

(* ================================================================= *)
(** ** JavaScript strings *)

Module JS.

Definition jsstring := list N.

(** ASCII literal: each byte is its own code unit. *)
Fixpoint js (s : string) : jsstring :=
  match s with
  | EmptyString => []
  | String c r => N_of_ascii c :: js r
  end.

Definition char_eqb (a b : N) : bool := N.eqb a b.

Fixpoint str_eqb (s t : jsstring) : bool :=
  match s, t with
  | [], [] => true
  | a :: s', b :: t' => char_eqb a b && str_eqb s' t'
  | _, _ => false
  end.

(** [t] starts [s]. *)
Fixpoint startsWith (s t : jsstring) {struct t} : bool :=
  match t, s with
  | [], _ => true
  | b :: t', a :: s' => char_eqb a b && startsWith s' t'
  | _ :: _, [] => false
  end.

(** [s.includes(t)]: [t] occurs in [s] at some offset. *)
Fixpoint includes (s t : jsstring) : bool :=
  startsWith s t ||
  match s with
  | [] => false
  | _ :: s' => includes s' t
  end.

(** [s.substring(a, b)] for [0 <= a <= b]; indices past the end are clamped. *)
Definition substring (s : jsstring) (a b : nat) : jsstring :=
  firstn (b - a) (skipn a s).

(** A non-empty string is truthy. *)
Definition truthy (s : jsstring) : bool :=
  match s with [] => false | _ => true end.

End JS.
Import JS.

(* ================================================================= *)
(** ** types.ts *)

Inductive Role := user | assistant.

Record Message := mkMessage {
  msg_role : Role;
  msg_content : jsstring;
  msg_timestamp : Z;
  msg_imageUrl : option jsstring
}.

Inductive Category := userinfo | hikari_info | shared_event.
Inductive MemoryType := short_term | long_term.
Inductive Source := conversation | offline_event | system.

(** [MemoryFact]; the field [x] of the source is [mf_x] here.  [timestamp]
    holds what [new Date(timestamp).getTime()] returns. *)
Record MemoryFact := mkMemoryFact {
  mf_id : string;
  mf_fact : jsstring;
  mf_category : Category;
  mf_timestamp : Z;
  mf_originalEventDate : option jsstring;
  mf_type : MemoryType;
  mf_importance : option Q;
  mf_source : option Source
}.

Inductive StickerType := hikari_emotion | food_item | landmark | meme.

(** [StickerCache]; the field [x] of the source is [sc_x] here. *)
Record StickerCache := mkStickerCache {
  sc_id : string;
  sc_prompt : jsstring;
  sc_type : StickerType;
  sc_detail : jsstring;
  sc_imageData : jsstring;
  sc_embedding : list R;
  sc_createdAt : Z;
  sc_usageCount : Z
}.

Definition MemoryType_eqb (a b : MemoryType) : bool :=
  match a, b with
  | short_term, short_term | long_term, long_term => true
  | _, _ => false
  end.

Definition StickerType_eqb (a b : StickerType) : bool :=
  match a, b with
  | hikari_emotion, hikari_emotion | food_item, food_item
  | landmark, landmark | meme, meme => true
  | _, _ => false
  end.

(** A reply of the text-generation service. *)
Inductive OracleReply (A : Type) :=
| OracleFails
| OracleReturns (a : A).
Arguments OracleFails {A}.
Arguments OracleReturns {A} a.

(* ================================================================= *)
(** ** An IndexedDB object store with key path [id] *)

Module ObjectStore.
Definition store (T : Type) := list T.

Section Store.
Context {T : Type}.
Variable key : T -> string.

(** [store.get(k)] *)
Fixpoint get (k : string) (s : store T) : option T :=
  match s with
  | [] => None
  | x :: r => if String.eqb k (key x) then Some x else get k r
  end.

(** The record with the key of [x] replaced by [x]. *)
Fixpoint replace (x : T) (s : store T) : store T :=
  match s with
  | [] => []
  | y :: r => if String.eqb (key x) (key y) then x :: r else y :: replace x r
  end.

(** [x] inserted at its place in key order. *)
Fixpoint insert (x : T) (s : store T) : store T :=
  match s with
  | [] => [x]
  | y :: r =>
      if String.ltb (key x) (key y) then x :: y :: r else y :: insert x r
  end.

(** [store.put(x)]: replaces the record with the key of [x], or inserts
    [x] when there is none. *)
Definition put (x : T) (s : store T) : store T :=
  match get (key x) s with
  | Some _ => replace x s
  | None => insert x s
  end.

(** [store.add(x)]: fails ([None]) when the key is present. *)
Definition add (x : T) (s : store T) : option (store T) :=
  match get (key x) s with
  | Some _ => None
  | None => Some (insert x s)
  end.

(** [store.delete(k)] *)
Definition delete (k : string) (s : store T) : store T :=
  filter (fun x => negb (String.eqb k (key x))) s.

(** No two records share a key: what a key path guarantees. *)
Fixpoint uniqueKeys (s : store T) : bool :=
  match s with
  | [] => true
  | x :: r =>
      negb (existsb (fun y => String.eqb (key x) (key y)) r) && uniqueKeys r
  end.
End Store.
End ObjectStore.

(* ================================================================= *)
(** ** services/memoryManager.ts *)

Module MemoryManager.

Definition FactsStore := ObjectStore.store MemoryFact.

Definition store_get := ObjectStore.get mf_id.
Definition store_put := ObjectStore.put mf_id.
Definition store_add := ObjectStore.add mf_id.
Definition store_delete := ObjectStore.delete mf_id.
Definition store_uniqueKeys := ObjectStore.uniqueKeys mf_id.

(** [Omit<MemoryFact, 'id' | 'timestamp'>] *)
Record NewFact := mkNewFact {
  nf_fact : jsstring;
  nf_category : Category;
  nf_originalEventDate : option jsstring;
  nf_type : MemoryType;
  nf_importance : option Q;
  nf_source : option Source
}.

(** [{ ...fact, id, timestamp }] *)
Definition stampFact (stamp : string * Z) (fact : NewFact) : MemoryFact :=
  {| mf_id := fst stamp;
     mf_fact := nf_fact fact;
     mf_category := nf_category fact;
     mf_timestamp := snd stamp;
     mf_originalEventDate := nf_originalEventDate fact;
     mf_type := nf_type fact;
     mf_importance := nf_importance fact;
     mf_source := nf_source fact |}.

(** [addMemoryFact]: [stamp] is the fresh id and the creation time. *)
Definition addMemoryFact (stamp : string * Z) (fact : NewFact) (s : FactsStore)
  : option (FactsStore * MemoryFact) :=
  let newFact := stampFact stamp fact in
  match store_add newFact s with
  | Some s' => Some (s', newFact)
  | None => None
  end.

(** [facts.sort((a, b) => time(b) - time(a))]: newest first, and stable. *)
Fixpoint insertByTime (x : MemoryFact) (l : list MemoryFact) : list MemoryFact :=
  match l with
  | [] => [x]
  | y :: r =>
      if (mf_timestamp y <=? mf_timestamp x)%Z then x :: y :: r
      else y :: insertByTime x r
  end.

Definition sortNewestFirst (l : list MemoryFact) : list MemoryFact :=
  fold_right insertByTime [] l.

(** [store.index('type').getAll(ty)] *)
Definition indexGetAll (ty : MemoryType) (s : FactsStore) : list MemoryFact :=
  filter (fun f => MemoryType_eqb (mf_type f) ty) s.

Definition getAllMemoryFacts (s : FactsStore) : list MemoryFact :=
  sortNewestFirst s.

Definition getShortTermMemories (s : FactsStore) : list MemoryFact :=
  sortNewestFirst (indexGetAll short_term s).

Definition getLongTermMemories (s : FactsStore) : list MemoryFact :=
  sortNewestFirst (indexGetAll long_term s).

Definition setType (ty : MemoryType) (f : MemoryFact) : MemoryFact :=
  {| mf_id := mf_id f;
     mf_fact := mf_fact f;
     mf_category := mf_category f;
     mf_timestamp := mf_timestamp f;
     mf_originalEventDate := mf_originalEventDate f;
     mf_type := ty;
     mf_importance := mf_importance f;
     mf_source := mf_source f |}.

Definition promoteToLongTerm (factId : string) (s : FactsStore) : FactsStore :=
  match store_get factId s with
  | Some fact =>
      match mf_type fact with
      | short_term => store_put (setType long_term fact) s
      | long_term => s
      end
  | None => s
  end.

Definition batchPromoteToLongTerm (factIds : list string) (s : FactsStore)
  : FactsStore :=
  fold_left (fun st i => promoteToLongTerm i st) factIds s.

(** [Partial<MemoryFact>]: [None] is a field the caller left out. *)
Record Updates := mkUpdates {
  up_id : option string;
  up_fact : option jsstring;
  up_category : option Category;
  up_timestamp : option Z;
  up_originalEventDate : option (option jsstring);
  up_type : option MemoryType;
  up_importance : option (option Q);
  up_source : option (option Source)
}.

Definition orElse {A} (o : option A) (d : A) : A :=
  match o with Some a => a | None => d end.

(** [{ ...fact, ...updates }] *)
Definition spread (fact : MemoryFact) (updates : Updates) : MemoryFact :=
  {| mf_id := orElse (up_id updates) (mf_id fact);
     mf_fact := orElse (up_fact updates) (mf_fact fact);
     mf_category := orElse (up_category updates) (mf_category fact);
     mf_timestamp := orElse (up_timestamp updates) (mf_timestamp fact);
     mf_originalEventDate :=
       orElse (up_originalEventDate updates) (mf_originalEventDate fact);
     mf_type := orElse (up_type updates) (mf_type fact);
     mf_importance := orElse (up_importance updates) (mf_importance fact);
     mf_source := orElse (up_source updates) (mf_source fact) |}.

Definition updateMemoryFact (factId : string) (updates : Updates) (s : FactsStore)
  : FactsStore :=
  match store_get factId s with
  | Some fact => store_put (spread fact updates) s
  | None => s
  end.

Definition deleteMemoryFact (factId : string) (s : FactsStore) : FactsStore :=
  store_delete factId s.

End MemoryManager.
Import MemoryManager.

(* ================================================================= *)
(** ** summarizeLongTermMemories (topic generator) *)

Module TopicGenerator.

Record SummarizeResult := mkSummarizeResult {
  sr_summarized : nat;
  sr_summaries : list jsstring
}.

(** The record [summarizeLongTermMemories] writes for one summary. *)
Definition summaryFact (summary : jsstring) : NewFact :=
  {| nf_fact := summary;
     nf_category := shared_event;
     nf_originalEventDate := None;
     nf_type := long_term;
     nf_importance := Some (8 # 10);
     nf_source := Some system |}.

(** [for (const summary of summaries) await addMemoryFact(...)]: the [k]-th
    call of [addMemoryFact] receives [stamp k].  [false] is a rejected
    [add], which leaves the loop through the [catch]. *)
Fixpoint addSummaries (stamp : nat -> string * Z) (k : nat)
    (summaries : list jsstring) (s : FactsStore) : FactsStore * bool :=
  match summaries with
  | [] => (s, true)
  | summary :: rest =>
      match addMemoryFact (stamp k) (summaryFact summary) s with
      | Some (s', _) => addSummaries stamp (S k) rest s'
      | None => (s, false)
      end
  end.

(** The reply is [result.summaries]: [None] when the field is missing. *)
Definition summarizeLongTermMemories
    (reply : OracleReply (option (list jsstring)))
    (stamp : nat -> string * Z)
    (longTermMemories : list MemoryFact) (s : FactsStore)
  : FactsStore * SummarizeResult :=
  if (length longTermMemories <? 8)%nat then (s, mkSummarizeResult 0 [])
  else
    match reply with
    | OracleFails => (s, mkSummarizeResult 0 [])
    | OracleReturns result =>
        let summaries := orElse result [] in
        match addSummaries stamp 0 summaries s with
        | (s', true) => (s', mkSummarizeResult (length summaries) summaries)
        | (s', false) => (s', mkSummarizeResult 0 [])
        end
    end.

End TopicGenerator.
Import TopicGenerator.

(* ================================================================= *)
(** ** services/memoryProcessor.ts *)

Module MemoryProcessor.

Definition isDuplicateOf (fact : jsstring) (m : MemoryFact) : bool :=
  if str_eqb (mf_fact m) fact then true
  else if includes (mf_fact m) fact || includes fact (mf_fact m) then
    let lengthDiff :=
      Z.abs (Z.of_nat (length (mf_fact m)) - Z.of_nat (length fact)) in
    (lengthDiff <=? 3)%Z
  else false.

Definition isDuplicateMemory (fact : jsstring) (s : FactsStore) : bool :=
  let shortTermMemories := getShortTermMemories s in
  let longTermMemories := getLongTermMemories s in
  let allMemories := shortTermMemories ++ longTermMemories in
  existsb (isDuplicateOf fact) allMemories.

(** One candidate of the service: each field may be missing. *)
Record Candidate := mkCandidate {
  cd_fact : option jsstring;
  cd_category : option Category;
  cd_importance : option Q
}.

(** [mem.fact] is truthy *)
Definition factOf (c : Candidate) : option jsstring :=
  match cd_fact c with
  | Some f => if truthy f then Some f else None
  | None => None
  end.

(** [importance || d] *)
Definition importanceOr (o : option Q) (d : Q) : Q :=
  match o with
  | Some q => if Qeq_bool q 0 then d else q
  | None => d
  end.

(** [recordConversationMemory]: the reply is the parsed object, [None] for
    the JSON value [null], on which [result.fact] throws. *)
Definition recordConversationMemory (reply : OracleReply (option Candidate))
    (stamp : string * Z) (s : FactsStore) : FactsStore :=
  match reply with
  | OracleFails => s
  | OracleReturns None => s
  | OracleReturns (Some result) =>
      match factOf result with
      | Some fact =>
          if isDuplicateMemory fact s then s
          else
            match addMemoryFact stamp
                    {| nf_fact := fact;
                       nf_category := orElse (cd_category result) shared_event;
                       nf_originalEventDate := None;
                       nf_type := short_term;
                       nf_importance :=
                         Some (importanceOr (cd_importance result) (6 # 10));
                       nf_source := Some conversation |} s with
            | Some (s', _) => s'
            | None => s
            end
      | None => s
      end
  end.

Record OrganizeResult := mkOrganizeResult {
  promoted : nat;
  removed : nat
}.

(** [for (let i = 0; ...) if (keepIndices.has(i + 1)) { promote; promoted++ }],
    from index [i] on. *)
Fixpoint promoteKept (keepIndices : list Z) (i : nat)
    (memories : list MemoryFact) (s : FactsStore) (promoted : nat)
  : FactsStore * nat :=
  match memories with
  | [] => (s, promoted)
  | m :: rest =>
      if existsb (Z.eqb (Z.of_nat i + 1)) keepIndices then
        promoteKept keepIndices (S i) rest
          (promoteToLongTerm (mf_id m) s) (S promoted)
      else promoteKept keepIndices (S i) rest s promoted
  end.

(** [Math.floor(n * 0.4)].  The double 0.4 is above 0.4 by less than 3e-17
    and [n * 0.4] is an integer or at least 0.2 away from the next one, so
    for every length a store can have the floor over the rationals is the
    floor over the doubles. *)
Definition keepCountOf (n : nat) : nat :=
  Z.to_nat (Qfloor (inject_Z (Z.of_nat n) * (4 # 10))).

(** [organizeMemories]: the reply is [result.keep_indices], [None] when the
    field is missing. *)
Definition organizeMemories (reply : OracleReply (option (list Z)))
    (s : FactsStore) : FactsStore * OrganizeResult :=
  let shortTermMemories := getShortTermMemories s in
  if (length shortTermMemories <? 5)%nat then (s, mkOrganizeResult 0 0)
  else
    match reply with
    | OracleReturns keep_indices =>
        let keepIndices := orElse keep_indices [] in
        let '(s', promoted) := promoteKept keepIndices 0 shortTermMemories s 0 in
        let removed := (length shortTermMemories - promoted)%nat in
        (s', mkOrganizeResult promoted removed)
    | OracleFails =>
        let keepCount := keepCountOf (length shortTermMemories) in
        let s' :=
          fold_left (fun st m => promoteToLongTerm (mf_id m) st)
                    (firstn keepCount shortTermMemories) s in
        (s', mkOrganizeResult keepCount
               (length shortTermMemories - keepCount)%nat)
    end.

Record ConsolidateResult := mkConsolidateResult {
  cr_promoted : nat;
  cr_summarized : nat
}.

Definition organizeAndSummarizeLongTerm
    (organizeReply : OracleReply (option (list Z)))
    (summarizeReply : OracleReply (option (list jsstring)))
    (stamp : nat -> string * Z)
    (s : FactsStore) : FactsStore * ConsolidateResult :=
  let longTermMemories := getLongTermMemories s in
  let '(s1, organized) := organizeMemories organizeReply s in
  if (8 <=? length longTermMemories)%nat then
    let '(s2, result) :=
      summarizeLongTermMemories summarizeReply stamp longTermMemories s1 in
    let summarized := sr_summarized result in
    let s3 :=
      if (0 <? summarized)%nat then
        fold_left (fun st mem => deleteMemoryFact (mf_id mem) st)
                  longTermMemories s2
      else s2 in
    (s3, mkConsolidateResult (promoted organized) summarized)
  else (s1, mkConsolidateResult (promoted organized) 0).

Definition shouldOrganizeMemories (shortTermThreshold : nat) (s : FactsStore)
  : bool :=
  (shortTermThreshold <=? length (getShortTermMemories s))%nat.

(** *** extractMemoriesFromHistory *)

(** The inner [for (let j = start; ...)]: the index of the first assistant
    message with text and without image, from [start] on. *)
Fixpoint findAssistant (messages : list Message) (start : nat) (n : nat)
  : option (nat * jsstring) :=
  match n with
  | O => None
  | S n' =>
      match nth_error messages start with
      | None => None
      | Some nextMsg =>
          match msg_role nextMsg with
          | assistant =>
              if truthy (msg_content nextMsg)
                 && negb (truthy (orElse (msg_imageUrl nextMsg) []))
              then Some (start, msg_content nextMsg)
              else findAssistant messages (S start) n'
          | user => findAssistant messages (S start) n'
          end
      end
  end.

(** [while (i < messages.length) { ...; i++ }], with at most [fuel]
    iterations. *)
Fixpoint pairLoop (fuel : nat) (messages : list Message) (i : nat)
  : list (jsstring * jsstring) :=
  match fuel with
  | O => []
  | S fuel' =>
      match nth_error messages i with
      | None => []
      | Some msg =>
          match msg_role msg with
          | user =>
              if truthy (msg_content msg) then
                match findAssistant messages (S i) (length messages - S i) with
                | Some (j, text) =>
                    (* i = j + 1; break; and then i++ *)
                    (msg_content msg, text) :: pairLoop fuel' messages (S (j + 1))
                | None => pairLoop fuel' messages (S i)
                end
              else pairLoop fuel' messages (S i)
          | assistant => pairLoop fuel' messages (S i)
          end
      end
  end.

(** Every iteration advances [i], so [messages.length] iterations suffice. *)
Definition conversationPairsOf (messages : list Message)
  : list (jsstring * jsstring) :=
  pairLoop (length messages) messages 0.

Record ExtractResult := mkExtractResult {
  er_count : nat;
  er_memories : list MemoryFact
}.

(** [for (const mem of memories) if (mem.fact) { add; addedCount++; push }]:
    the [k]-th [addMemoryFact] of the call receives [stamp k]; [None] is a
    rejected [add]. *)
Fixpoint addExtracted (stamp : nat -> string * Z) (k : nat)
    (memories : list Candidate) (s : FactsStore) (added : list MemoryFact)
  : FactsStore * option (list MemoryFact) :=
  match memories with
  | [] => (s, Some added)
  | mem :: rest =>
      match factOf mem with
      | Some fact =>
          match addMemoryFact (stamp k)
                  {| nf_fact := fact;
                     nf_category := orElse (cd_category mem) shared_event;
                     nf_originalEventDate := None;
                     nf_type := long_term;
                     nf_importance :=
                       Some (importanceOr (cd_importance mem) (7 # 10));
                     nf_source := Some system |} s with
          | Some (s', newMemory) =>
              addExtracted stamp (S k) rest s' (added ++ [newMemory])
          | None => (s, None)
          end
      | None => addExtracted stamp k rest s added
      end
  end.

(** The reply is [result.memories], [None] when the field is missing. *)
Definition extractMemoriesFromHistory (messages : list Message)
    (reply : OracleReply (option (list Candidate)))
    (stamp : nat -> string * Z) (s : FactsStore)
  : FactsStore * ExtractResult :=
  match messages with
  | [] => (s, mkExtractResult 0 [])
  | _ =>
      match conversationPairsOf messages with
      | [] => (s, mkExtractResult 0 [])
      | _ =>
          match reply with
          | OracleFails => (s, mkExtractResult 0 [])
          | OracleReturns result =>
              let memories := orElse result [] in
              match addExtracted stamp 0 memories s [] with
              | (s', Some addedMemories) =>
                  (s', mkExtractResult (length addedMemories) addedMemories)
              | (s', None) => (s', mkExtractResult 0 [])
              end
          end
      end
  end.

End MemoryProcessor.
Import MemoryProcessor.

(* ================================================================= *)
(** ** services/stickerCache.ts *)

Module Stickers.

Definition StickerStore := ObjectStore.store StickerCache.

(** [new Map<string, number>()], entries in insertion order. *)
Definition Features := list (jsstring * Z).

Fixpoint features_get (gram : jsstring) (m : Features) : option Z :=
  match m with
  | [] => None
  | (g, c) :: r => if str_eqb g gram then Some c else features_get gram r
  end.

Fixpoint features_set (gram : jsstring) (v : Z) (m : Features) : Features :=
  match m with
  | [] => [(gram, v)]
  | (g, c) :: r =>
      if str_eqb g gram then (g, v) :: r else (g, c) :: features_set gram v r
  end.

(** [ToInt32]: the signed 32-bit value of an integer. *)
Definition toInt32 (z : Z) : Z := ((z + 2 ^ 31) mod 2 ^ 32 - 2 ^ 31)%Z.

Definition hashStep (hash : Z) (char : N) : Z :=
  let hash := (toInt32 (Z.shiftl (toInt32 hash) 5) - hash + Z.of_N char)%Z in
  Z.land (toInt32 hash) (toInt32 hash).

Definition hashString (str : jsstring) : Z :=
  Z.abs (fold_left hashStep str 0%Z).

(** [vector[i] += c] *)
Fixpoint addAt (i : nat) (c : Z) (vector : list Z) : list Z :=
  match vector, i with
  | [], _ => []
  | x :: r, O => (x + c)%Z :: r
  | x :: r, S i' => x :: addAt i' c r
  end.

Definition foldFeatures (features : Features) : list Z :=
  fold_left
    (fun vector entry =>
       let hash := hashString (fst entry) in
       addAt (Z.to_nat (Z.rem hash 256)) (snd entry) vector)
    features (repeat 0%Z 256).

(** [vector.reduce((sum, val) => sum + val * val, 0)] *)
Definition sumSquares (vector : list R) : R :=
  fold_left (fun sum val => (sum + val * val)%R) vector 0%R.

Section Embedding.
(** [String.prototype.toLowerCase], of the JavaScript engine. *)
Variable toLowerCase : jsstring -> jsstring.

(** [for (let i = 0; i <= text.length - n; i++)] with [n = 2] *)
Definition countFeatures (text : jsstring) : Features :=
  fold_left
    (fun features i =>
       let gram := substring (toLowerCase text) i (i + 2) in
       features_set gram (orElse (features_get gram features) 0 + 1)%Z features)
    (seq 0 (S (length text) - 2)) [].

(** The vector of bigram counts, before the normalisation. *)
Definition featureVector (text : jsstring) : list Z :=
  foldFeatures (countFeatures text).

Definition computeTextEmbedding (text : jsstring) : list R :=
  let vector := map IZR (featureVector text) in
  let magnitude := sqrt (sumSquares vector) in
  if Rlt_dec 0 magnitude then map (fun v => (v / magnitude)%R) vector
  else vector.
End Embedding.

(** The loop of [cosineSimilarity]: (dotProduct, mag1, mag2). *)
Fixpoint cosineLoop (vec1 vec2 : list R) (acc : R * R * R) : R * R * R :=
  match vec1, vec2 with
  | a :: r1, b :: r2 =>
      let '(dotProduct, mag1, mag2) := acc in
      cosineLoop r1 r2
        (dotProduct + a * b, mag1 + a * a, mag2 + b * b)%R
  | _, _ => acc
  end.

Definition cosineSimilarity (vec1 vec2 : list R) : R :=
  if negb (length vec1 =? length vec2)%nat then 0%R
  else
    let '(dotProduct, mag1, mag2) := cosineLoop vec1 vec2 (0, 0, 0)%R in
    let mag1 := sqrt mag1 in
    let mag2 := sqrt mag2 in
    if Req_dec_T mag1 0 then 0%R
    else if Req_dec_T mag2 0 then 0%R
    else (dotProduct / (mag1 * mag2))%R.

Definition incrementUsage (sticker : StickerCache) : StickerCache :=
  {| sc_id := sc_id sticker;
     sc_prompt := sc_prompt sticker;
     sc_type := sc_type sticker;
     sc_detail := sc_detail sticker;
     sc_imageData := sc_imageData sticker;
     sc_embedding := sc_embedding sticker;
     sc_createdAt := sc_createdAt sticker;
     sc_usageCount := (sc_usageCount sticker + 1)%Z |}.

Definition updateUsageCount (id : string) (s : StickerStore) : StickerStore :=
  match ObjectStore.get sc_id id s with
  | Some sticker => ObjectStore.put sc_id (incrementUsage sticker) s
  | None => s
  end.

(** The scan of [findSimilarSticker]: (bestMatch, bestSimilarity). *)
Definition scanStep (queryEmbedding : list R) (threshold : R)
    (best : option StickerCache * R) (sticker : StickerCache)
  : option StickerCache * R :=
  let similarity := cosineSimilarity queryEmbedding (sc_embedding sticker) in
  if Rgt_dec similarity (snd best) then
    if Rge_dec similarity threshold then (Some sticker, similarity)
    else best
  else best.

Section Cache.
Variable toLowerCase : jsstring -> jsstring.

(** [saveSticker]: [stamp] is the fresh id and the creation time. *)
Definition saveSticker (stamp : string * Z) (prompt : jsstring)
    (type : StickerType) (detail : jsstring) (imageData : jsstring)
    (s : StickerStore) : option (StickerStore * StickerCache) :=
  let embedding :=
    computeTextEmbedding toLowerCase (prompt ++ js " " ++ detail) in
  let sticker :=
    {| sc_id := fst stamp;
       sc_prompt := prompt;
       sc_type := type;
       sc_detail := detail;
       sc_imageData := imageData;
       sc_embedding := embedding;
       sc_createdAt := snd stamp;
       sc_usageCount := 1 |} in
  match ObjectStore.add sc_id sticker s with
  | Some s' => Some (s', sticker)
  | None => None
  end.

(** [findSimilarSticker]: the match, and the store once the dispatched
    [updateUsageCount] has run. *)
Definition findSimilarSticker (type : StickerType) (detail : jsstring)
    (threshold : R) (s : StickerStore)
  : option StickerCache * StickerStore :=
  let queryEmbedding := computeTextEmbedding toLowerCase detail in
  let stickers := filter (fun x => StickerType_eqb (sc_type x) type) s in
  let '(bestMatch, bestSimilarity) :=
    fold_left (scanStep queryEmbedding threshold) stickers (None, 0%R) in
  match bestMatch with
  | Some m => (Some m, updateUsageCount (sc_id m) s)
  | None => (None, s)
  end.
End Cache.

End Stickers.
Import Stickers.

(* ================================================================= *)
(** ** services/stickerCache.ts in double precision *)

(** The numbers of the source are IEEE 754 doubles.  The counts of the
    bigrams are integers far below 2^53, which doubles hold exactly; the
    square root and the quotients of the normalisation are rounded.  Here
    a double is the real number it denotes, and [fl] is the rounding to
    the nearest double that every operation of the source ends with
    ([Math.sqrt] as the square root of IEEE 754, which rounds to nearest).
    Infinities and NaN, which no vector of the cache holds, are not
    doubles here. *)

Module Doubles.

(** The largest power of 2 that is not above [|x|]: [2 ^ exponentOf x]. *)
Definition exponentOf (x : R) : Z := Int_part (ln (Rabs x) / ln 2).

(** The nearest integer, the even one of two that are equally near. *)
Definition nearestEven (y : R) : Z :=
  let n := Int_part y in
  if Rlt_dec (y - IZR n) (1 / 2) then n
  else if Rlt_dec (1 / 2) (y - IZR n) then (n + 1)%Z
  else if Z.even n then n else (n + 1)%Z.

(** Rounding to nearest, ties to even, with the 53 significant bits of a
    double.  The exponent is not bounded: overflow and subnormal numbers
    are not part of it. *)
Definition round53 (x : R) : R :=
  if Req_dec_T x 0 then 0%R
  else
    let e := exponentOf x in
    (IZR (nearestEven (x * powerRZ 2 (52 - e))) * powerRZ 2 (e - 52))%R.

Section Rounded.
Variable fl : R -> R.

(** [vector.reduce((sum, val) => sum + val * val, 0)] *)
Definition sumSquares (vector : list R) : R :=
  fold_left (fun sum val => fl (sum + fl (val * val))) vector 0%R.

Section Embedding.
Variable toLowerCase : jsstring -> jsstring.

Definition computeTextEmbedding (text : jsstring) : list R :=
  let vector := map IZR (featureVector toLowerCase text) in
  let magnitude := fl (sqrt (sumSquares vector)) in
  if Rlt_dec 0 magnitude then map (fun v => fl (v / magnitude)) vector
  else vector.
End Embedding.

(** The loop of [cosineSimilarity]: (dotProduct, mag1, mag2). *)
Fixpoint cosineLoop (vec1 vec2 : list R) (acc : R * R * R) : R * R * R :=
  match vec1, vec2 with
  | a :: r1, b :: r2 =>
      let '(dotProduct, mag1, mag2) := acc in
      cosineLoop r1 r2
        (fl (dotProduct + fl (a * b)), fl (mag1 + fl (a * a)),
         fl (mag2 + fl (b * b)))%R
  | _, _ => acc
  end.

Definition cosineSimilarity (vec1 vec2 : list R) : R :=
  if negb (length vec1 =? length vec2)%nat then 0%R
  else
    let '(dotProduct, mag1, mag2) := cosineLoop vec1 vec2 (0, 0, 0)%R in
    let mag1 := fl (sqrt mag1) in
    let mag2 := fl (sqrt mag2) in
    if Req_dec_T mag1 0 then 0%R
    else if Req_dec_T mag2 0 then 0%R
    else fl (dotProduct / fl (mag1 * mag2))%R.

End Rounded.

End Doubles.

(* ================================================================= *)
(** * Vocabulary of the properties *)

Module Vocabulary.

(** [t] occurs in [s] as a contiguous run of code units. *)
Definition isSubstring (t s : jsstring) : Prop :=
  exists pre post, s = pre ++ t ++ post.

(** The duplicate criterion: identical texts, or one text inside the other
    with lengths at most 3 apart. *)
Definition nearDuplicate (fact existing : jsstring) : Prop :=
  existing = fact \/
  ((isSubstring fact existing \/ isSubstring existing fact) /\
   (Z.abs (Z.of_nat (length existing) - Z.of_nat (length fact)) <= 3)%Z).

(** *** Sample data *)

(** "讨厌香菜", "香菜" and "不喜欢吃韭菜和香菜这类蔬菜" in UTF-16. *)
Definition text_dislikes_coriander : jsstring :=
  [0x8BA8; 0x538C; 0x9999; 0x83DC]%N.

Definition text_coriander : jsstring := [0x9999; 0x83DC]%N.

Definition text_dislikes_vegetables : jsstring :=
  [0x4E0D; 0x559C; 0x6B22; 0x5403; 0x97ED; 0x83DC; 0x548C; 0x9999; 0x83DC;
   0x8FD9; 0x7C7B; 0x852C; 0x83DC]%N.

Definition sampleFact (id : string) (text : jsstring) (time : Z)
    (type : MemoryType) : MemoryFact :=
  {| mf_id := id;
     mf_fact := text;
     mf_category := userinfo;
     mf_timestamp := time;
     mf_originalEventDate := None;
     mf_type := type;
     mf_importance := Some (6 # 10);
     mf_source := Some conversation |}.

Definition sampleCandidate (text : jsstring) : Candidate :=
  {| cd_fact := Some text;
     cd_category := Some userinfo;
     cd_importance := Some (7 # 10) |}.

Definition corianderStore : FactsStore :=
  [sampleFact "fact-1" text_dislikes_coriander 1000 short_term].

(** *** Promotion *)

(** The records with an id of [ids] set to long-term, the others as they
    are. *)
Definition promoteAll (ids : list string) (s : FactsStore) : FactsStore :=
  map (fun f =>
         if existsb (String.eqb (mf_id f)) ids then setType long_term f else f)
      s.

(** The memories whose 1-based position is in [keepIndices], positions
    counted from [i + 1]. *)
Fixpoint keptFrom (keepIndices : list Z) (i : nat) (memories : list MemoryFact)
  : list MemoryFact :=
  match memories with
  | [] => []
  | m :: rest =>
      if existsb (Z.eqb (Z.of_nat i + 1)) keepIndices
      then m :: keptFrom keepIndices (S i) rest
      else keptFrom keepIndices (S i) rest
  end.

(** The short-term memories that [organizeMemories] promotes: none below 5
    memories, those the service names, or the head of the list when the
    service fails. *)
Definition selectedBy (reply : OracleReply (option (list Z)))
    (shortTermMemories : list MemoryFact) : list MemoryFact :=
  if (length shortTermMemories <? 5)%nat then []
  else
    match reply with
    | OracleReturns keep_indices =>
        keptFrom (orElse keep_indices []) 0 shortTermMemories
    | OracleFails =>
        firstn (keepCountOf (length shortTermMemories)) shortTermMemories
    end.

(** Five facts recorded one after the other, at times 1000, ..., 5000. *)
Definition fiveStamps : list (string * Z) :=
  [("fact-1", 1000); ("fact-2", 2000); ("fact-3", 3000); ("fact-4", 4000);
   ("fact-5", 5000)]%string%Z.

Definition shortTermNote : NewFact :=
  {| nf_fact := text_coriander;
     nf_category := userinfo;
     nf_originalEventDate := None;
     nf_type := short_term;
     nf_importance := Some (6 # 10);
     nf_source := Some conversation |}.

(** [addMemoryFact] once per stamp, in the order of the list. *)
Fixpoint addInOrder (stamps : list (string * Z)) (fact : NewFact)
    (s : FactsStore) : option FactsStore :=
  match stamps with
  | [] => Some s
  | stamp :: rest =>
      match addMemoryFact stamp fact s with
      | Some (s', _) => addInOrder rest fact s'
      | None => None
      end
  end.

Definition fiveShortTerm : FactsStore :=
  orElse (addInOrder fiveStamps shortTermNote []) [].

(** *** Sequences of operations on the facts *)

Inductive Op :=
| OpAdd (stamp : string * Z) (fact : NewFact)
| OpRecord (reply : OracleReply (option Candidate)) (stamp : string * Z)
| OpPromote (factId : string)
| OpBatchPromote (factIds : list string)
| OpUpdate (factId : string) (updates : Updates)
| OpOrganize (reply : OracleReply (option (list Z)))
| OpConsolidate (organizeReply : OracleReply (option (list Z)))
    (summarizeReply : OracleReply (option (list jsstring)))
    (stamp : nat -> string * Z)
| OpExtract (messages : list Message)
    (reply : OracleReply (option (list Candidate)))
    (stamp : nat -> string * Z)
| OpDelete (factId : string).

Definition step (op : Op) (s : FactsStore) : FactsStore :=
  match op with
  | OpAdd stamp fact =>
      match addMemoryFact stamp fact s with
      | Some (s', _) => s'
      | None => s
      end
  | OpRecord reply stamp => recordConversationMemory reply stamp s
  | OpPromote factId => promoteToLongTerm factId s
  | OpBatchPromote factIds => batchPromoteToLongTerm factIds s
  | OpUpdate factId updates => updateMemoryFact factId updates s
  | OpOrganize reply => fst (organizeMemories reply s)
  | OpConsolidate organizeReply summarizeReply stamp =>
      fst (organizeAndSummarizeLongTerm organizeReply summarizeReply stamp s)
  | OpExtract messages reply stamp =>
      fst (extractMemoriesFromHistory messages reply stamp s)
  | OpDelete factId => deleteMemoryFact factId s
  end.

Definition run (ops : list Op) (s : FactsStore) : FactsStore :=
  fold_left (fun st op => step op st) ops s.

(** An update that names neither [id] nor [type], as the edit of a fact's
    text does. *)
Definition plainOp (op : Op) : Prop :=
  match op with
  | OpUpdate _ updates => up_id updates = None /\ up_type updates = None
  | _ => True
  end.

(** Every long-term fact of [s] is a long-term fact of [s']. *)
Definition stable (s s' : FactsStore) : Prop :=
  forall k f, store_get k s = Some f -> mf_type f = long_term ->
  exists f', store_get k s' = Some f' /\ mf_type f' = long_term.

(** [s'] has the records of [s], some short-term ones set to long-term. *)
Definition promotes (s s' : FactsStore) : Prop :=
  forall k,
    store_get k s' = store_get k s \/
    exists f, store_get k s = Some f /\ mf_type f = short_term /\
              store_get k s' = Some (setType long_term f).

(** [s'] has every record of [s], unchanged. *)
Definition extends (s s' : FactsStore) : Prop :=
  forall k f, store_get k s = Some f -> store_get k s' = Some f.

(** [s'] has some records of [s], unchanged, and no other. *)
Definition shrinks (s s' : FactsStore) : Prop :=
  forall k, store_get k s' = None \/ store_get k s' = store_get k s.

Definition demote : Updates :=
  mkUpdates None None None None None (Some short_term) None None.

Definition oneLongTerm : FactsStore :=
  [sampleFact "fact-1" text_dislikes_coriander 1000 long_term].

Definition retext : Updates :=
  mkUpdates None (Some text_coriander) None None None None None None.

Definition sampleOps : list Op :=
  [OpUpdate "fact-1" retext;
   OpAdd ("fact-2"%string, 2000%Z) shortTermNote;
   OpPromote "fact-2";
   OpOrganize OracleFails;
   OpDelete "fact-2"].

(** *** Consolidation *)

(** The long-term fact that stands for one summary: category
    [shared_event], importance 0.8, source [system]. *)
Definition summaryRecord (stamp : string * Z) (summary : jsstring)
  : MemoryFact :=
  {| mf_id := fst stamp;
     mf_fact := summary;
     mf_category := shared_event;
     mf_timestamp := snd stamp;
     mf_originalEventDate := None;
     mf_type := long_term;
     mf_importance := Some (8 # 10);
     mf_source := Some system |}.

(** The first [n] stamps carry ids that are new to [s] and differ from one
    another: no [add] of the call is rejected. *)
Definition freshStamps (stamp : nat -> string * Z) (n : nat) (s : FactsStore)
  : Prop :=
  (forall i, (i < n)%nat -> store_get (fst (stamp i)) s = None) /\
  (forall i j, (i < j < n)%nat -> fst (stamp i) <> fst (stamp j)).

Definition eightLongTerm : FactsStore :=
  map (fun p => sampleFact (fst p) text_dislikes_coriander (snd p) long_term)
      [("fact-1", 1000); ("fact-2", 2000); ("fact-3", 3000); ("fact-4", 4000);
       ("fact-5", 5000); ("fact-6", 6000); ("fact-7", 7000);
       ("fact-8", 8000)]%string%Z.

(** Ids "sum-a", "sum-b", ... at times 9000, 9001, ... *)
Definition summaryStamp (i : nat) : string * Z :=
  (String "s" (String "u" (String "m" (String "-"
     (String (ascii_of_nat (97 + i)) EmptyString)))),
   (9000 + Z.of_nat i)%Z).

Definition threeSummaries : list jsstring :=
  [js "likes running"; js "dislikes coriander"; js "lives in Osaka"].

(** *** Extraction from the history *)

(** The texts of the candidates that carry one. *)
Fixpoint factsOf (memories : list Candidate) : list jsstring :=
  match memories with
  | [] => []
  | mem :: rest =>
      match factOf mem with
      | Some fact => fact :: factsOf rest
      | None => factsOf rest
      end
  end.

(** [s'] has every record of [s], and long-term facts of source [system]
    besides. *)
Definition addsLongTerm (s s' : FactsStore) : Prop :=
  extends s s' /\
  forall k g, store_get k s' = Some g ->
              store_get k s = Some g \/
              (mf_type g = long_term /\ mf_source g = Some system).

Definition oneExchange : list Message :=
  [mkMessage user (js "I cannot stand coriander") 1000 None;
   mkMessage assistant (js "Noted!") 2000 None].

(** Six candidates, all with the text "香菜". *)
Definition sixCandidates : list Candidate :=
  repeat (sampleCandidate text_coriander) 6.

(** *** Vectors *)

(** Sum of the squares, inner product and Euclidean norm. *)
Definition sumsq (v : list R) : R :=
  fold_right (fun x acc => (x * x + acc)%R) 0%R v.

Fixpoint dotR (v1 v2 : list R) : R :=
  match v1, v2 with
  | a :: r1, b :: r2 => (a * b + dotR r1 r2)%R
  | _, _ => 0%R
  end.

Definition euclideanNorm (v : list R) : R := sqrt (sumsq v).

Definition sumsqZ (v : list Z) : Z :=
  fold_right (fun x acc => (x * x + acc)%Z) 0%Z v.

Fixpoint dotZ (v1 v2 : list Z) : Z :=
  match v1, v2 with
  | a :: r1, b :: r2 => (a * b + dotZ r1 r2)%Z
  | _, _ => 0%Z
  end.

(** *** Doubles *)

(** What the proofs use of the rounding to the nearest double: the
    integers up to 2^53 are doubles, and in the range of the normal
    doubles the error of the rounding is at most the 2^53-th part of the
    number. *)
Definition roundsToNearest (fl : R -> R) : Prop :=
  (forall z, (Z.abs z <= 2 ^ 53)%Z -> fl (IZR z) = IZR z) /\
  (forall x, (/ IZR (2 ^ 1022) <= Rabs x <= IZR (2 ^ 1023))%R ->
             (Rabs (fl x - x) <= Rabs x / IZR (2 ^ 53))%R).

(** *** Sample stickers *)

(** [toLowerCase] on text that has no upper-case letter. *)
Definition lowerCaseText (text : jsstring) : jsstring := text.

(** A sticker whose stored embedding is the embedding of "happy". *)
Definition happySticker : StickerCache :=
  {| sc_id := "sticker-1";
     sc_prompt := js "happy";
     sc_type := hikari_emotion;
     sc_detail := js "happy";
     sc_imageData := js "data:image/png;base64,AAAA";
     sc_embedding := computeTextEmbedding lowerCaseText (js "happy");
     sc_createdAt := 1000;
     sc_usageCount := 1 |}.

End Vocabulary.
Import Vocabulary.

(* ================================================================= *)
(** * The rest of the services *)

(** ** types.ts, continued *)

Record Relation := mkRelation {
  rel_id : string;
  rel_source : jsstring;
  rel_predicate : jsstring;
  rel_target : jsstring;
  rel_timestamp : Z
}.

Record Personality := mkPersonality {
  cheerfulness : Q;
  gentleness : Q;
  energy : Q;
  curiosity : Q;
  empathy : Q
}.

(** [ChatSession]; the field [x] of the source is [cs_x] here.  The times,
    ISO strings in the source, hold what [new Date(...).getTime()] returns
    for them.  The [id] of a [Message], which no function of the services
    reads, is not part of [Message]. *)
Record ChatSession := mkChatSession {
  cs_id : string;
  cs_title : jsstring;
  cs_messages : list Message;
  cs_createdAt : Z;
  cs_updatedAt : Z;
  cs_lastVisitTime : option Z;
  cs_personality : Personality
}.

(** ** [Array.prototype.sort] with the comparator [(a, b) => f(b) - f(a)] *)

Module Listing.
Section Descending.
Context {A : Type}.
Variable f : A -> Z.

Fixpoint insertDesc (x : A) (l : list A) : list A :=
  match l with
  | [] => [x]
  | y :: r => if (f y <=? f x)%Z then x :: y :: r else y :: insertDesc x r
  end.

(** Largest [f] first; records with the same [f] keep their order. *)
Definition sortDesc (l : list A) : list A := fold_right insertDesc [] l.
End Descending.
End Listing.

(** ** Dates as ISO strings *)

Module JSDate.
Local Open Scope Z_scope.

(** [s < t] on strings: the code units are compared from the left, and a
    proper prefix is smaller. *)

Fixpoint compare (s t : jsstring) : comparison :=
  match s, t with
  | [], [] => Eq
  | [], _ :: _ => Lt
  | _ :: _, [] => Gt
  | a :: s', b :: t' =>
      match N.compare a b with
      | Eq => compare s' t'
      | c => c
      end
  end.

Definition lessThan (s t : jsstring) : bool :=
  match compare s t with Lt => true | _ => false end.

(** The time values are milliseconds since 1970-01-01T00:00:00Z; the
    definitions below are those of ECMAScript's Date objects.  [/] and
    [mod] on [Z] round down, as [floor] and [modulo] do there. *)
Definition msPerDay : Z := 86400000.
Definition Day (t : Z) : Z := t / msPerDay.
Definition DaysInYear (y : Z) : Z :=
  if negb (y mod 4 =? 0) then 365
  else if negb (y mod 100 =? 0) then 366
  else if negb (y mod 400 =? 0) then 365
  else 366.
Definition DayFromYear (y : Z) : Z :=
  365 * (y - 1970) + (y - 1969) / 4 - (y - 1901) / 100 + (y - 1601) / 400.
(** The largest [y] with [DayFromYear y <= Day t]: the year of the mean
    length of a year, or one of its neighbours. *)
Definition YearFromTime (t : Z) : Z :=
  let y := 1970 + Day t * 400 / 146097 in
  if Day t <? DayFromYear y then y - 1
  else if DayFromYear (y + 1) <=? Day t then y + 1
  else y.
Definition InLeapYear (t : Z) : Z :=
  if DaysInYear (YearFromTime t) =? 366 then 1 else 0.
Definition DayWithinYear (t : Z) : Z := Day t - DayFromYear (YearFromTime t).
(** The table of [MonthFromTime]: the month, 0 to 11, of the day [d] of a
    year. *)
Definition monthOfDay (d leap : Z) : Z :=
  if d <? 31 then 0
  else if d <? 59 + leap then 1
  else if d <? 90 + leap then 2
  else if d <? 120 + leap then 3
  else if d <? 151 + leap then 4
  else if d <? 181 + leap then 5
  else if d <? 212 + leap then 6
  else if d <? 243 + leap then 7
  else if d <? 273 + leap then 8
  else if d <? 304 + leap then 9
  else if d <? 334 + leap then 10
  else 11.

(** The table of [DateFromTime]: the day of the month, from 1. *)
Definition dateOfDay (d leap : Z) : Z :=
  match monthOfDay d leap with
  | 0 => d + 1
  | 1 => d - 30
  | 2 => d - 58 - leap
  | 3 => d - 89 - leap
  | 4 => d - 119 - leap
  | 5 => d - 150 - leap
  | 6 => d - 180 - leap
  | 7 => d - 211 - leap
  | 8 => d - 242 - leap
  | 9 => d - 272 - leap
  | 10 => d - 303 - leap
  | _ => d - 333 - leap
  end.

Definition MonthFromTime (t : Z) : Z :=
  monthOfDay (DayWithinYear t) (InLeapYear t).

Definition DateFromTime (t : Z) : Z :=
  dateOfDay (DayWithinYear t) (InLeapYear t).

Definition HourFromTime (t : Z) : Z := (t / 3600000) mod 24.
Definition MinFromTime (t : Z) : Z := (t / 60000) mod 60.
Definition SecFromTime (t : Z) : Z := (t / 1000) mod 60.
Definition msFromTime (t : Z) : Z := t mod 1000.

(** [n] as [width] decimal digits. *)
Fixpoint digits (width : nat) (n : Z) : jsstring :=
  match width with
  | O => []
  | S w => digits w (n / 10) ++ [Z.to_N (48 + n mod 10)]
  end.

(** Four digits for the years 0 to 9999, a sign and six digits for the
    others. *)
Definition yearString (y : Z) : jsstring :=
  if (0 <=? y) && (y <=? 9999) then digits 4 y
  else (if 0 <=? y then js "+" else js "-") ++ digits 6 (Z.abs y).

(** YYYY-MM-DDTHH:mm:ss.sssZ *)
Definition formatISO (t : Z) : jsstring :=
  yearString (YearFromTime t) ++ js "-" ++
  digits 2 (MonthFromTime t + 1) ++ js "-" ++
  digits 2 (DateFromTime t) ++ js "T" ++
  digits 2 (HourFromTime t) ++ js ":" ++
  digits 2 (MinFromTime t) ++ js ":" ++
  digits 2 (SecFromTime t) ++ js "." ++
  digits 3 (msFromTime t) ++ js "Z".

(** [new Date(t).toISOString()]: a time value beyond 8.64e15 makes an
    invalid date, for which [toISOString] throws a RangeError ([None]). *)
Definition toISOString (t : Z) : option jsstring :=
  if Z.abs t <=? 8640000000000000 then Some (formatISO t) else None.
End JSDate.
Import JSDate.

(** ** services/memoryManager.ts, continued *)

Module MemoryMaintenance.

Definition RelationsStore := ObjectStore.store Relation.

(** [Omit<Relation, 'id' | 'timestamp'>] *)
Record NewRelation := mkNewRelation {
  nr_source : jsstring;
  nr_predicate : jsstring;
  nr_target : jsstring
}.

Definition stampRelation (stamp : string * Z) (relation : NewRelation)
  : Relation :=
  {| rel_id := fst stamp;
     rel_source := nr_source relation;
     rel_predicate := nr_predicate relation;
     rel_target := nr_target relation;
     rel_timestamp := snd stamp |}.

Definition addRelation (stamp : string * Z) (relation : NewRelation)
    (r : RelationsStore) : option (RelationsStore * Relation) :=
  let newRelation := stampRelation stamp relation in
  match ObjectStore.add rel_id newRelation r with
  | Some r' => Some (r', newRelation)
  | None => None
  end.

Definition getAllRelations (r : RelationsStore) : list Relation :=
  Listing.sortDesc rel_timestamp r.

Definition deleteRelation (relationId : string) (r : RelationsStore)
  : RelationsStore :=
  ObjectStore.delete rel_id relationId r.

(** [fact.timestamp]: the string that [new Date().toISOString()] gave at
    the time [mf_timestamp]. *)
Definition timestampOf (fact : MemoryFact) : jsstring :=
  formatISO (mf_timestamp fact).

(** [cleanupOldShortTermMemories]: [now] is [Date.now()].  The cursor runs
    over the short-term records and deletes the ones whose timestamp, an
    ISO string, is smaller than the ISO string of the cutoff.  [None] is
    the RangeError of [toISOString] for a cutoff that is no valid date. *)
Definition cleanupOldShortTermMemories (now : Z) (maxAgeHours : Z)
    (s : FactsStore) : option FactsStore :=
  match toISOString (now - maxAgeHours * 60 * 60 * 1000)%Z with
  | None => None
  | Some cutoffTime =>
      Some (fold_left
              (fun st fact =>
                 if lessThan (timestampOf fact) cutoffTime
                 then store_delete (mf_id fact) st
                 else st)
              (indexGetAll short_term s) s)
  end.

Record MemoryStats := mkMemoryStats {
  totalFacts : nat;
  shortTermCount : nat;
  longTermCount : nat;
  relationsCount : nat
}.

Definition getMemoryStats (s : FactsStore) (r : RelationsStore)
  : MemoryStats :=
  {| totalFacts := length (getAllMemoryFacts s);
     shortTermCount := length (getShortTermMemories s);
     longTermCount := length (getLongTermMemories s);
     relationsCount := length (getAllRelations r) |}.

(** *** migrateFromLocalStorage *)

(** A fact of the old [hikari_memory_v5] data: [type] may be missing. *)
Record LegacyFact := mkLegacyFact {
  lf_id : string;
  lf_fact : jsstring;
  lf_category : Category;
  lf_timestamp : Z;
  lf_originalEventDate : option jsstring;
  lf_type : option MemoryType;
  lf_importance : option Q;
  lf_source : option Source
}.

Record LegacyData := mkLegacyData {
  ld_facts : option (list LegacyFact);
  ld_relations : option (list Relation)
}.

(** What [localStorage.getItem] holds: text that [JSON.parse] rejects, or
    the parsed data. *)
Inductive Saved :=
| Unparsable
| Parsed (oldData : LegacyData).

(** [if (!fact.type) { type = 'short_term'; importance = 0.5;
    source = 'system' }], and what [addMemoryFact] keeps of the fact. *)
Definition legacyToNew (fact : LegacyFact) : NewFact :=
  match lf_type fact with
  | None =>
      {| nf_fact := lf_fact fact;
         nf_category := lf_category fact;
         nf_originalEventDate := lf_originalEventDate fact;
         nf_type := short_term;
         nf_importance := Some (5 # 10);
         nf_source := Some system |}
  | Some type =>
      {| nf_fact := lf_fact fact;
         nf_category := lf_category fact;
         nf_originalEventDate := lf_originalEventDate fact;
         nf_type := type;
         nf_importance := lf_importance fact;
         nf_source := lf_source fact |}
  end.

Definition relationToNew (relation : Relation) : NewRelation :=
  {| nr_source := rel_source relation;
     nr_predicate := rel_predicate relation;
     nr_target := rel_target relation |}.

(** [for (const fact of oldData.facts || []) await addMemoryFact(fact)]:
    the [k]-th [addMemoryFact] receives [stamp k]; [false] is a rejected
    [add]. *)
Fixpoint migrateFacts (stamp : nat -> string * Z) (k : nat)
    (facts : list LegacyFact) (s : FactsStore) : FactsStore * bool :=
  match facts with
  | [] => (s, true)
  | fact :: rest =>
      match addMemoryFact (stamp k) (legacyToNew fact) s with
      | Some (s', _) => migrateFacts stamp (S k) rest s'
      | None => (s, false)
      end
  end.

Fixpoint migrateRelations (stamp : nat -> string * Z) (k : nat)
    (relations : list Relation) (r : RelationsStore) : RelationsStore * bool :=
  match relations with
  | [] => (r, true)
  | relation :: rest =>
      match addRelation (stamp k) (relationToNew relation) r with
      | Some (r', _) => migrateRelations stamp (S k) rest r'
      | None => (r, false)
      end
  end.

Record Persisted := mkPersisted {
  p_saved : option Saved;
  p_facts : FactsStore;
  p_relations : RelationsStore
}.

(** [migrateFromLocalStorage]: the old data are removed only when every
    fact and every relation was added. *)
Definition migrateFromLocalStorage (factStamp relationStamp : nat -> string * Z)
    (p : Persisted) : Persisted :=
  match p_saved p with
  | None => p
  | Some Unparsable => p
  | Some (Parsed oldData) =>
      match migrateFacts factStamp 0 (orElse (ld_facts oldData) [])
              (p_facts p) with
      | (s', false) => mkPersisted (p_saved p) s' (p_relations p)
      | (s', true) =>
          match migrateRelations relationStamp 0
                  (orElse (ld_relations oldData) []) (p_relations p) with
          | (r', false) => mkPersisted (p_saved p) s' r'
          | (r', true) => mkPersisted None s' r'
          end
      end
  end.

End MemoryMaintenance.
Import MemoryMaintenance.

(** ** services/memoryProcessor.ts, continued *)

Module Recording.

(** [shouldRecordMemory]: [random] is [Math.random()]. *)
Definition shouldRecordMemory (conversationRounds : Z) (random : Q) : bool :=
  (Z.rem conversationRounds 2 =? 0)%Z || negb (Qle_bool random (5 # 10)).

End Recording.
Import Recording.

(** ** services/stickerCache.ts, continued *)

Module CacheAdmin.

Definition getAllCachedStickers (s : StickerStore) : list StickerCache := s.

Record StickerCacheStats := mkStickerCacheStats {
  totalCached : nat;
  totalSize : nat;
  hitRate : Q;
  mostUsed : list StickerCache
}.

Definition getCacheStats (s : StickerStore) : StickerCacheStats :=
  let stickers := getAllCachedStickers s in
  let totalSize :=
    fold_left (fun total sticker =>
                 (total + length (sc_imageData sticker) * 2)%nat)
              stickers 0%nat in
  let mostUsed := firstn 10 (Listing.sortDesc sc_usageCount stickers) in
  {| totalCached := length stickers;
     totalSize := totalSize;
     hitRate := 0;
     mostUsed := mostUsed |}.

Definition deleteSticker (id : string) (s : StickerStore) : StickerStore :=
  ObjectStore.delete sc_id id s.

Definition clearAllCache (s : StickerStore) : StickerStore := [].

End CacheAdmin.
Import CacheAdmin.

(** ** services/gemini.ts: generateSticker *)

Module Gemini.

Definition CHARACTER_VISUAL_BASE : jsstring :=
  js "Chibi anime style, 17-year-old girl Hoshino Hikari, pink ribbons in hair, blue energetic eyes, white and pink idol outfit, simple clean lineart, white background, high quality 2D vector sticker.".

Definition finalPromptOf (type : StickerType) (detail : jsstring) : jsstring :=
  match type with
  | hikari_emotion =>
      CHARACTER_VISUAL_BASE ++ js " Expression: " ++ detail
      ++ js ". White background."
  | food_item =>
      js "Kawaii watercolor food sticker: " ++ detail
      ++ js ", white background, soft shading."
  | landmark =>
      js "Cute chibi landscape sticker: " ++ detail ++ js ", white background."
  | meme =>
      js "Funny chibi reaction sticker, " ++ detail ++ js ", white background."
  end.

(** A part of the image reply: [inlineData] ([mimeType], [data]) or none. *)
Definition Part := option (jsstring * jsstring).

(** The first part of the reply that carries [inlineData], as a data URL. *)
Fixpoint firstImage (parts : list Part) : option jsstring :=
  match parts with
  | [] => None
  | Some (mimeType, data) :: _ =>
      Some (js "data:" ++ mimeType ++ js ";base64," ++ data)
  | None :: rest => firstImage rest
  end.

Section Generate.
Variable toLowerCase : jsstring -> jsstring.

(** [generateSticker]: what it returns, and the cache once the dispatched
    [updateUsageCount] or [saveSticker] has run.  The reply is
    [response.candidates?.[0]?.content?.parts || []]. *)
Definition generateSticker (type : StickerType) (detail : jsstring)
    (reply : OracleReply (list Part)) (stamp : string * Z) (s : StickerStore)
  : option jsstring * StickerStore :=
  match findSimilarSticker toLowerCase type detail (7 / 10)%R s with
  | (Some cached, s') => (Some (sc_imageData cached), s')
  | (None, _) =>
      let finalPrompt := finalPromptOf type detail in
      match reply with
      | OracleFails => (None, s)
      | OracleReturns parts =>
          match firstImage parts with
          | Some imageData =>
              (Some imageData,
               match saveSticker toLowerCase stamp finalPrompt type detail
                       imageData s with
               | Some (s', _) => s'
               | None => s
               end)
          | None => (None, s)
          end
      end
  end.
End Generate.

End Gemini.
Import Gemini.

(** ** services/sessionManager.ts *)

Module SessionManager.

Definition SessionStore := ObjectStore.store ChatSession.

(** '新对话' *)
Definition newChatTitle : jsstring := [0x65B0; 0x5BF9; 0x8BDD]%N.

Definition isUser (m : Message) : bool :=
  match msg_role m with user => true | assistant => false end.

Definition generateTitle (messages : list Message) : jsstring :=
  match messages with
  | [] => newChatTitle
  | _ =>
      match find isUser messages with
      | Some firstUserMsg =>
          let content := msg_content firstUserMsg in
          if (20 <? length content)%nat
          then substring content 0 20 ++ js "..."
          else content
      | None => newChatTitle
      end
  end.

Definition defaultPersonality : Personality :=
  {| cheerfulness := 8 # 10;
     gentleness := 6 # 10;
     energy := 9 # 10;
     curiosity := 7 # 10;
     empathy := 5 # 10 |}.

(** [createSession]: [stamp] is the fresh id and [now]. *)
Definition createSession (stamp : string * Z) (firstMessage : option Message)
    (s : SessionStore) : option (SessionStore * ChatSession) :=
  let now := snd stamp in
  let session :=
    {| cs_id := fst stamp;
       cs_title :=
         match firstMessage with
         | Some m => generateTitle [m]
         | None => newChatTitle
         end;
       cs_messages :=
         match firstMessage with Some m => [m] | None => [] end;
       cs_createdAt := now;
       cs_updatedAt := now;
       cs_lastVisitTime := Some now;
       cs_personality := defaultPersonality |} in
  match ObjectStore.add cs_id session s with
  | Some s' => Some (s', session)
  | None => None
  end.

Definition getAllSessions (s : SessionStore) : list ChatSession :=
  Listing.sortDesc cs_updatedAt s.

Definition getSession (sessionId : string) (s : SessionStore)
  : option ChatSession :=
  ObjectStore.get cs_id sessionId s.

(** The session as [updateSession] writes it at time [now]. *)
Definition touched (now : Z) (session : ChatSession) : ChatSession :=
  {| cs_id := cs_id session;
     cs_title :=
       if (0 <? length (cs_messages session))%nat
       then generateTitle (cs_messages session)
       else cs_title session;
     cs_messages := cs_messages session;
     cs_createdAt := cs_createdAt session;
     cs_updatedAt := now;
     cs_lastVisitTime := cs_lastVisitTime session;
     cs_personality := cs_personality session |}.

Definition updateSession (now : Z) (session : ChatSession) (s : SessionStore)
  : SessionStore :=
  ObjectStore.put cs_id (touched now session) s.

(** [None] is the thrown 'Session not found'. *)
Definition addMessageToSession (now : Z) (sessionId : string)
    (message : Message) (personality : option Personality) (s : SessionStore)
  : option SessionStore :=
  match getSession sessionId s with
  | None => None
  | Some session =>
      let session :=
        {| cs_id := cs_id session;
           cs_title := cs_title session;
           cs_messages := cs_messages session ++ [message];
           cs_createdAt := cs_createdAt session;
           cs_updatedAt := cs_updatedAt session;
           cs_lastVisitTime := cs_lastVisitTime session;
           cs_personality := orElse personality (cs_personality session) |} in
      Some (updateSession now session s)
  end.

Definition deleteSession (sessionId : string) (s : SessionStore)
  : SessionStore :=
  ObjectStore.delete cs_id sessionId s.

Definition clearAllSessions (s : SessionStore) : SessionStore := [].

Definition updateSessionTitle (now : Z) (sessionId : string)
    (newTitle : jsstring) (s : SessionStore) : option SessionStore :=
  match getSession sessionId s with
  | None => None
  | Some session =>
      let session :=
        {| cs_id := cs_id session;
           cs_title := newTitle;
           cs_messages := cs_messages session;
           cs_createdAt := cs_createdAt session;
           cs_updatedAt := cs_updatedAt session;
           cs_lastVisitTime := cs_lastVisitTime session;
           cs_personality := cs_personality session |} in
      Some (updateSession now session s)
  end.

End SessionManager.
Import SessionManager.

(** ** The handlers of the application that call the memory services *)

Module App.

(** [handlePromoteAllShortTerm], once the user has confirmed: [facts] is
    [memory.facts], the facts as the application last loaded them. *)
Definition handlePromoteAllShortTerm (facts : list MemoryFact) (s : FactsStore)
  : FactsStore :=
  let shortTermFacts :=
    filter (fun f => MemoryType_eqb (mf_type f) short_term) facts in
  fold_left (fun st fact => promoteToLongTerm (mf_id fact) st)
            shortTermFacts s.

End App.
Import App.

(** ** Vocabulary of the further properties *)

Module Vocabulary2.

(** [out] lists [l] with the largest [f] first, records with the same [f]
    in the order they have in [l]. *)
Definition descendingOf {A} (f : A -> Z) (l out : list A) : Prop :=
  Permutation out l /\
  StronglySorted (fun a b => (f b <= f a)%Z) out /\
  forall t, filter (fun x => (f x =? t)%Z) out
            = filter (fun x => (f x =? t)%Z) l.

(** An update that renames: it names the id "fact-9". *)
Definition rename : Updates :=
  mkUpdates (Some "fact-9"%string) None None None None None None None.

(** Two short-term facts, one from time 1000 and one from time 9000000,
    and a long-term fact from time 1000. *)
Definition oldAndNew : FactsStore :=
  [sampleFact "fact-1" text_dislikes_coriander 1000 short_term;
   sampleFact "fact-2" text_coriander 9000000 short_term;
   sampleFact "fact-3" text_dislikes_vegetables 1000 long_term].

(** *** Adding a list of facts *)

(** [addMemoryFact] once per fact of the list, the [i]-th with the stamp
    [stamp (k + i)], up to the first rejected one; [false] when one was
    rejected. *)
Fixpoint addAll (stamp : nat -> string * Z) (k : nat) (facts : list NewFact)
    (s : FactsStore) : FactsStore * bool :=
  match facts with
  | [] => (s, true)
  | fact :: rest =>
      match addMemoryFact (stamp k) fact s with
      | Some (s', _) => addAll stamp (S k) rest s'
      | None => (s, false)
      end
  end.

Definition noFact : NewFact :=
  {| nf_fact := [];
     nf_category := shared_event;
     nf_originalEventDate := None;
     nf_type := short_term;
     nf_importance := None;
     nf_source := None |}.

(** The ids of the first [n] stamps are new to the relations and differ
    from one another. *)
Definition freshRelationStamps (stamp : nat -> string * Z) (n : nat)
    (r : RelationsStore) : Prop :=
  (forall i, (i < n)%nat -> ObjectStore.get rel_id (fst (stamp i)) r = None) /\
  (forall i j, (i < j < n)%nat -> fst (stamp i) <> fst (stamp j)).

(** *** Sample data of a migration *)

Definition legacyFacts : list LegacyFact :=
  [mkLegacyFact "old-1" text_dislikes_coriander userinfo 10 None None None None;
   mkLegacyFact "old-2" text_coriander hikari_info 20 None (Some long_term)
     (Some (9 # 10)) (Some conversation)].

Definition legacyRelations : list Relation :=
  [mkRelation "oldrel-1" (js "fan") (js "likes") (js "takoyaki") 30].

Definition legacyData : LegacyData :=
  mkLegacyData (Some legacyFacts) (Some legacyRelations).

Definition beforeMigration : Persisted :=
  mkPersisted (Some (Parsed legacyData)) corianderStore [].

(** Ids "rel-a", "rel-b", ... at times 9500, 9501, ... *)
Definition relationStampOf (i : nat) : string * Z :=
  (String "r" (String "e" (String "l" (String "-"
     (String (ascii_of_nat (97 + i)) EmptyString)))),
   (9500 + Z.of_nat i)%Z).

Definition clashingMigration : Persisted :=
  mkPersisted (Some (Parsed legacyData)) corianderStore
    [mkRelation "rel-a" (js "fan") (js "likes") (js "ramen") 5].

(** *** Recording *)

(** No two facts of the store are duplicates of one another. *)
Definition duplicateFree (s : FactsStore) : Prop :=
  ForallOrdPairs
    (fun a b => ~ nearDuplicate (mf_fact a) (mf_fact b)) s.

(** *** Pairing the messages *)

(** An assistant message with text and without image. *)
Definition isReply (m : Message) : bool :=
  match msg_role m with
  | assistant =>
      truthy (msg_content m) && negb (truthy (orElse (msg_imageUrl m) []))
  | user => false
  end.

(** A user message with text. *)
Definition isQuestion (m : Message) : bool :=
  match msg_role m with
  | user => truthy (msg_content m)
  | assistant => false
  end.

(** [messages] is a dialogue in which a user message with text and an
    assistant message with text and without image take turns, and
    [exchanges] are their texts, exchange by exchange. *)
Inductive alternating : list Message -> list (jsstring * jsstring) -> Prop :=
| alternating_nil : alternating [] []
| alternating_cons mu ma rest exchanges :
    isQuestion mu = true -> isReply ma = true ->
    alternating rest exchanges ->
    alternating (mu :: ma :: rest)
                ((msg_content mu, msg_content ma) :: exchanges).

(** The first, third, fifth, ... element. *)
Fixpoint everyOther {A} (l : list A) : list A :=
  match l with
  | [] => []
  | x :: rest =>
      x :: match rest with
           | [] => []
           | _ :: rest' => everyOther rest'
           end
  end.

Definition twoExchanges : list Message :=
  [mkMessage user (js "hello") 1000 None;
   mkMessage assistant (js "hi!") 2000 None;
   mkMessage user (js "I like ramen") 3000 None;
   mkMessage assistant (js "me too") 4000 None].

(** *** Dates *)

(** A time of the years 0000 to 9999: from 0000-01-01T00:00:00.000Z to
    9999-12-31T23:59:59.999Z. *)
Definition inFourDigitYears (t : Z) : Prop :=
  (-62167219200000 <= t < 253402300800000)%Z.

(** *** Hashing and counting bigrams *)

(** The polynomial [c0 * 31^(n-1) + ... + c(n-1)] of the code units. *)
Definition poly31 (str : jsstring) : Z :=
  fold_left (fun h c => (31 * h + Z.of_N c)%Z) str 0%Z.

Definition sumZ (v : list Z) : Z := fold_right Z.add 0%Z v.

(** The number of bigrams that a map of features counts. *)
Definition totalOf (features : Features) : Z := sumZ (map snd features).

(** *** Sample data of a generation *)

(** A reply whose second part carries the image. *)
Definition imageReply : list Part :=
  [None; Some (js "image/png", js "AAAA")].

(** The sticker that [generateSticker] saves for "happy" from [imageReply]. *)
Definition generatedSticker : StickerCache :=
  {| sc_id := "sticker-1";
     sc_prompt := finalPromptOf hikari_emotion (js "happy");
     sc_type := hikari_emotion;
     sc_detail := js "happy";
     sc_imageData := js "data:image/png;base64,AAAA";
     sc_embedding :=
       computeTextEmbedding lowerCaseText
         (finalPromptOf hikari_emotion (js "happy") ++ js " " ++ js "happy");
     sc_createdAt := 1000;
     sc_usageCount := 1 |}.

(** *** Sample data of the sessions and of the cache statistics *)

Definition helloMessage : Message := mkMessage user (js "hello") 1000 None.

(** A session that holds [helloMessage], last written at time 1000. *)
Definition helloSession : ChatSession :=
  {| cs_id := "session-1";
     cs_title := js "hello";
     cs_messages := [helloMessage];
     cs_createdAt := 1000;
     cs_updatedAt := 1000;
     cs_lastVisitTime := Some 1000%Z;
     cs_personality := defaultPersonality |}.

(** A session without messages, last written at time 2000. *)
Definition emptySession : ChatSession :=
  {| cs_id := "session-2";
     cs_title := newChatTitle;
     cs_messages := [];
     cs_createdAt := 2000;
     cs_updatedAt := 2000;
     cs_lastVisitTime := Some 2000%Z;
     cs_personality := defaultPersonality |}.

Definition twoSessions : SessionStore := [helloSession; emptySession].

(** The code units of the images of the stickers, all together. *)
Definition imageUnits (stickers : list StickerCache) : nat :=
  list_sum (map (fun sticker => length (sc_imageData sticker)) stickers).

(** No message of the list is a user message. *)
Definition noUserMessage (messages : list Message) : Prop :=
  Forall (fun m => isUser m = false) messages.

End Vocabulary2.
Import Vocabulary2.

(* ================================================================= *)
(** * Properties *)

(** ** Object store *)

Module StoreFacts.
Section Facts.
Context {T : Type}.
Variable key : T -> string.

Local Abbreviation get := (ObjectStore.get key).
Local Abbreviation put := (ObjectStore.put key).
Local Abbreviation replace := (ObjectStore.replace key).
Local Abbreviation insert := (ObjectStore.insert key).
Local Abbreviation delete := (ObjectStore.delete key).
Local Abbreviation uniqueKeys := (ObjectStore.uniqueKeys key).

Lemma get_In k s x : get k s = Some x -> In x s /\ key x = k.
Proof.
  induction s as [|y r IH]; simpl; [discriminate|].
  destruct (String.eqb k (key y)) eqn:E.
  - intros [= ->]. apply String.eqb_eq in E. auto.
  - intros H. destruct (IH H). auto.
Qed.

Lemma In_get x s : In x s -> exists y, get (key x) s = Some y.
Proof.
  induction s as [|y r IH]; simpl; [tauto|].
  intros [E | H].
  - subst y. rewrite String.eqb_refl. eauto.
  - destruct (String.eqb (key x) (key y)); eauto.
Qed.

Lemma get_None_In k s x : get k s = None -> In x s -> key x <> k.
Proof.
  intros Hn Hin E. destruct (In_get _ _ Hin) as [y Hy].
  rewrite E in Hy. congruence.
Qed.

Lemma get_replace_same x s y :
  get (key x) s = Some y -> get (key x) (replace x s) = Some x.
Proof.
  induction s as [|z r IH]; simpl; [discriminate|].
  destruct (String.eqb (key x) (key z)) eqn:E; simpl.
  - now rewrite String.eqb_refl.
  - rewrite E. auto.
Qed.

Lemma get_replace_other k x s :
  k <> key x -> get k (replace x s) = get k s.
Proof.
  intros Hk. induction s as [|z r IH]; simpl; [reflexivity|].
  destruct (String.eqb (key x) (key z)) eqn:E; simpl.
  - apply String.eqb_eq in E. rewrite <- E.
    apply String.eqb_neq in Hk. now rewrite Hk.
  - now rewrite IH.
Qed.

Lemma get_insert_same x s :
  get (key x) s = None -> get (key x) (insert x s) = Some x.
Proof.
  induction s as [|z r IH]; simpl.
  - now rewrite String.eqb_refl.
  - destruct (String.eqb (key x) (key z)) eqn:E; [discriminate|].
    intros H. destruct (String.ltb (key x) (key z)); simpl.
    + now rewrite String.eqb_refl.
    + rewrite E. auto.
Qed.

Lemma get_insert_other k x s :
  k <> key x -> get k (insert x s) = get k s.
Proof.
  intros Hk. apply String.eqb_neq in Hk.
  induction s as [|z r IH]; simpl.
  - now rewrite Hk.
  - destruct (String.ltb (key x) (key z)); simpl.
    + now rewrite Hk.
    + now rewrite IH.
Qed.

Lemma get_put_same x s : get (key x) (put x s) = Some x.
Proof.
  unfold ObjectStore.put. destruct (get (key x) s) eqn:E.
  - eapply get_replace_same; eauto.
  - now apply get_insert_same.
Qed.

Lemma get_put_other k x s : k <> key x -> get k (put x s) = get k s.
Proof.
  intros Hk. unfold ObjectStore.put. destruct (get (key x) s).
  - now apply get_replace_other.
  - now apply get_insert_other.
Qed.

Lemma get_delete_same k s : get k (delete k s) = None.
Proof.
  induction s as [|z r IH]; simpl; [reflexivity|].
  destruct (String.eqb k (key z)) eqn:E; simpl; [assumption|].
  now rewrite E.
Qed.

Lemma get_delete_other k k' s : k <> k' -> get k (delete k' s) = get k s.
Proof.
  intros Hk. induction s as [|z r IH]; simpl; [reflexivity|].
  destruct (String.eqb k' (key z)) eqn:E; simpl.
  - apply String.eqb_eq in E. subst k'.
    apply String.eqb_neq in Hk. now rewrite Hk.
  - now rewrite IH.
Qed.

Lemma get_add k x s s' :
  ObjectStore.add key x s = Some s' ->
  get (key x) s = None /\
  get k s' = if String.eqb k (key x) then Some x else get k s.
Proof.
  unfold ObjectStore.add. destruct (get (key x) s) eqn:E; [discriminate|].
  intros [= <-]. split; [reflexivity|].
  destruct (String.eqb k (key x)) eqn:K.
  - apply String.eqb_eq in K. subst k. now apply get_insert_same.
  - apply String.eqb_neq in K. now apply get_insert_other.
Qed.

(** With unique keys, [get] finds every record of the store. *)
Lemma uniqueKeys_get x s :
  uniqueKeys s = true -> In x s -> get (key x) s = Some x.
Proof.
  induction s as [|z r IH]; simpl; [tauto|].
  intros Hu [E | Hin].
  - subst z. now rewrite String.eqb_refl.
  - apply andb_true_iff in Hu. destruct Hu as [Hz Hr].
    destruct (String.eqb (key x) (key z)) eqn:E; [|auto].
    apply String.eqb_eq in E.
    apply negb_true_iff in Hz.
    assert (existsb (fun y => String.eqb (key z) (key y)) r = true).
    { apply existsb_exists. exists x. split; [assumption|].
      rewrite E. apply String.eqb_refl. }
    congruence.
Qed.

Lemma uniqueKeys_NoDup s : uniqueKeys s = true -> NoDup (map key s).
Proof.
  induction s as [|z r IH]; simpl; [constructor|].
  intros Hu. apply andb_true_iff in Hu. destruct Hu as [Hz Hr].
  constructor; [|auto].
  intros Hin. apply in_map_iff in Hin. destruct Hin as [y [Hy Hin]].
  apply negb_true_iff in Hz.
  assert (existsb (fun y => String.eqb (key z) (key y)) r = true).
  { apply existsb_exists. exists y. split; [assumption|].
    rewrite Hy. apply String.eqb_refl. }
  congruence.
Qed.

(** With unique keys, [replace] is a map over the records. *)
Lemma replace_map x s :
  uniqueKeys s = true ->
  replace x s = map (fun y => if String.eqb (key x) (key y) then x else y) s.
Proof.
  induction s as [|z r IH]; simpl; [reflexivity|].
  intros Hu. apply andb_true_iff in Hu. destruct Hu as [Hz Hr].
  destruct (String.eqb (key x) (key z)) eqn:E.
  - f_equal. apply String.eqb_eq in E.
    apply negb_true_iff in Hz.
    clear IH Hr. induction r as [|w r IH]; simpl; [reflexivity|].
    simpl in Hz. apply orb_false_iff in Hz. destruct Hz as [Hw Hz].
    rewrite E, Hw. f_equal. rewrite <- E. auto.
  - f_equal. auto.
Qed.
End Facts.
End StoreFacts.

(** ** JavaScript strings *)

Lemma str_eqb_eq (s t : jsstring) : str_eqb s t = true <-> s = t.
Proof.
  revert t. induction s as [|a s IH]; intros [|b t]; simpl;
    try (split; [discriminate|discriminate]); try tauto.
  unfold char_eqb. rewrite andb_true_iff, N.eqb_eq, IH.
  split; [intros [-> ->]; reflexivity | intros [= -> ->]; auto].
Qed.

Lemma startsWith_spec (s t : jsstring) :
  startsWith s t = true <-> exists post, s = t ++ post.
Proof.
  revert s. induction t as [|b t IH]; intros s; simpl.
  - split; [eauto | reflexivity].
  - destruct s as [|a s].
    + split; [discriminate | intros [post H]; discriminate].
    + unfold char_eqb. rewrite andb_true_iff, N.eqb_eq, IH. split.
      * intros [-> [post ->]]. eauto.
      * intros [post [= -> ->]]. eauto.
Qed.

Lemma includes_spec (s t : jsstring) :
  includes s t = true <-> isSubstring t s.
Proof.
  unfold isSubstring. induction s as [|a s IH].
  - simpl. rewrite orb_false_r, startsWith_spec. split.
    + intros [post H]. exists [], post. assumption.
    + intros [pre [post H]]. destruct pre; simpl in H.
      * eauto.
      * discriminate.
  - cbn [includes]. rewrite orb_true_iff, startsWith_spec, IH. split.
    + intros [[post H] | [pre [post H]]].
      * exists [], post. assumption.
      * exists (a :: pre), post. rewrite H. reflexivity.
    + intros [pre [post H]]. destruct pre as [|c pre]; simpl in H.
      * left. eauto.
      * right. injection H as _ H. eauto.
Qed.

(** ** Reading the facts *)

Lemma insertByTime_perm x l : Permutation (insertByTime x l) (x :: l).
Proof.
  induction l as [|y r IH]; simpl; [reflexivity|].
  destruct (mf_timestamp y <=? mf_timestamp x)%Z; [reflexivity|].
  rewrite IH. apply perm_swap.
Qed.

Lemma sortNewestFirst_perm l : Permutation (sortNewestFirst l) l.
Proof.
  induction l as [|x r IH]; simpl; [reflexivity|].
  rewrite insertByTime_perm. now constructor.
Qed.

Lemma In_sortNewestFirst m l : In m (sortNewestFirst l) <-> In m l.
Proof.
  split; apply Permutation_in;
    [apply sortNewestFirst_perm | symmetry; apply sortNewestFirst_perm].
Qed.

Lemma In_getShortTermMemories m s :
  In m (getShortTermMemories s) <-> In m s /\ mf_type m = short_term.
Proof.
  unfold getShortTermMemories, indexGetAll.
  rewrite In_sortNewestFirst, filter_In.
  destruct (mf_type m); simpl; intuition congruence.
Qed.

Lemma In_getLongTermMemories m s :
  In m (getLongTermMemories s) <-> In m s /\ mf_type m = long_term.
Proof.
  unfold getLongTermMemories, indexGetAll.
  rewrite In_sortNewestFirst, filter_In.
  destruct (mf_type m); simpl; intuition congruence.
Qed.

(** ** Adding a fact *)

Lemma store_get_insert_same (m : MemoryFact) s :
  store_get (mf_id m) s = None ->
  store_get (mf_id m) (ObjectStore.insert mf_id m s) = Some m.
Proof. apply (StoreFacts.get_insert_same mf_id). Qed.

Lemma addMemoryFact_fresh stamp fact s :
  store_get (fst stamp) s = None ->
  addMemoryFact stamp fact s =
  Some (ObjectStore.insert mf_id (stampFact stamp fact) s,
        stampFact stamp fact).
Proof.
  intros H. unfold addMemoryFact, store_add, ObjectStore.add. simpl.
  unfold store_get in H. now rewrite H.
Qed.

Lemma addMemoryFact_Some stamp fact s s' m :
  addMemoryFact stamp fact s = Some (s', m) ->
  store_get (fst stamp) s = None /\
  m = stampFact stamp fact /\
  forall k,
    store_get k s' =
    if String.eqb k (fst stamp) then Some m else store_get k s.
Proof.
  unfold addMemoryFact, store_add.
  destruct (ObjectStore.add mf_id (stampFact stamp fact) s) as [s0|] eqn:E;
    [|discriminate].
  intros [= <- <-].
  split; [|split; [reflexivity|]].
  - apply (StoreFacts.get_add mf_id (fst stamp)) in E. apply E.
  - intros k. apply (StoreFacts.get_add mf_id k) in E. apply E.
Qed.

Lemma addMemoryFact_None stamp fact s :
  addMemoryFact stamp fact s = None -> store_get (fst stamp) s <> None.
Proof.
  intros H E. rewrite (addMemoryFact_fresh stamp fact s E) in H. discriminate.
Qed.

(** ** Deduplication *)

Lemma isDuplicateOf_spec fact m :
  isDuplicateOf fact m = true <-> nearDuplicate fact (mf_fact m).
Proof.
  unfold isDuplicateOf, nearDuplicate.
  destruct (str_eqb (mf_fact m) fact) eqn:E.
  - apply str_eqb_eq in E. tauto.
  - assert (mf_fact m <> fact).
    { intros H. apply str_eqb_eq in H. congruence. }
    destruct (includes (mf_fact m) fact || includes fact (mf_fact m)) eqn:I.
    + rewrite Z.leb_le. apply orb_true_iff in I.
      rewrite !includes_spec in I. tauto.
    + apply orb_false_iff in I. destruct I as [I1 I2].
      split; [discriminate|].
      intros [? | [[S | S] _]]; [tauto| |];
        apply includes_spec in S; congruence.
Qed.

Lemma isDuplicateMemory_iff fact s :
  isDuplicateMemory fact s = true <->
  exists m, In m s /\ nearDuplicate fact (mf_fact m).
Proof.
  unfold isDuplicateMemory. rewrite existsb_exists. split.
  - intros [m [Hin Hd]]. exists m. split.
    + apply in_app_or in Hin. destruct Hin as [Hin | Hin].
      * now apply In_getShortTermMemories in Hin.
      * now apply In_getLongTermMemories in Hin.
    + now apply isDuplicateOf_spec.
  - intros [m [Hin Hd]]. exists m. split.
    + apply in_or_app. destruct (mf_type m) eqn:Ty.
      * left. now apply In_getShortTermMemories.
      * right. now apply In_getLongTermMemories.
    + now apply isDuplicateOf_spec.
Qed.

Lemma isDuplicateMemory_single fact m :
  isDuplicateMemory fact [m] = isDuplicateOf fact m.
Proof.
  unfold isDuplicateMemory, getShortTermMemories, getLongTermMemories,
    indexGetAll.
  simpl. destruct (mf_type m); simpl; now rewrite orb_false_r.
Qed.

Lemma nearDuplicate_inner (pre t post : jsstring) :
  nearDuplicate t (pre ++ t ++ post) <-> (length pre + length post <= 3)%nat.
Proof.
  unfold nearDuplicate. rewrite !length_app. split.
  - intros [H | [_ H]].
    + apply (f_equal (@length N)) in H. rewrite !length_app in H. lia.
    + lia.
  - intros H. right. split; [|lia].
    left. exists pre, post. reflexivity.
Qed.

Lemma nearDuplicate_outer (pre t post : jsstring) :
  nearDuplicate (pre ++ t ++ post) t <-> (length pre + length post <= 3)%nat.
Proof.
  unfold nearDuplicate. rewrite !length_app. split.
  - intros [H | [_ H]].
    + apply (f_equal (@length N)) in H. rewrite !length_app in H. lia.
    + lia.
  - intros H. right. split; [|lia].
    right. exists pre, post. reflexivity.
Qed.

(** C3. [isDuplicateMemory] answers true exactly when some stored fact,
    short-term or long-term, has the candidate's text, or contains it or is
    contained in it with a difference of at most 3 code units in length.
    With one stored fact [pre ++ t ++ post], the candidate [t] is a duplicate
    exactly when [|pre| + |post| <= 3], and so is the candidate
    [pre ++ t ++ post] against the stored fact [t].  A candidate that is not
    a duplicate is recorded by [recordConversationMemory], as a short-term
    fact. *)
Theorem isDuplicateMemory_correct :
  (forall fact s,
      isDuplicateMemory fact s = true <->
      exists m, In m s /\ nearDuplicate fact (mf_fact m)) /\
  (forall i c ts d ty imp src pre t post,
      isDuplicateMemory t
        [mkMemoryFact i (pre ++ t ++ post) c ts d ty imp src]
      = (length pre + length post <=? 3)%nat) /\
  (forall i c ts d ty imp src pre t post,
      isDuplicateMemory (pre ++ t ++ post)
        [mkMemoryFact i t c ts d ty imp src]
      = (length pre + length post <=? 3)%nat) /\
  (forall result fact stamp s,
      factOf result = Some fact ->
      isDuplicateMemory fact s = false ->
      store_get (fst stamp) s = None ->
      exists m,
        store_get (fst stamp)
          (recordConversationMemory (OracleReturns (Some result)) stamp s)
        = Some m /\
        mf_fact m = fact /\ mf_type m = short_term /\
        mf_source m = Some conversation).
Proof.
  split; [exact isDuplicateMemory_iff|].
  split; [|split].
  - intros. rewrite isDuplicateMemory_single.
    apply eq_iff_eq_true.
    rewrite isDuplicateOf_spec, Nat.leb_le. simpl.
    apply nearDuplicate_inner.
  - intros. rewrite isDuplicateMemory_single.
    apply eq_iff_eq_true.
    rewrite isDuplicateOf_spec, Nat.leb_le. simpl.
    apply nearDuplicate_outer.
  - intros result fact stamp s Hf Hd Hg.
    unfold recordConversationMemory. rewrite Hf, Hd.
    rewrite (addMemoryFact_fresh stamp _ s Hg).
    eexists. split.
    + apply (store_get_insert_same (stampFact stamp _) s). exact Hg.
    + simpl. auto.
Qed.

Lemma isDuplicateMemory_correct_witness :
  isDuplicateMemory text_coriander corianderStore = true /\
  isDuplicateMemory text_dislikes_vegetables corianderStore = false /\
  exists m,
    store_get "fact-2"
      (recordConversationMemory
         (OracleReturns (Some (sampleCandidate text_dislikes_vegetables)))
         ("fact-2"%string, 2000%Z) corianderStore) = Some m /\
    mf_fact m = text_dislikes_vegetables /\ mf_type m = short_term /\
    mf_source m = Some conversation.
Proof.
  split; [reflexivity|]. split; [reflexivity|].
  apply (proj2 (proj2 (proj2 isDuplicateMemory_correct))
           (sampleCandidate text_dislikes_vegetables)
           text_dislikes_vegetables ("fact-2"%string, 2000%Z) corianderStore);
    reflexivity.
Defined.

(** ** Promotion *)

Lemma setType_same ty f : mf_type f = ty -> setType ty f = f.
Proof. destruct f; simpl; intros <-; reflexivity. Qed.

Lemma uniqueKeys_map (g : MemoryFact -> MemoryFact) s :
  (forall f, mf_id (g f) = mf_id f) ->
  store_uniqueKeys (map g s) = store_uniqueKeys s.
Proof.
  intros Hg. induction s as [|x r IH]; simpl; [reflexivity|].
  rewrite IH. f_equal. f_equal.
  rewrite Hg. clear IH. induction r as [|y r IH]; simpl; [reflexivity|].
  now rewrite Hg, IH.
Qed.

Lemma uniqueKeys_same_record f g s :
  store_uniqueKeys s = true -> In f s -> In g s -> mf_id f = mf_id g -> f = g.
Proof.
  intros Hu Hf Hg E.
  pose proof (StoreFacts.uniqueKeys_get mf_id f s Hu Hf) as H1.
  pose proof (StoreFacts.uniqueKeys_get mf_id g s Hu Hg) as H2.
  rewrite E in H1. congruence.
Qed.

Lemma promoteAll_nil s : promoteAll [] s = s.
Proof. unfold promoteAll. simpl. apply map_id. Qed.

Lemma promoteAll_uniqueKeys ids s :
  store_uniqueKeys (promoteAll ids s) = store_uniqueKeys s.
Proof.
  apply uniqueKeys_map. intros f.
  destruct (existsb (String.eqb (mf_id f)) ids); reflexivity.
Qed.

(** With unique keys, [promoteToLongTerm] is a map over the records. *)
Lemma promoteToLongTerm_map k s :
  store_uniqueKeys s = true -> promoteToLongTerm k s = promoteAll [k] s.
Proof.
  intros Hu. unfold promoteToLongTerm, promoteAll.
  destruct (store_get k s) as [fact|] eqn:G.
  - destruct (StoreFacts.get_In mf_id k s fact G) as [Hin Hk].
    destruct (mf_type fact) eqn:Ty.
    + unfold store_put, ObjectStore.put. simpl.
      rewrite Hk. unfold store_get in G. rewrite G.
      rewrite (StoreFacts.replace_map mf_id _ s Hu). simpl.
      apply map_ext_in. intros y Hy. rewrite Hk, orb_false_r.
      rewrite (String.eqb_sym (mf_id y) k).
      destruct (String.eqb k (mf_id y)) eqn:E; [|reflexivity].
      apply String.eqb_eq in E.
      f_equal. apply (uniqueKeys_same_record fact y s); congruence.
    + symmetry. rewrite <- (map_id s) at 2.
      apply map_ext_in. intros y Hy. simpl. rewrite orb_false_r.
      destruct (String.eqb (mf_id y) k) eqn:E; [|reflexivity].
      apply String.eqb_eq in E.
      apply setType_same.
      rewrite (uniqueKeys_same_record y fact s); congruence.
  - symmetry. rewrite <- (map_id s) at 2.
    apply map_ext_in. intros y Hy. simpl. rewrite orb_false_r.
    destruct (String.eqb (mf_id y) k) eqn:E; [|reflexivity].
    apply String.eqb_eq in E.
    exfalso. apply (StoreFacts.get_None_In mf_id k s y G Hy E).
Qed.

Lemma promoteAll_cons k ids s :
  promoteAll ids (promoteAll [k] s) = promoteAll (k :: ids) s.
Proof.
  unfold promoteAll. rewrite map_map. apply map_ext. intros f. simpl.
  rewrite orb_false_r.
  destruct (String.eqb (mf_id f) k); simpl.
  - destruct (existsb (String.eqb (mf_id f)) ids); reflexivity.
  - reflexivity.
Qed.

Lemma fold_promote ids s :
  store_uniqueKeys s = true ->
  fold_left (fun st i => promoteToLongTerm i st) ids s = promoteAll ids s.
Proof.
  revert s. induction ids as [|k ids IH]; intros s Hu; simpl.
  - symmetry. apply promoteAll_nil.
  - rewrite promoteToLongTerm_map by assumption.
    rewrite IH by (now rewrite promoteAll_uniqueKeys).
    apply promoteAll_cons.
Qed.

Lemma fold_promote_facts (l : list MemoryFact) s :
  store_uniqueKeys s = true ->
  fold_left (fun st m => promoteToLongTerm (mf_id m) st) l s
  = promoteAll (map mf_id l) s.
Proof.
  intros Hu. rewrite <- fold_promote by assumption.
  clear Hu. revert s. induction l as [|m l IH]; intros s; simpl; auto.
Qed.

Lemma promoteKept_spec keepIndices i memories s p :
  store_uniqueKeys s = true ->
  promoteKept keepIndices i memories s p
  = (promoteAll (map mf_id (keptFrom keepIndices i memories)) s,
     (p + length (keptFrom keepIndices i memories))%nat).
Proof.
  revert i s p. induction memories as [|m rest IH]; intros i s p Hu; simpl.
  - rewrite promoteAll_nil. f_equal. lia.
  - destruct (existsb (Z.eqb (Z.of_nat i + 1)) keepIndices).
    + rewrite IH.
      * rewrite promoteToLongTerm_map by assumption. simpl.
        rewrite promoteAll_cons. f_equal. lia.
      * rewrite promoteToLongTerm_map by assumption.
        now rewrite promoteAll_uniqueKeys.
    + now apply IH.
Qed.

Lemma keepCountOf_floor n : keepCountOf n = (2 * n / 5)%nat.
Proof.
  unfold keepCountOf.
  change (Qfloor (inject_Z (Z.of_nat n) * (4 # 10)))
    with (Z.of_nat n * 4 / 10)%Z.
  apply Nat2Z.inj. rewrite Z2Nat.id by (apply Z.div_pos; lia).
  rewrite Nat2Z.inj_div, Nat2Z.inj_mul.
  change (Z.of_nat 2) with 2%Z. change (Z.of_nat 5) with 5%Z.
  replace 10%Z with (2 * 5)%Z by reflexivity.
  replace (Z.of_nat n * 4)%Z with (2 * (2 * Z.of_nat n))%Z by lia.
  rewrite Z.div_mul_cancel_l by lia. reflexivity.
Qed.

(** Of 9 short-term facts the fallback keeps 3, of 5 it keeps 2. *)
Example keepCountOf_9 : keepCountOf 9 = 3%nat /\ keepCountOf 5 = 2%nat.
Proof. split; reflexivity. Qed.

Lemma keepCountOf_le n : (keepCountOf n <= n)%nat.
Proof.
  rewrite keepCountOf_floor.
  apply Nat.Div0.div_le_upper_bound. lia.
Qed.

Lemma organizeMemories_spec reply s :
  store_uniqueKeys s = true ->
  let shortTermMemories := getShortTermMemories s in
  let selected := selectedBy reply shortTermMemories in
  organizeMemories reply s
  = (promoteAll (map mf_id selected) s,
     if (length shortTermMemories <? 5)%nat then mkOrganizeResult 0 0
     else mkOrganizeResult (length selected)
            (length shortTermMemories - length selected)).
Proof.
  intros Hu stm selected. subst selected. unfold organizeMemories, selectedBy.
  fold stm. destruct (length stm <? 5)%nat.
  - simpl. now rewrite promoteAll_nil.
  - destruct reply as [|keep_indices].
    + rewrite fold_promote_facts by assumption.
      rewrite length_firstn, Nat.min_l by apply keepCountOf_le.
      reflexivity.
    + rewrite promoteKept_spec by assumption. reflexivity.
Qed.

Lemma Forall2_map_in {A} (R : A -> A -> Prop) (g : A -> A) l :
  (forall x, In x l -> R x (g x)) -> Forall2 R l (map g l).
Proof.
  induction l as [|x l IH]; simpl; intros H; constructor; auto.
Qed.

Lemma promoteAll_Forall2 selected s :
  store_uniqueKeys s = true ->
  (forall f, In f selected -> In f s) ->
  Forall2 (fun f f' => f' = f \/ (In f selected /\ f' = setType long_term f))
          s (promoteAll (map mf_id selected) s).
Proof.
  intros Hu Hsel. apply Forall2_map_in. intros f Hf.
  destruct (existsb (String.eqb (mf_id f)) (map mf_id selected)) eqn:E;
    [|now left].
  right. split; [|reflexivity].
  apply existsb_exists in E. destruct E as [k [Hk E]].
  apply String.eqb_eq in E. apply in_map_iff in Hk.
  destruct Hk as [m [Hm Hin]].
  rewrite (uniqueKeys_same_record f m s); auto. congruence.
Qed.

Lemma promoteAll_unselected selected s f :
  store_uniqueKeys s = true ->
  (forall m, In m selected -> In m s) ->
  In f s -> ~ In f selected ->
  In f (promoteAll (map mf_id selected) s).
Proof.
  intros Hu Hsel Hf Hn. unfold promoteAll. apply in_map_iff. exists f.
  split; [|assumption].
  destruct (existsb (String.eqb (mf_id f)) (map mf_id selected)) eqn:E;
    [|reflexivity].
  apply existsb_exists in E. destruct E as [k [Hk E]].
  apply String.eqb_eq in E. apply in_map_iff in Hk.
  destruct Hk as [m [Hm Hin]].
  exfalso. apply Hn.
  rewrite (uniqueKeys_same_record f m s); auto. congruence.
Qed.

Lemma In_keptFrom keepIndices i memories f :
  In f (keptFrom keepIndices i memories) -> In f memories.
Proof.
  revert i. induction memories as [|m rest IH]; intros i; simpl; [tauto|].
  destruct (existsb (Z.eqb (Z.of_nat i + 1)) keepIndices); simpl;
    intuition eauto.
Qed.

Lemma In_firstn_In {A} (x : A) n l : In x (firstn n l) -> In x l.
Proof.
  intros H. rewrite <- (firstn_skipn n l). apply in_or_app. now left.
Qed.

Lemma In_selectedBy reply shortTermMemories f :
  In f (selectedBy reply shortTermMemories) -> In f shortTermMemories.
Proof.
  unfold selectedBy. destruct (length shortTermMemories <? 5)%nat;
    [simpl; tauto|].
  destruct reply.
  - apply In_firstn_In.
  - apply In_keptFrom.
Qed.

(** C8. [organizeMemories] deletes no fact: the store keeps its records,
    each one unchanged or, when it was selected for promotion, with its type
    set to long-term; a short-term fact that was not selected is still a
    short-term fact afterwards; and with 5 short-term facts or more the
    result reports as removed every short-term fact that was not promoted. *)
Theorem organizeMemories_deletes_nothing reply s :
  store_uniqueKeys s = true ->
  let shortTermMemories := getShortTermMemories s in
  let selected := selectedBy reply shortTermMemories in
  let s' := fst (organizeMemories reply s) in
  let result := snd (organizeMemories reply s) in
  Forall2 (fun f f' => f' = f \/ (In f selected /\ f' = setType long_term f))
          s s' /\
  (forall f, In f selected -> In f shortTermMemories) /\
  (forall f, In f shortTermMemories -> ~ In f selected ->
             In f (getShortTermMemories s')) /\
  ((5 <= length shortTermMemories)%nat ->
   promoted result = length selected /\
   removed result = (length shortTermMemories - promoted result)%nat).
Proof.
  intros Hu stm selected s' result.
  subst s' result. rewrite (organizeMemories_spec reply s Hu). simpl.
  fold stm. fold selected.
  assert (Hsel : forall f, In f selected -> In f s).
  { intros f Hf. apply In_selectedBy in Hf.
    now apply In_getShortTermMemories in Hf. }
  split; [now apply promoteAll_Forall2|].
  split; [intros f; apply In_selectedBy|].
  split.
  - intros f Hf Hn. apply In_getShortTermMemories in Hf.
    destruct Hf as [Hf Ty].
    apply In_getShortTermMemories. split; [|assumption].
    now apply promoteAll_unselected.
  - intros Hn. apply Nat.ltb_ge in Hn. rewrite Hn. simpl. auto.
Qed.

Lemma organizeMemories_deletes_nothing_witness :
  let reply := OracleReturns (Some [1; 3]%Z) in
  let shortTermMemories := getShortTermMemories fiveShortTerm in
  let selected := selectedBy reply shortTermMemories in
  let s' := fst (organizeMemories reply fiveShortTerm) in
  let result := snd (organizeMemories reply fiveShortTerm) in
  Forall2 (fun f f' => f' = f \/ (In f selected /\ f' = setType long_term f))
          fiveShortTerm s' /\
  (forall f, In f selected -> In f shortTermMemories) /\
  (forall f, In f shortTermMemories -> ~ In f selected ->
             In f (getShortTermMemories s')) /\
  ((5 <= length shortTermMemories)%nat ->
   promoted result = length selected /\
   removed result = (length shortTermMemories - promoted result)%nat).
Proof.
  exact (organizeMemories_deletes_nothing
           (OracleReturns (Some [1; 3]%Z)) fiveShortTerm eq_refl).
Defined.

(** The result reports 3 facts as removed, and the 5 facts are still there. *)
Example organizeMemories_reports_removed :
  let out := organizeMemories (OracleReturns (Some [1; 3]%Z)) fiveShortTerm in
  removed (snd out) = 3%nat /\ promoted (snd out) = 2%nat /\
  map mf_id (fst out) = map mf_id fiveShortTerm /\
  map mf_type (fst out)
  = [short_term; short_term; long_term; short_term; long_term].
Proof. repeat split. Qed.

(** ** The fallback of [organizeMemories] *)

Lemma Permutation_filter {A} (q : A -> bool) l l' :
  Permutation l l' -> Permutation (filter q l) (filter q l').
Proof.
  induction 1 as [|x l l' _ IH|x y l|l l' l'' _ IH1 _ IH2]; simpl.
  - constructor.
  - destruct (q x); [now constructor | assumption].
  - destruct (q x), (q y); try reflexivity. apply perm_swap.
  - now transitivity (filter q l').
Qed.

Lemma filter_short_promoteAll ids s :
  filter (fun f => MemoryType_eqb (mf_type f) short_term) (promoteAll ids s)
  = filter (fun f => negb (existsb (String.eqb (mf_id f)) ids))
           (filter (fun f => MemoryType_eqb (mf_type f) short_term) s).
Proof.
  unfold promoteAll. induction s as [|f s IH]; simpl; [reflexivity|].
  destruct (existsb (String.eqb (mf_id f)) ids) eqn:E; simpl.
  - rewrite IH. destruct (MemoryType_eqb (mf_type f) short_term); simpl;
      [now rewrite E | reflexivity].
  - rewrite IH. destruct (MemoryType_eqb (mf_type f) short_term); simpl;
      [now rewrite E | reflexivity].
Qed.

Lemma filter_outside_prefix (l1 l2 : list MemoryFact) :
  NoDup (map mf_id (l1 ++ l2)) ->
  filter (fun f => negb (existsb (String.eqb (mf_id f)) (map mf_id l1)))
         (l1 ++ l2) = l2.
Proof.
  intros Hnd. rewrite filter_app.
  assert (H1 : filter (fun f => negb (existsb (String.eqb (mf_id f))
                                         (map mf_id l1))) l1 = []).
  { clear Hnd. generalize (map mf_id l1) (fun k => @in_map _ _ mf_id l1 k).
    intros ids Hids. induction l1 as [|f l1 IH]; simpl; [reflexivity|].
    assert (E : existsb (String.eqb (mf_id f)) ids = true).
    { apply existsb_exists. exists (mf_id f). split.
      - apply Hids. now left.
      - apply String.eqb_refl. }
    rewrite E. simpl. apply IH. intros k Hk. apply Hids. now right. }
  rewrite H1. simpl.
  induction l2 as [|f l2 IH]; simpl; [reflexivity|].
  assert (E : existsb (String.eqb (mf_id f)) (map mf_id l1) = false).
  { destruct (existsb (String.eqb (mf_id f)) (map mf_id l1)) eqn:E;
      [|reflexivity].
    apply existsb_exists in E. destruct E as [k [Hk E]].
    apply String.eqb_eq in E. subst k.
    rewrite map_app in Hnd. simpl in Hnd.
    apply NoDup_remove_2 in Hnd. exfalso. apply Hnd.
    apply in_or_app. now left. }
  rewrite E. simpl. f_equal. apply IH.
  rewrite map_app in *. simpl in Hnd. now apply NoDup_remove_1 in Hnd.
Qed.

Lemma NoDup_ids_shortTerm s :
  store_uniqueKeys s = true -> NoDup (map mf_id (getShortTermMemories s)).
Proof.
  intros Hu. apply (StoreFacts.uniqueKeys_NoDup mf_id) in Hu.
  unfold getShortTermMemories.
  apply (Permutation_NoDup
           (l := map mf_id (indexGetAll short_term s))).
  - apply Permutation_map. symmetry. apply sortNewestFirst_perm.
  - unfold indexGetAll. clear -Hu. induction s as [|f s IH]; simpl;
      [constructor|].
    inversion Hu as [|? ? Hn Hd]; subst.
    destruct (MemoryType_eqb (mf_type f) short_term); simpl; [|auto].
    constructor; [|auto].
    intros Hin. apply Hn. apply in_map_iff in Hin.
    destruct Hin as [g [Hg Hin]]. apply filter_In in Hin.
    apply in_map_iff. exists g. tauto.
Qed.

Lemma length_types s :
  (length (getShortTermMemories s) + length (getLongTermMemories s)
   = length s)%nat.
Proof.
  unfold getShortTermMemories, getLongTermMemories, indexGetAll.
  rewrite !(Permutation_length (sortNewestFirst_perm _)).
  rewrite <- (filter_length
                (fun f => MemoryType_eqb (mf_type f) short_term) s).
  f_equal. f_equal. apply filter_ext. intros f. destruct (mf_type f);
    reflexivity.
Qed.

Lemma insertByTime_sorted x l :
  StronglySorted (fun a b => (mf_timestamp b <= mf_timestamp a)%Z) l ->
  StronglySorted (fun a b => (mf_timestamp b <= mf_timestamp a)%Z)
                 (insertByTime x l).
Proof.
  induction 1 as [|y r Hs IH Hy]; simpl.
  - constructor; constructor.
  - destruct (mf_timestamp y <=? mf_timestamp x)%Z eqn:E.
    + apply Z.leb_le in E. constructor.
      * now constructor.
      * constructor; [assumption|].
        eapply Forall_impl; [|exact Hy]. simpl. intros; lia.
    + apply Z.leb_gt in E. constructor; [assumption|].
      eapply Permutation_Forall.
      * symmetry. apply insertByTime_perm.
      * constructor; [lia | assumption].
Qed.

Lemma sortNewestFirst_sorted l :
  StronglySorted (fun a b => (mf_timestamp b <= mf_timestamp a)%Z)
                 (sortNewestFirst l).
Proof.
  induction l as [|x l IH]; simpl; [constructor|].
  now apply insertByTime_sorted.
Qed.

Lemma StronglySorted_app_order {A} (R : A -> A -> Prop) l1 l2 :
  StronglySorted R (l1 ++ l2) ->
  forall a b, In a l1 -> In b l2 -> R a b.
Proof.
  induction l1 as [|x l1 IH]; simpl; intros Hs a b Ha Hb; [tauto|].
  inversion Hs as [|? ? Hs' Hx]; subst.
  destruct Ha as [<- | Ha].
  - rewrite Forall_forall in Hx. apply Hx. apply in_or_app. now right.
  - eauto.
Qed.

(** C4, as the code has it.  With 5 short-term facts or more and a failing
    service, [organizeMemories] promotes exactly [floor (0.4 * N)] facts:
    the first ones of the list that [getShortTermMemories] returns, which is
    sorted newest first, so that no fact left short-term is newer than a
    promoted one.  Every other record is unchanged, the facts that
    are still short-term are the rest of that list, and the long-term facts
    are [floor (0.4 * N)] more than before. *)
Theorem organizeMemories_fallback s :
  store_uniqueKeys s = true ->
  let shortTermMemories := getShortTermMemories s in
  let n := length shortTermMemories in
  let keepCount := (2 * n / 5)%nat in
  (5 <= n)%nat ->
  let s' := fst (organizeMemories OracleFails s) in
  let result := snd (organizeMemories OracleFails s) in
  (forall f g, In f (firstn keepCount shortTermMemories) ->
               In g (skipn keepCount shortTermMemories) ->
               (mf_timestamp g <= mf_timestamp f)%Z) /\
  promoted result = keepCount /\
  removed result = (n - keepCount)%nat /\
  Forall2 (fun f f' =>
             f' = f \/
             (In f (firstn keepCount shortTermMemories) /\
              f' = setType long_term f)) s s' /\
  (forall f, In f (firstn keepCount shortTermMemories) ->
             In (setType long_term f) (getLongTermMemories s')) /\
  Permutation (getShortTermMemories s') (skipn keepCount shortTermMemories) /\
  length (getLongTermMemories s')
  = (length (getLongTermMemories s) + keepCount)%nat.
Proof.
  intros Hu stm n keepCount Hn s' result.
  assert (Hk : keepCountOf n = keepCount) by apply keepCountOf_floor.
  assert (Hle : (keepCount <= n)%nat) by (rewrite <- Hk; apply keepCountOf_le).
  assert (Hsel : selectedBy OracleFails stm = firstn keepCount stm).
  { unfold selectedBy. fold n. rewrite Hk.
    apply Nat.ltb_ge in Hn. now rewrite Hn. }
  assert (Hs' : s' = promoteAll (map mf_id (firstn keepCount stm)) s).
  { subst s'. rewrite (organizeMemories_spec OracleFails s Hu). simpl.
    fold stm. now rewrite Hsel. }
  assert (Hres : result = mkOrganizeResult keepCount (n - keepCount)).
  { subst result. rewrite (organizeMemories_spec OracleFails s Hu). simpl.
    fold stm. fold n. rewrite Hsel.
    apply Nat.ltb_ge in Hn. rewrite Hn.
    now rewrite length_firstn, Nat.min_l. }
  assert (Hin : forall f, In f (firstn keepCount stm) -> In f s).
  { intros f Hf. apply In_firstn_In in Hf.
    now apply In_getShortTermMemories in Hf. }
  assert (Hperm : Permutation (getShortTermMemories s')
                              (skipn keepCount stm)).
  { rewrite Hs'. unfold getShortTermMemories at 1, indexGetAll.
    rewrite sortNewestFirst_perm, filter_short_promoteAll.
    rewrite <- (filter_outside_prefix (firstn keepCount stm)
                                      (skipn keepCount stm)).
    - rewrite firstn_skipn. apply Permutation_filter.
      symmetry. apply sortNewestFirst_perm.
    - rewrite firstn_skipn. now apply NoDup_ids_shortTerm. }
  split.
  { apply (StronglySorted_app_order
             (fun a b => (mf_timestamp b <= mf_timestamp a)%Z)).
    rewrite firstn_skipn. apply sortNewestFirst_sorted. }
  rewrite Hres. simpl.
  split; [reflexivity|]. split; [reflexivity|].
  split; [rewrite Hs'; now apply promoteAll_Forall2|].
  split; [|split; [exact Hperm|]].
  - intros f Hf. apply In_getLongTermMemories. split; [|reflexivity].
    rewrite Hs'. unfold promoteAll. apply in_map_iff. exists f.
    split; [|auto].
    assert (E : existsb (String.eqb (mf_id f))
                        (map mf_id (firstn keepCount stm)) = true).
    { apply existsb_exists. exists (mf_id f). split.
      - now apply in_map.
      - apply String.eqb_refl. }
    now rewrite E.
  - pose proof (length_types s') as L'. pose proof (length_types s) as L.
    apply Permutation_length in Hperm. rewrite length_skipn in Hperm.
    fold stm in L. fold n in L, Hperm.
    assert (length s' = length s).
    { rewrite Hs'. unfold promoteAll. apply length_map. }
    lia.
Qed.

Lemma organizeMemories_fallback_witness :
  let s := fiveShortTerm in
  let shortTermMemories := getShortTermMemories s in
  let n := length shortTermMemories in
  let keepCount := (2 * n / 5)%nat in
  let s' := fst (organizeMemories OracleFails s) in
  let result := snd (organizeMemories OracleFails s) in
  (forall f g, In f (firstn keepCount shortTermMemories) ->
               In g (skipn keepCount shortTermMemories) ->
               (mf_timestamp g <= mf_timestamp f)%Z) /\
  promoted result = keepCount /\
  removed result = (n - keepCount)%nat /\
  Forall2 (fun f f' =>
             f' = f \/
             (In f (firstn keepCount shortTermMemories) /\
              f' = setType long_term f)) s s' /\
  (forall f, In f (firstn keepCount shortTermMemories) ->
             In (setType long_term f) (getLongTermMemories s')) /\
  Permutation (getShortTermMemories s') (skipn keepCount shortTermMemories) /\
  length (getLongTermMemories s')
  = (length (getLongTermMemories s) + keepCount)%nat.
Proof.
  apply (organizeMemories_fallback fiveShortTerm).
  - reflexivity.
  - vm_compute. lia.
Defined.

(** C4, as the specification words it, fails.  Five facts are recorded one
    after the other; the service fails; [floor (0.4 * 5) = 2] facts are
    promoted, and they are the two recorded last: the two recorded first
    are still short-term. *)
Lemma organizeMemories_fallback_counterexample :
  addInOrder fiveStamps shortTermNote [] = Some fiveShortTerm /\
  map mf_id (getShortTermMemories fiveShortTerm)
  = ["fact-5"; "fact-4"; "fact-3"; "fact-2"; "fact-1"]%string /\
  promoted (snd (organizeMemories OracleFails fiveShortTerm)) = 2%nat /\
  map (fun f => (mf_id f, mf_type f))
      (fst (organizeMemories OracleFails fiveShortTerm))
  = [("fact-1", short_term); ("fact-2", short_term); ("fact-3", short_term);
     ("fact-4", long_term); ("fact-5", long_term)]%string.
Proof. repeat split. Qed.

(** ** How each operation changes the records *)

Lemma promotes_refl s : promotes s s.
Proof. intros k. now left. Qed.

Lemma promotes_trans s1 s2 s3 :
  promotes s1 s2 -> promotes s2 s3 -> promotes s1 s3.
Proof.
  intros H12 H23 k.
  destruct (H23 k) as [E | [f [G [Ty E]]]].
  - rewrite E. apply H12.
  - destruct (H12 k) as [E' | [f0 [G0 [Ty0 E0]]]].
    + right. exists f. rewrite <- E'. auto.
    + rewrite E0 in G. injection G as <-. discriminate.
Qed.

Lemma promoteToLongTerm_promotes k0 s : promotes s (promoteToLongTerm k0 s).
Proof.
  unfold promoteToLongTerm.
  destruct (store_get k0 s) as [fact|] eqn:G; [|apply promotes_refl].
  destruct (mf_type fact) eqn:Ty; [|apply promotes_refl].
  destruct (StoreFacts.get_In mf_id k0 s fact G) as [_ Hk].
  intros k. destruct (String.eqb k k0) eqn:E.
  - apply String.eqb_eq in E. subst k. right. exists fact.
    split; [assumption|]. split; [assumption|].
    rewrite <- Hk at 1.
    apply (StoreFacts.get_put_same mf_id (setType long_term fact) s).
  - left. apply String.eqb_neq in E.
    apply (StoreFacts.get_put_other mf_id k (setType long_term fact) s).
    simpl. congruence.
Qed.

Lemma fold_promote_promotes {A} (idOf : A -> string) (l : list A) s :
  promotes s (fold_left (fun st m => promoteToLongTerm (idOf m) st) l s).
Proof.
  revert s. induction l as [|m l IH]; intros s; simpl.
  - apply promotes_refl.
  - eapply promotes_trans; [apply promoteToLongTerm_promotes | apply IH].
Qed.

Lemma promoteKept_promotes keepIndices i memories s p :
  promotes s (fst (promoteKept keepIndices i memories s p)).
Proof.
  revert i s p. induction memories as [|m rest IH]; intros i s p; simpl.
  - apply promotes_refl.
  - destruct (existsb (Z.eqb (Z.of_nat i + 1)) keepIndices).
    + eapply promotes_trans; [apply promoteToLongTerm_promotes | apply IH].
    + apply IH.
Qed.

Lemma organizeMemories_promotes reply s :
  promotes s (fst (organizeMemories reply s)).
Proof.
  unfold organizeMemories.
  destruct (length (getShortTermMemories s) <? 5)%nat;
    [apply promotes_refl|].
  destruct reply as [|keep_indices].
  - apply (fold_promote_promotes mf_id).
  - pose proof (promoteKept_promotes (orElse keep_indices []) 0
                  (getShortTermMemories s) s 0) as H.
    destruct (promoteKept (orElse keep_indices []) 0
                (getShortTermMemories s) s 0). exact H.
Qed.

Lemma promotes_stable s s' : promotes s s' -> stable s s'.
Proof.
  intros H k f G Ty. destruct (H k) as [E | [f0 [G0 [Ty0 E]]]].
  - exists f. rewrite E. auto.
  - rewrite G in G0. injection G0 as <-. congruence.
Qed.

Lemma stable_refl s : stable s s.
Proof. intros k f G Ty. eauto. Qed.

Lemma stable_trans s1 s2 s3 : stable s1 s2 -> stable s2 s3 -> stable s1 s3.
Proof.
  intros H12 H23 k f G Ty. destruct (H12 k f G Ty) as [f' [G' Ty']]. eauto.
Qed.

Lemma extends_refl s : extends s s.
Proof. intros k f G. exact G. Qed.

Lemma extends_trans s1 s2 s3 :
  extends s1 s2 -> extends s2 s3 -> extends s1 s3.
Proof. intros H12 H23 k f G. auto. Qed.

Lemma extends_stable s s' : extends s s' -> stable s s'.
Proof. intros H k f G Ty. eauto. Qed.

Lemma addMemoryFact_extends stamp fact s s' m :
  addMemoryFact stamp fact s = Some (s', m) -> extends s s'.
Proof.
  intros H k f G. apply addMemoryFact_Some in H.
  destruct H as [Hn [_ Hk]]. rewrite Hk.
  destruct (String.eqb k (fst stamp)) eqn:E; [|assumption].
  apply String.eqb_eq in E. congruence.
Qed.

Lemma addSummaries_extends stamp k summaries s :
  extends s (fst (addSummaries stamp k summaries s)).
Proof.
  revert k s. induction summaries as [|x rest IH]; intros k s; simpl.
  - apply extends_refl.
  - destruct (addMemoryFact (stamp k) (summaryFact x) s) as [[s' m]|] eqn:E.
    + eapply extends_trans; [eapply addMemoryFact_extends; eauto | apply IH].
    + apply extends_refl.
Qed.

Lemma summarizeLongTermMemories_extends reply stamp longTermMemories s :
  extends s (fst (summarizeLongTermMemories reply stamp longTermMemories s)).
Proof.
  unfold summarizeLongTermMemories.
  destruct (length longTermMemories <? 8)%nat; [apply extends_refl|].
  destruct reply as [|result]; [apply extends_refl|].
  pose proof (addSummaries_extends stamp 0 (orElse result []) s) as H.
  destruct (addSummaries stamp 0 (orElse result []) s) as [s' [|]]; exact H.
Qed.

Lemma addExtracted_extends stamp k memories s added :
  extends s (fst (addExtracted stamp k memories s added)).
Proof.
  revert k s added.
  induction memories as [|mem rest IH]; intros k s added; simpl.
  - apply extends_refl.
  - destruct (factOf mem) as [fact|]; [|apply IH].
    match goal with
    | |- context [addMemoryFact ?a ?b s] =>
        destruct (addMemoryFact a b s) as [[s' m]|] eqn:E
    end.
    + eapply extends_trans; [eapply addMemoryFact_extends; eauto | apply IH].
    + apply extends_refl.
Qed.

Lemma extractMemoriesFromHistory_extends messages reply stamp s :
  extends s (fst (extractMemoriesFromHistory messages reply stamp s)).
Proof.
  unfold extractMemoriesFromHistory.
  destruct messages as [|m0 ms]; [apply extends_refl|].
  destruct (conversationPairsOf (m0 :: ms)); [apply extends_refl|].
  destruct reply as [|result]; [apply extends_refl|].
  pose proof (addExtracted_extends stamp 0 (orElse result []) s []) as H.
  destruct (addExtracted stamp 0 (orElse result []) s []) as [s' [added|]];
    exact H.
Qed.

Lemma recordConversationMemory_extends reply stamp s :
  extends s (recordConversationMemory reply stamp s).
Proof.
  unfold recordConversationMemory.
  destruct reply as [|[result|]]; try apply extends_refl.
  destruct (factOf result) as [fact|]; [|apply extends_refl].
  destruct (isDuplicateMemory fact s); [apply extends_refl|].
  match goal with
  | |- context [addMemoryFact ?a ?b s] =>
      destruct (addMemoryFact a b s) as [[s' m]|] eqn:E
  end.
  - eapply addMemoryFact_extends; eauto.
  - apply extends_refl.
Qed.

Lemma shrinks_refl s : shrinks s s.
Proof. intros k. now right. Qed.

Lemma shrinks_trans s1 s2 s3 :
  shrinks s1 s2 -> shrinks s2 s3 -> shrinks s1 s3.
Proof.
  intros H12 H23 k. destruct (H23 k) as [E | E]; [now left|].
  rewrite E. apply H12.
Qed.

Lemma deleteMemoryFact_shrinks k0 s : shrinks s (deleteMemoryFact k0 s).
Proof.
  intros k. unfold deleteMemoryFact, store_delete, store_get.
  destruct (String.eqb k k0) eqn:E.
  - apply String.eqb_eq in E. subst k. left.
    apply StoreFacts.get_delete_same.
  - apply String.eqb_neq in E. right.
    now apply StoreFacts.get_delete_other.
Qed.

Lemma fold_delete_shrinks (l : list MemoryFact) s :
  shrinks s (fold_left (fun st mem => deleteMemoryFact (mf_id mem) st) l s).
Proof.
  revert s. induction l as [|m l IH]; intros s; simpl.
  - apply shrinks_refl.
  - eapply shrinks_trans; [apply deleteMemoryFact_shrinks | apply IH].
Qed.

Lemma updateMemoryFact_stable k0 updates s :
  up_id updates = None -> up_type updates = None ->
  stable s (updateMemoryFact k0 updates s).
Proof.
  intros Hid Hty. unfold updateMemoryFact.
  destruct (store_get k0 s) as [fact|] eqn:G; [|apply stable_refl].
  destruct (StoreFacts.get_In mf_id k0 s fact G) as [_ Hk].
  assert (Hkey : mf_id (spread fact updates) = k0).
  { unfold spread. simpl. now rewrite Hid. }
  intros k f Gk Ty. destruct (String.eqb k k0) eqn:E.
  - apply String.eqb_eq in E. subst k. exists (spread fact updates).
    split.
    + rewrite <- Hkey at 1.
      apply (StoreFacts.get_put_same mf_id (spread fact updates) s).
    + unfold spread. simpl. rewrite Hty. simpl. congruence.
  - apply String.eqb_neq in E. exists f. split; [|assumption].
    rewrite <- Gk.
    apply (StoreFacts.get_put_other mf_id k (spread fact updates) s).
    congruence.
Qed.

(** One operation: a long-term fact is afterwards long-term, or deleted. *)
Lemma step_keeps op s k f :
  plainOp op -> store_get k s = Some f -> mf_type f = long_term ->
  store_get k (step op s) = None \/
  exists f', store_get k (step op s) = Some f' /\ mf_type f' = long_term.
Proof.
  intros Hop G Ty.
  assert (St : forall s', stable s s' ->
            store_get k s' = None \/
            exists f', store_get k s' = Some f' /\ mf_type f' = long_term).
  { intros s' H. right. exact (H k f G Ty). }
  destruct op; simpl in *.
  - destruct (addMemoryFact stamp fact s) as [[s' m]|] eqn:E.
    + apply St, extends_stable. eapply addMemoryFact_extends; eauto.
    + apply St, stable_refl.
  - apply St, extends_stable, recordConversationMemory_extends.
  - apply St, promotes_stable, promoteToLongTerm_promotes.
  - apply St, promotes_stable.
    apply (fold_promote_promotes (fun i : string => i)).
  - destruct Hop. now apply St, updateMemoryFact_stable.
  - apply St, promotes_stable, organizeMemories_promotes.
  - unfold organizeAndSummarizeLongTerm.
    pose proof (organizeMemories_promotes organizeReply s) as H1.
    destruct (organizeMemories organizeReply s) as [s1 organized].
    simpl in H1. apply promotes_stable in H1.
    destruct (8 <=? length (getLongTermMemories s))%nat; [|now apply St].
    pose proof (summarizeLongTermMemories_extends summarizeReply stamp
                  (getLongTermMemories s) s1) as H2.
    destruct (summarizeLongTermMemories summarizeReply stamp
                (getLongTermMemories s) s1) as [s2 result].
    simpl in H2. apply extends_stable in H2.
    pose proof (stable_trans s s1 s2 H1 H2) as H12. simpl.
    destruct (0 <? sr_summarized result)%nat; [|now apply St].
    destruct (fold_delete_shrinks (getLongTermMemories s) s2 k) as [E | E].
    + now left.
    + right. rewrite E. exact (H12 k f G Ty).
  - apply St, extends_stable, extractMemoriesFromHistory_extends.
  - destruct (deleteMemoryFact_shrinks factId s k) as [E | E].
    + now left.
    + right. rewrite E. eauto.
Qed.

Lemma run_cons op ops s : run (op :: ops) s = run ops (step op s).
Proof. reflexivity. Qed.

(** C2, as the code has it.  Over every sequence of additions, recordings,
    promotions, updates that name neither [id] nor [type], organisations,
    consolidations, extractions and deletions, a fact that is long-term and
    is in the store after every operation of the sequence is long-term at
    the end. *)
Theorem lifecycle_never_reverts ops s k f :
  Forall plainOp ops ->
  store_get k s = Some f -> mf_type f = long_term ->
  (forall n, store_get k (run (firstn n ops) s) <> None) ->
  exists f', store_get k (run ops s) = Some f' /\ mf_type f' = long_term.
Proof.
  intros Hops. revert s f.
  induction Hops as [|op ops Hop Hops IH]; intros s f G Ty Hex.
  - exists f. auto.
  - rewrite run_cons.
    destruct (step_keeps op s k f Hop G Ty) as [E | [f' [G' Ty']]].
    + exfalso. apply (Hex 1%nat). exact E.
    + apply (IH (step op s) f' G' Ty').
      intros n. apply (Hex (S n)).
Qed.

Lemma lifecycle_never_reverts_witness :
  exists f',
    store_get "fact-1" (run sampleOps oneLongTerm) = Some f' /\
    mf_type f' = long_term.
Proof.
  apply (lifecycle_never_reverts sampleOps oneLongTerm "fact-1"
           (sampleFact "fact-1" text_dislikes_coriander 1000 long_term)).
  - repeat constructor.
  - reflexivity.
  - reflexivity.
  - intros n. do 6 (destruct n as [|n]; [vm_compute; discriminate|]).
    vm_compute. discriminate.
Defined.

(** C2, as the specification words it, fails: [updateMemoryFact] merges
    whatever fields it is given, [type] included, and turns a long-term fact
    into a short-term one. *)
Lemma lifecycle_counterexample :
  option_map mf_type (store_get "fact-1" oneLongTerm) = Some long_term /\
  option_map mf_type
    (store_get "fact-1" (updateMemoryFact "fact-1" demote oneLongTerm))
  = Some short_term /\
  run [OpUpdate "fact-1" demote] oneLongTerm
  = updateMemoryFact "fact-1" demote oneLongTerm.
Proof. repeat split. Qed.

(** ** Consolidation *)

Lemma promotes_long s s' k f :
  promotes s s' -> store_get k s = Some f -> mf_type f = long_term ->
  store_get k s' = Some f.
Proof.
  intros H G Ty. destruct (H k) as [E | [f0 [G0 [Ty0 _]]]].
  - now rewrite E.
  - rewrite G in G0. injection G0 as <-. congruence.
Qed.

Lemma promotes_absent s s' k :
  promotes s s' -> store_get k s = None -> store_get k s' = None.
Proof.
  intros H G. destruct (H k) as [E | [f0 [G0 _]]]; congruence.
Qed.

Lemma addSummaries_spec stamp k summaries s s' :
  addSummaries stamp k summaries s = (s', true) ->
  (forall i, (i < length summaries)%nat ->
             store_get (fst (stamp (k + i)%nat)) s = None) /\
  (forall i, (i < length summaries)%nat ->
             store_get (fst (stamp (k + i)%nat)) s'
             = Some (summaryRecord (stamp (k + i)%nat) (nth i summaries []))) /\
  (forall key,
      store_get key s' = store_get key s \/
      exists i, (i < length summaries)%nat /\ key = fst (stamp (k + i)%nat)).
Proof.
  revert k s. induction summaries as [|x rest IH]; intros k s; simpl.
  - intros [= <-]. repeat split; try (intros; lia). intros key. now left.
  - destruct (addMemoryFact (stamp k) (summaryFact x) s) as [[s1 m]|] eqn:E;
      [|discriminate].
    intros H. apply addMemoryFact_Some in E. destruct E as [Hn [Hm Hk]].
    destruct (IH (S k) s1 H) as [P1 [P2 P3]].
    assert (Hne : forall i, (i < length rest)%nat ->
                            fst (stamp (S k + i)%nat) <> fst (stamp k)).
    { intros i Hi E. specialize (P1 i Hi). rewrite Hk, E in P1.
      rewrite String.eqb_refl in P1. discriminate. }
    split; [|split].
    + intros [|i] Hi.
      * now rewrite Nat.add_0_r.
      * assert (Hi' : (i < length rest)%nat) by lia.
        specialize (P1 i Hi'). rewrite Hk in P1.
        replace (k + S i)%nat with (S k + i)%nat by lia.
        destruct (String.eqb (fst (stamp (S k + i)%nat)) (fst (stamp k)));
          [discriminate | assumption].
    + intros [|i] Hi.
      * rewrite Nat.add_0_r.
        destruct (P3 (fst (stamp k))) as [E | [i [Hi' E]]].
        -- rewrite E, Hk, String.eqb_refl, Hm. reflexivity.
        -- exfalso. symmetry in E. exact (Hne i Hi' E).
      * replace (k + S i)%nat with (S k + i)%nat by lia.
        apply P2. lia.
    + intros key. destruct (P3 key) as [E | [i [Hi E]]].
      * rewrite E, Hk. destruct (String.eqb key (fst (stamp k))) eqn:K.
        -- right. exists 0%nat. split; [lia|].
           apply String.eqb_eq in K. now rewrite Nat.add_0_r.
        -- now left.
      * right. exists (S i). split; [lia|].
        now replace (k + S i)%nat with (S k + i)%nat by lia.
Qed.

Lemma addSummaries_fresh stamp k summaries s :
  (forall i, (i < length summaries)%nat ->
             store_get (fst (stamp (k + i)%nat)) s = None) ->
  (forall i j, (i < j < length summaries)%nat ->
               fst (stamp (k + i)%nat) <> fst (stamp (k + j)%nat)) ->
  snd (addSummaries stamp k summaries s) = true.
Proof.
  revert k s. induction summaries as [|x rest IH]; intros k s Hn Hd; simpl.
  - reflexivity.
  - assert (H0 : store_get (fst (stamp k)) s = None).
    { specialize (Hn 0%nat). rewrite Nat.add_0_r in Hn. apply Hn.
      simpl. lia. }
    rewrite (addMemoryFact_fresh (stamp k) (summaryFact x) s H0).
    apply IH.
    + intros i Hi.
      replace (S k + i)%nat with (k + S i)%nat by lia.
      rewrite (StoreFacts.get_insert_other mf_id).
      * apply Hn. simpl. lia.
      * simpl. intros E. apply (Hd 0%nat (S i)); [simpl; lia|].
        now rewrite Nat.add_0_r.
    + intros i j Hij.
      replace (S k + i)%nat with (k + S i)%nat by lia.
      replace (S k + j)%nat with (k + S j)%nat by lia.
      apply Hd. simpl. lia.
Qed.

(** What [summarizeLongTermMemories] returns: no summary and a store that
    has kept every record, or all the summaries of the reply, every one
    added. *)
Lemma summarizeLongTermMemories_cases reply stamp longTermMemories s :
  let out := summarizeLongTermMemories reply stamp longTermMemories s in
  (sr_summarized (snd out) = 0%nat /\ extends s (fst out)) \/
  (exists summaries,
      reply = OracleReturns (Some summaries) /\
      (8 <= length longTermMemories)%nat /\
      sr_summarized (snd out) = length summaries /\
      (0 < length summaries)%nat /\
      addSummaries stamp 0 summaries s = (fst out, true)).
Proof.
  intros out.
  pose proof (summarizeLongTermMemories_extends
                reply stamp longTermMemories s) as Hext.
  fold out in Hext. subst out. unfold summarizeLongTermMemories in *.
  destruct (length longTermMemories <? 8)%nat eqn:L; [left; auto|].
  apply Nat.ltb_ge in L.
  destruct reply as [|result]; [left; auto|].
  destruct (addSummaries stamp 0 (orElse result []) s) as [s' [|]] eqn:E;
    [|left; auto].
  destruct result as [[|x rest]|]; simpl in *; try (left; now auto).
  right. exists (x :: rest). simpl. repeat split; auto; lia.
Qed.

Lemma fold_delete_gone (l : list MemoryFact) s m :
  In m l ->
  store_get (mf_id m)
    (fold_left (fun st mem => deleteMemoryFact (mf_id mem) st) l s) = None.
Proof.
  revert s. induction l as [|x l IH]; intros s; simpl; [tauto|].
  intros [-> | Hin]; [|now apply IH].
  destruct (fold_delete_shrinks l (deleteMemoryFact (mf_id m) s) (mf_id m))
    as [E | E]; [exact E|].
  rewrite E. apply (StoreFacts.get_delete_same mf_id).
Qed.

Lemma fold_delete_other (l : list MemoryFact) s k :
  (forall m, In m l -> mf_id m <> k) ->
  store_get k (fold_left (fun st mem => deleteMemoryFact (mf_id mem) st) l s)
  = store_get k s.
Proof.
  revert s. induction l as [|x l IH]; intros s H; simpl; [reflexivity|].
  rewrite IH by (intros m Hm; apply H; now right).
  apply (StoreFacts.get_delete_other mf_id).
  intros E. apply (H x); [now left | congruence].
Qed.

(** C1. [organizeAndSummarizeLongTerm] is all-or-nothing on the facts that
    were long-term when it was called.  Either it reports no summary and
    every such fact is in the store as it was; or it reports the summaries
    of the reply, none of those facts is in the store any more, every
    summary is in the store as a long-term fact of category [shared_event],
    importance 0.8 and source [system], and every long-term fact of the
    store is one of the summaries or a fact that this call promoted from
    short-term.  A failing reply, a reply without summaries and fewer than 8
    long-term facts give the first case; a reply with at least one summary,
    8 long-term facts or more and fresh ids give the second. *)
Theorem organizeAndSummarizeLongTerm_all_or_nothing
    organizeReply summarizeReply stamp s :
  let out :=
    organizeAndSummarizeLongTerm organizeReply summarizeReply stamp s in
  let s' := fst out in
  let summarized := cr_summarized (snd out) in
  ((summarized = 0%nat /\
    forall k f, store_get k s = Some f -> mf_type f = long_term ->
                store_get k s' = Some f)
   \/
   ((0 < summarized)%nat /\
    (forall k f, store_get k s = Some f -> mf_type f = long_term ->
                 store_get k s' = None) /\
    exists summaries,
      summarizeReply = OracleReturns (Some summaries) /\
      summarized = length summaries /\
      (forall i, (i < length summaries)%nat ->
                 store_get (fst (stamp i)) s'
                 = Some (summaryRecord (stamp i) (nth i summaries []))) /\
      (forall k g, store_get k s' = Some g -> mf_type g = long_term ->
                   (exists i, (i < length summaries)%nat /\
                              g = summaryRecord (stamp i) (nth i summaries []))
                   \/
                   (exists f, store_get k s = Some f /\
                              mf_type f = short_term /\
                              g = setType long_term f)))) /\
  (summarizeReply = OracleFails \/ summarizeReply = OracleReturns None \/
   summarizeReply = OracleReturns (Some []) -> summarized = 0%nat) /\
  ((length (getLongTermMemories s) < 8)%nat -> summarized = 0%nat) /\
  (forall summaries,
      summarizeReply = OracleReturns (Some summaries) ->
      summaries <> [] ->
      (8 <= length (getLongTermMemories s))%nat ->
      freshStamps stamp (length summaries) s ->
      summarized = length summaries).
Proof.
  intros out s' summarized. subst s' summarized out.
  unfold organizeAndSummarizeLongTerm.
  pose proof (organizeMemories_promotes organizeReply s) as H1.
  destruct (organizeMemories organizeReply s) as [s1 organized].
  simpl in H1.
  destruct (8 <=? length (getLongTermMemories s))%nat eqn:L8.
  2:{ apply Nat.leb_gt in L8. simpl. repeat split; auto; try lia.
      left. split; [reflexivity|]. intros k f G Ty.
      eapply promotes_long; eauto. }
  apply Nat.leb_le in L8.
  pose proof (summarizeLongTermMemories_cases summarizeReply stamp
                (getLongTermMemories s) s1) as Hc.
  destruct (summarizeLongTermMemories summarizeReply stamp
              (getLongTermMemories s) s1) as [s2 result] eqn:Es.
  simpl in Hc.
  destruct Hc as [[Hz Hext] | [summaries [Hr [_ [Hlen [Hpos Hadd]]]]]].
  - (* no summary *)
    rewrite Hz. simpl. repeat split; auto; try lia.
    + left. split; [reflexivity|]. intros k f G Ty.
      apply Hext. eapply promotes_long; eauto.
    + intros summaries Hr Hne _ [Hfresh Hdist].
      exfalso. subst summarizeReply.
      unfold summarizeLongTermMemories in Es.
      apply Nat.ltb_ge in L8. rewrite L8 in Es. simpl in Es.
      assert (Hs : snd (addSummaries stamp 0 summaries s1) = true).
      { apply addSummaries_fresh.
        - intros i Hi. simpl. eapply promotes_absent; eauto.
        - intros i j Hij. simpl. now apply Hdist. }
      destruct (addSummaries stamp 0 summaries s1) as [s2' b].
      simpl in Hs. subst b. injection Es as _ <-. simpl in Hz.
      destruct summaries; [congruence | discriminate].
  - (* every summary added *)
    rewrite Hlen. apply Nat.ltb_lt in Hpos. rewrite Hpos. simpl.
    apply Nat.ltb_lt in Hpos.
    destruct (addSummaries_spec stamp 0 summaries s1 s2 Hadd)
      as [P1 [P2 P3]]. simpl in P1, P2, P3.
    pose proof (fold_delete_shrinks (getLongTermMemories s) s2) as Hsh.
    set (s3 := fold_left (fun st mem => deleteMemoryFact (mf_id mem) st)
                 (getLongTermMemories s) s2) in *.
    assert (Hgone : forall k f, store_get k s = Some f ->
                                mf_type f = long_term ->
                                store_get k s3 = None).
    { intros k f G Ty.
      destruct (StoreFacts.get_In mf_id k s f G) as [Hin Hk].
      rewrite <- Hk. apply fold_delete_gone.
      now apply In_getLongTermMemories. }
    split; [|split; [|split]].
    + right. split; [assumption|]. split; [exact Hgone|].
      exists summaries. split; [assumption|]. split; [reflexivity|].
      split.
      * intros i Hi. rewrite <- (P2 i Hi). apply fold_delete_other.
        intros m Hm E. apply In_getLongTermMemories in Hm.
        destruct (StoreFacts.In_get mf_id m s (proj1 Hm)) as [y Hy].
        specialize (P1 i Hi). rewrite <- E in P1.
        destruct (H1 (mf_id m)) as [E1 | [f0 [_ [_ E1]]]];
          unfold store_get in *; congruence.
      * intros k g G Ty. destruct (Hsh k) as [E | E]; [congruence|].
        rewrite E in G.
        destruct (P3 k) as [E2 | [i [Hi E2]]].
        -- right. rewrite E2 in G.
           destruct (H1 k) as [E1 | [f0 [G0 [Ty0 E1]]]].
           ++ rewrite E1 in G. specialize (Hgone k g G Ty). congruence.
           ++ exists f0. split; [assumption|]. split; [assumption|].
              congruence.
        -- left. exists i. split; [assumption|].
           subst k. rewrite (P2 i Hi) in G. congruence.
    + intros [E | [E | E]]; rewrite E in Hr; try discriminate.
      injection Hr as <-. simpl in Hpos. lia.
    + lia.
    + intros l Hl _ _ _. rewrite Hl in Hr. now injection Hr as <-.
Qed.

Lemma organizeAndSummarizeLongTerm_all_or_nothing_witness :
  cr_summarized
    (snd (organizeAndSummarizeLongTerm OracleFails
            (OracleReturns (Some threeSummaries)) summaryStamp eightLongTerm))
  = length threeSummaries.
Proof.
  apply (proj2 (proj2 (proj2
           (organizeAndSummarizeLongTerm_all_or_nothing OracleFails
              (OracleReturns (Some threeSummaries)) summaryStamp
              eightLongTerm))) threeSummaries).
  - reflexivity.
  - discriminate.
  - vm_compute. lia.
  - split.
    + intros i Hi. simpl in Hi.
      do 3 (destruct i as [|i]; [reflexivity|]). lia.
    + intros i j Hij. simpl in Hij.
      do 3 (destruct i as [|i];
            [do 3 (destruct j as [|j]; [try lia; discriminate|]); lia|]).
      lia.
Defined.

(** Eight long-term facts and three summaries: the three summaries are the
    facts of the store afterwards.  With a failing reply the eight facts
    stay. *)
Example consolidation_replaces :
  map (fun f => (mf_id f, mf_fact f, mf_type f))
      (fst (organizeAndSummarizeLongTerm OracleFails
              (OracleReturns (Some threeSummaries)) summaryStamp
              eightLongTerm))
  = [("sum-a"%string, js "likes running", long_term);
     ("sum-b"%string, js "dislikes coriander", long_term);
     ("sum-c"%string, js "lives in Osaka", long_term)] /\
  fst (organizeAndSummarizeLongTerm OracleFails OracleFails summaryStamp
         eightLongTerm) = eightLongTerm.
Proof. split; reflexivity. Qed.

(** ** Extraction from the history *)

Lemma addsLongTerm_refl s : addsLongTerm s s.
Proof. split; [apply extends_refl | auto]. Qed.

Lemma addsLongTerm_trans s1 s2 s3 :
  addsLongTerm s1 s2 -> addsLongTerm s2 s3 -> addsLongTerm s1 s3.
Proof.
  intros [E12 N12] [E23 N23]. split.
  - eapply extends_trans; eauto.
  - intros k g G. destruct (N23 k g G) as [G2 | H]; auto.
Qed.

Lemma addExtracted_spec stamp memories :
  forall k s added s' res,
    addExtracted stamp k memories s added = (s', res) ->
    addsLongTerm s s' /\
    forall out, res = Some out ->
      exists new,
        out = added ++ new /\
        map mf_fact new = factsOf memories /\
        Forall (fun m => mf_type m = long_term /\
                         mf_source m = Some system /\
                         store_get (mf_id m) s' = Some m) new.
Proof.
  induction memories as [|mem rest IH]; intros k s added s' res; simpl.
  - intros [= <- <-]. split; [apply addsLongTerm_refl|].
    intros out [= <-]. exists []. rewrite app_nil_r. auto.
  - destruct (factOf mem) as [fact|]; [|apply IH].
    match goal with
    | |- context [addMemoryFact ?a ?b s] =>
        destruct (addMemoryFact a b s) as [[s1 newMemory]|] eqn:E
    end.
    + intros H. destruct (IH _ _ _ _ _ H) as [[E1 N1] Hout].
      pose proof (addMemoryFact_extends _ _ _ _ _ E) as E0.
      apply addMemoryFact_Some in E. destruct E as [Hn [Hm Hk]].
      split.
      * split; [eapply extends_trans; eauto|].
        intros key g G. destruct (N1 key g G) as [G1 | Hg]; [|auto].
        rewrite Hk in G1. destruct (String.eqb key (fst (stamp k))); [|auto].
        injection G1 as <-. rewrite Hm. simpl. auto.
      * intros out Ho. destruct (Hout out Ho) as [new [-> [Hf Hall]]].
        exists (newMemory :: new). rewrite <- app_assoc. simpl.
        split; [reflexivity|]. split.
        -- rewrite Hf, Hm. reflexivity.
        -- constructor; [|assumption].
           rewrite Hm at 1 2. simpl. split; [reflexivity|].
           split; [reflexivity|].
           apply E1. rewrite Hk, Hm. simpl.
           now rewrite String.eqb_refl.
    + intros [= <- <-]. split; [apply addsLongTerm_refl|]. discriminate.
Qed.

Lemma addExtracted_fresh stamp memories :
  forall k s added,
    (forall i, (i < length (factsOf memories))%nat ->
               store_get (fst (stamp (k + i)%nat)) s = None) ->
    (forall i j, (i < j < length (factsOf memories))%nat ->
                 fst (stamp (k + i)%nat) <> fst (stamp (k + j)%nat)) ->
    snd (addExtracted stamp k memories s added) <> None.
Proof.
  induction memories as [|mem rest IH]; intros k s added Hn Hd; simpl.
  - discriminate.
  - simpl in Hn, Hd. destruct (factOf mem) as [fact|]; [|now apply IH].
    simpl in Hn, Hd.
    assert (H0 : store_get (fst (stamp k)) s = None).
    { specialize (Hn 0%nat). rewrite Nat.add_0_r in Hn. apply Hn. lia. }
    rewrite (addMemoryFact_fresh (stamp k) _ s H0).
    apply IH.
    + intros i Hi.
      replace (S k + i)%nat with (k + S i)%nat by lia.
      rewrite (StoreFacts.get_insert_other mf_id).
      * apply Hn. lia.
      * simpl. intros E. apply (Hd 0%nat (S i)); [lia|].
        now rewrite Nat.add_0_r.
    + intros i j Hij.
      replace (S k + i)%nat with (k + S i)%nat by lia.
      replace (S k + j)%nat with (k + S j)%nat by lia.
      apply Hd. lia.
Qed.

(** C7, as the code has it.  [extractMemoriesFromHistory] changes no record
    and deletes none; every record it adds is long-term with source
    [system], and so is every fact it returns; the count it returns is the
    number of facts it returns.  With no pairing the store is unchanged and
    the count is 0.  With a pairing, a reply and fresh ids, it adds one
    fact per candidate that carries a text, with that text, whatever the
    store holds already and however many the candidates are. *)
Theorem extractMemoriesFromHistory_long_term messages reply stamp s :
  let out := extractMemoriesFromHistory messages reply stamp s in
  let s' := fst out in
  let result := snd out in
  addsLongTerm s s' /\
  er_count result = length (er_memories result) /\
  Forall (fun m => mf_type m = long_term /\ mf_source m = Some system /\
                   store_get (mf_id m) s' = Some m) (er_memories result) /\
  (conversationPairsOf messages = [] -> s' = s /\ er_count result = 0%nat) /\
  (forall candidates,
      conversationPairsOf messages <> [] ->
      reply = OracleReturns (Some candidates) ->
      freshStamps stamp (length (factsOf candidates)) s ->
      map mf_fact (er_memories result) = factsOf candidates /\
      er_count result = length (factsOf candidates)).
Proof.
  intros out s' result. subst s' result out.
  unfold extractMemoriesFromHistory.
  destruct messages as [|m0 ms].
  { simpl. split; [apply addsLongTerm_refl|]. split; [reflexivity|].
    split; [constructor|]. split; [auto|].
    intros candidates H. exfalso. now apply H. }
  destruct (conversationPairsOf (m0 :: ms)) as [|p ps] eqn:Ep.
  { simpl. split; [apply addsLongTerm_refl|]. split; [reflexivity|].
    split; [constructor|]. split; [auto|].
    intros candidates H. exfalso. now apply H. }
  destruct reply as [|result].
  { simpl. split; [apply addsLongTerm_refl|]. split; [reflexivity|].
    split; [constructor|]. split; [discriminate|].
    intros candidates _ H. discriminate. }
  destruct (addExtracted stamp 0 (orElse result []) s []) as [s' res] eqn:E.
  destruct (addExtracted_spec _ _ _ _ _ _ _ E) as [Hadd Hout].
  destruct res as [added|].
  - destruct (Hout added eq_refl) as [new [-> [Hf Hall]]]. simpl.
    split; [assumption|]. split; [reflexivity|]. split; [assumption|].
    split; [discriminate|].
    intros candidates _ [= ->] _. simpl in Hf. rewrite Hf.
    split; [reflexivity|].
    now rewrite <- Hf, length_map.
  - simpl. split; [assumption|]. split; [reflexivity|].
    split; [constructor|]. split; [discriminate|].
    intros candidates _ [= ->] [Hn Hd]. exfalso.
    apply (addExtracted_fresh stamp candidates 0 s []); simpl; auto.
    simpl in E. now rewrite E.
Qed.

Lemma extractMemoriesFromHistory_long_term_witness :
  let out :=
    extractMemoriesFromHistory oneExchange
      (OracleReturns (Some sixCandidates)) summaryStamp corianderStore in
  map mf_fact (er_memories (snd out)) = factsOf sixCandidates /\
  er_count (snd out) = length (factsOf sixCandidates).
Proof.
  apply (proj2 (proj2 (proj2 (proj2
           (extractMemoriesFromHistory_long_term oneExchange
              (OracleReturns (Some sixCandidates)) summaryStamp
              corianderStore)))) sixCandidates).
  - discriminate.
  - reflexivity.
  - split.
    + intros i Hi. simpl in Hi.
      do 6 (destruct i as [|i]; [reflexivity|]). lia.
    + intros i j Hij. simpl in Hij.
      do 6 (destruct i as [|i];
            [do 6 (destruct j as [|j]; [try lia; discriminate|]); lia|]).
      lia.
Defined.

(** C7, as the specification words it, fails: nothing in the code caps the
    number of facts.  One exchange and six candidates of the service, all
    with the text "香菜", of which the store already holds a near
    duplicate: six facts are added. *)
Lemma extractMemoriesFromHistory_counterexample :
  let out :=
    extractMemoriesFromHistory oneExchange
      (OracleReturns (Some sixCandidates)) summaryStamp corianderStore in
  conversationPairsOf oneExchange
  = [(js "I cannot stand coriander", js "Noted!")] /\
  isDuplicateMemory text_coriander corianderStore = true /\
  length corianderStore = 1%nat /\
  er_count (snd out) = 6%nat /\
  length (fst out) = 7%nat /\
  map mf_fact (er_memories (snd out)) = repeat text_coriander 6.
Proof. repeat split. Qed.

(** The pairing loop ends within [messages.length] iterations: more fuel
    gives the same pairs. *)
Lemma findAssistant_from messages start n j text :
  findAssistant messages start n = Some (j, text) -> (start <= j)%nat.
Proof.
  revert start. induction n as [|n IH]; intros start; simpl; [discriminate|].
  destruct (nth_error messages start) as [nextMsg|]; [|discriminate].
  destruct (msg_role nextMsg).
  - intros H. apply IH in H. lia.
  - destruct (truthy (msg_content nextMsg)
              && negb (truthy (orElse (msg_imageUrl nextMsg) []))).
    + intros [= <- _]. lia.
    + intros H. apply IH in H. lia.
Qed.

Lemma pairLoop_fuel messages fuel :
  forall i, (length messages - i <= fuel)%nat ->
            pairLoop (S fuel) messages i = pairLoop fuel messages i.
Proof.
  induction fuel as [|fuel IH]; intros i Hi.
  - simpl. destruct (nth_error messages i) eqn:E; [|reflexivity].
    assert (i < length messages)%nat
      by (apply nth_error_Some; congruence). lia.
  - cbn [pairLoop].
    destruct (nth_error messages i) as [msg|] eqn:E; [|reflexivity].
    assert (Hlt : (i < length messages)%nat)
      by (apply nth_error_Some; congruence).
    destruct (msg_role msg).
    + destruct (truthy (msg_content msg)).
      * destruct (findAssistant messages (S i) (length messages - S i))
          as [[j text]|] eqn:F.
        -- apply findAssistant_from in F. f_equal.
           apply (IH (S (j + 1))). lia.
        -- apply (IH (S i)). lia.
      * apply (IH (S i)). lia.
    + apply (IH (S i)). lia.
Qed.

(** ** Vectors *)

Lemma sumSquares_sumsq_from v a :
  fold_left (fun sum val => (sum + val * val)%R) v a = (a + sumsq v)%R.
Proof.
  revert a. induction v as [|x v IH]; intros a; simpl.
  - lra.
  - rewrite IH. unfold sumsq. simpl. lra.
Qed.

Lemma sumSquares_sumsq v : sumSquares v = sumsq v.
Proof. unfold sumSquares. rewrite sumSquares_sumsq_from. lra. Qed.

Lemma sumsq_nonneg v : (0 <= sumsq v)%R.
Proof.
  induction v as [|x v IH]; simpl; [lra|].
  pose proof (Rle_0_sqr x) as H. unfold Rsqr in H. lra.
Qed.

Lemma sumsq_scale m v :
  (m <> 0)%R -> sumsq (map (fun x => (x / m)%R) v) = (sumsq v / (m * m))%R.
Proof.
  intros Hm. induction v as [|x v IH]; simpl.
  - unfold Rdiv. lra.
  - rewrite IH. field. assumption.
Qed.

Lemma sumsq_IZR v : sumsq (map IZR v) = IZR (sumsqZ v).
Proof.
  induction v as [|x v IH]; simpl; [reflexivity|].
  rewrite IH, plus_IZR, mult_IZR. reflexivity.
Qed.

Lemma sumsqZ_nonneg v : (0 <= sumsqZ v)%Z.
Proof. induction v as [|x v IH]; simpl; nia. Qed.

Lemma sumsqZ_zero v : sumsqZ v = 0%Z -> forall c, In c v -> c = 0%Z.
Proof.
  induction v as [|x v IH]; simpl; [tauto|].
  intros H c [<- | Hc]; pose proof (sumsqZ_nonneg v); [nia|].
  apply IH; [nia | assumption].
Qed.

Lemma sumsqZ_pos v c : In c v -> c <> 0%Z -> (0 < sumsqZ v)%Z.
Proof.
  intros Hin Hc. pose proof (sumsqZ_nonneg v) as H.
  destruct (Z.eq_dec (sumsqZ v) 0) as [E | E]; [|lia].
  exfalso. apply Hc. now apply (sumsqZ_zero v E).
Qed.

Lemma dotR_scale a b v1 v2 :
  (a <> 0)%R -> (b <> 0)%R ->
  dotR (map (fun x => (x / a)%R) v1) (map (fun x => (x / b)%R) v2)
  = (dotR v1 v2 / (a * b))%R.
Proof.
  intros Ha Hb. revert v2. induction v1 as [|x v1 IH]; intros [|y v2]; simpl;
    try (unfold Rdiv; lra).
  rewrite IH. field. auto.
Qed.

Lemma dotR_IZR v1 v2 : dotR (map IZR v1) (map IZR v2) = IZR (dotZ v1 v2).
Proof.
  revert v2. induction v1 as [|x v1 IH]; intros [|y v2]; simpl;
    try reflexivity.
  rewrite IH, plus_IZR, mult_IZR. reflexivity.
Qed.

Lemma dotZ_self v : dotZ v v = sumsqZ v.
Proof. induction v as [|x v IH]; simpl; [reflexivity | now rewrite IH]. Qed.

Lemma cosineLoop_spec v1 v2 d m1 m2 :
  length v1 = length v2 ->
  cosineLoop v1 v2 (d, m1, m2)
  = ((d + dotR v1 v2)%R, (m1 + sumsq v1)%R, (m2 + sumsq v2)%R).
Proof.
  revert v2 d m1 m2. induction v1 as [|a v1 IH]; intros [|b v2] d m1 m2;
    simpl; try discriminate.
  - intros _. f_equal; [f_equal|]; lra.
  - intros [= H]. rewrite IH by assumption. f_equal; [f_equal|]; lra.
Qed.

(** On vectors of one length, [cosineSimilarity] is the cosine, and 0 when
    a norm is 0. *)
Lemma cosineSimilarity_spec v1 v2 :
  length v1 = length v2 ->
  cosineSimilarity v1 v2
  = if Req_dec_T (euclideanNorm v1) 0 then 0%R
    else if Req_dec_T (euclideanNorm v2) 0 then 0%R
    else (dotR v1 v2 / (euclideanNorm v1 * euclideanNorm v2))%R.
Proof.
  intros H. unfold cosineSimilarity. rewrite H, Nat.eqb_refl. simpl.
  rewrite cosineLoop_spec by assumption.
  rewrite !Rplus_0_l. reflexivity.
Qed.

Lemma cosineSimilarity_zero_l v1 v2 :
  sumsq v1 = 0%R -> cosineSimilarity v1 v2 = 0%R.
Proof.
  intros Hz. unfold cosineSimilarity.
  destruct (length v1 =? length v2)%nat eqn:E; simpl; [|reflexivity].
  apply Nat.eqb_eq in E. rewrite cosineLoop_spec by assumption.
  rewrite Rplus_0_l, Hz, sqrt_0.
  destruct (Req_dec_T 0 0); [reflexivity | congruence].
Qed.

(** ** The embedding *)

Lemma length_addAt i c v : length (addAt i c v) = length v.
Proof.
  revert i. induction v as [|x v IH]; intros [|i]; simpl; auto.
Qed.

Lemma length_foldFeatures features : length (foldFeatures features) = 256%nat.
Proof.
  unfold foldFeatures.
  assert (H : forall v, length v = 256%nat ->
            length (fold_left
                      (fun vector entry =>
                         addAt (Z.to_nat (Z.rem (hashString (fst entry)) 256))
                               (snd entry) vector) features v) = 256%nat).
  { induction features as [|e features IH]; intros v Hv; simpl; [assumption|].
    apply IH. now rewrite length_addAt. }
  apply H. apply repeat_length.
Qed.

Section EmbeddingFacts.
Variable toLowerCase : jsstring -> jsstring.

Lemma length_featureVector text :
  length (featureVector toLowerCase text) = 256%nat.
Proof. apply length_foldFeatures. Qed.

Lemma featureVector_short text :
  (length text < 2)%nat -> featureVector toLowerCase text = repeat 0%Z 256.
Proof.
  intros H. unfold featureVector, countFeatures.
  replace (S (length text) - 2)%nat with 0%nat by lia. reflexivity.
Qed.

Lemma computeTextEmbedding_cases text :
  let counts := featureVector toLowerCase text in
  ((0 < sumsqZ counts)%Z /\
   computeTextEmbedding toLowerCase text
   = map (fun v => (v / sqrt (IZR (sumsqZ counts)))%R) (map IZR counts)) \/
  (sumsqZ counts = 0%Z /\
   computeTextEmbedding toLowerCase text = map IZR counts).
Proof.
  intros counts. unfold computeTextEmbedding. fold counts.
  rewrite sumSquares_sumsq, sumsq_IZR.
  pose proof (sumsqZ_nonneg counts) as Hn.
  destruct (Rlt_dec 0 (sqrt (IZR (sumsqZ counts)))) as [Hp | Hp].
  - left. split; [|reflexivity].
    destruct (Z.eq_dec (sumsqZ counts) 0) as [E | E]; [|lia].
    rewrite E, sqrt_0 in Hp. lra.
  - right. split; [|reflexivity].
    destruct (Z.eq_dec (sumsqZ counts) 0) as [E | E]; [assumption|].
    exfalso. apply Hp. apply sqrt_lt_R0. apply IZR_lt. lia.
Qed.

Lemma length_computeTextEmbedding text :
  length (computeTextEmbedding toLowerCase text) = 256%nat.
Proof.
  destruct (computeTextEmbedding_cases text) as [[_ E] | [_ E]]; rewrite E;
    rewrite ?length_map; apply length_featureVector.
Qed.

Lemma sumsq_computeTextEmbedding text :
  (0 < sumsqZ (featureVector toLowerCase text))%Z ->
  sumsq (computeTextEmbedding toLowerCase text) = 1%R.
Proof.
  intros Hp. destruct (computeTextEmbedding_cases text) as [[_ E] | [Hz _]];
    [|lia].
  rewrite E. apply IZR_lt in Hp.
  assert (Hs : (0 < sqrt (IZR (sumsqZ (featureVector toLowerCase text))))%R)
    by now apply sqrt_lt_R0.
  rewrite sumsq_scale by lra.
  rewrite sqrt_sqrt by lra. rewrite sumsq_IZR. field. lra.
Qed.

End EmbeddingFacts.

(** ** Looking a sticker up *)

Lemma scan_unchanged q threshold stickers best :
  (forall x, In x stickers -> scanStep q threshold best x = best) ->
  fold_left (scanStep q threshold) stickers best = best.
Proof.
  induction stickers as [|x l IH]; intros H; simpl; [reflexivity|].
  rewrite H by now left. apply IH. intros y Hy. apply H. now right.
Qed.

Lemma scan_invariant q threshold (P : StickerCache -> Prop) stickers :
  (forall x, In x stickers ->
             (cosineSimilarity q (sc_embedding x) >= threshold)%R -> P x) ->
  forall best,
    match fst best with Some m => P m | None => True end ->
    match fst (fold_left (scanStep q threshold) stickers best) with
    | Some m => P m
    | None => True
    end.
Proof.
  induction stickers as [|x l IH]; intros H best Hb; simpl; [assumption|].
  apply IH.
  - intros y Hy. apply H. now right.
  - unfold scanStep.
    destruct (Rgt_dec (cosineSimilarity q (sc_embedding x)) (snd best));
      [|assumption].
    destruct (Rge_dec (cosineSimilarity q (sc_embedding x)) threshold);
      [|assumption].
    simpl. apply H; [now left | assumption].
Qed.

Section CacheFacts.
Variable toLowerCase : jsstring -> jsstring.

(** The cosine of two embeddings, from the bigram counts of the texts. *)
Lemma cosineSimilarity_embeddings a b :
  let u := featureVector toLowerCase a in
  let v := featureVector toLowerCase b in
  (0 < sumsqZ u)%Z -> (0 < sumsqZ v)%Z ->
  cosineSimilarity (computeTextEmbedding toLowerCase a)
                   (computeTextEmbedding toLowerCase b)
  = (IZR (dotZ u v) / (sqrt (IZR (sumsqZ u)) * sqrt (IZR (sumsqZ v))))%R.
Proof.
  intros u v Hu Hv.
  rewrite cosineSimilarity_spec
    by now rewrite !length_computeTextEmbedding.
  unfold euclideanNorm.
  rewrite !sumsq_computeTextEmbedding by assumption.
  rewrite sqrt_1.
  destruct (Req_dec_T 1 0) as [E | _]; [lra|].
  destruct (computeTextEmbedding_cases toLowerCase a) as [[_ Ea] | [Hz _]];
    [|fold u in Hz; lia].
  destruct (computeTextEmbedding_cases toLowerCase b) as [[_ Eb] | [Hz _]];
    [|fold v in Hz; lia].
  rewrite Ea, Eb. fold u. fold v.
  assert (Hsu : (0 < sqrt (IZR (sumsqZ u)))%R)
    by (apply sqrt_lt_R0; now apply IZR_lt).
  assert (Hsv : (0 < sqrt (IZR (sumsqZ v)))%R)
    by (apply sqrt_lt_R0; now apply IZR_lt).
  rewrite dotR_scale by lra. rewrite dotR_IZR. field. lra.
Qed.

Lemma cosineSimilarity_self a :
  (0 < sumsqZ (featureVector toLowerCase a))%Z ->
  cosineSimilarity (computeTextEmbedding toLowerCase a)
                   (computeTextEmbedding toLowerCase a) = 1%R.
Proof.
  intros H. rewrite cosineSimilarity_embeddings by assumption.
  rewrite dotZ_self. apply IZR_lt in H.
  rewrite sqrt_sqrt by lra. field. lra.
Qed.

(** C10. For a descriptor of fewer than two code units the query embedding
    is the zero vector, its cosine similarity with every vector is 0, and
    [findSimilarSticker] returns no match and leaves the store, usage
    counts included, as it is: whatever the category, the threshold and the
    store. *)
Theorem findSimilarSticker_short_descriptor type detail threshold s :
  (length detail < 2)%nat ->
  computeTextEmbedding toLowerCase detail = repeat 0%R 256 /\
  (forall v,
      cosineSimilarity (computeTextEmbedding toLowerCase detail) v = 0%R) /\
  findSimilarSticker toLowerCase type detail threshold s = (None, s).
Proof.
  intros Hlen.
  assert (Hz : sumsqZ (featureVector toLowerCase detail) = 0%Z)
    by (rewrite featureVector_short by assumption; reflexivity).
  assert (He : computeTextEmbedding toLowerCase detail = repeat 0%R 256).
  { destruct (computeTextEmbedding_cases toLowerCase detail)
      as [[Hp _] | [_ E]]; [lia|].
    rewrite E, featureVector_short by assumption.
    now rewrite map_repeat. }
  assert (Hcos : forall v,
             cosineSimilarity (computeTextEmbedding toLowerCase detail) v
             = 0%R).
  { intros v. apply cosineSimilarity_zero_l.
    destruct (computeTextEmbedding_cases toLowerCase detail)
      as [[Hp _] | [_ E]]; [lia|].
    rewrite E, sumsq_IZR, Hz. reflexivity. }
  split; [assumption|]. split; [assumption|].
  unfold findSimilarSticker. rewrite scan_unchanged; [reflexivity|].
  intros x _. unfold scanStep. rewrite Hcos. simpl.
  destruct (Rgt_dec 0 0) as [H | _]; [lra | reflexivity].
Qed.

Lemma findSimilarSticker_match type detail threshold s m s' :
  findSimilarSticker toLowerCase type detail threshold s = (Some m, s') ->
  In m s /\ sc_type m = type /\
  ~ (cosineSimilarity (computeTextEmbedding toLowerCase detail)
                      (sc_embedding m) < threshold)%R /\
  s' = updateUsageCount (sc_id m) s.
Proof.
  unfold findSimilarSticker.
  set (q := computeTextEmbedding toLowerCase detail).
  set (stickers := filter (fun x => StickerType_eqb (sc_type x) type) s).
  assert (Hinv :
    match fst (fold_left (scanStep q threshold) stickers (None, 0%R)) with
    | Some m => In m s /\ sc_type m = type /\
                ~ (cosineSimilarity q (sc_embedding m) < threshold)%R
    | None => True
    end).
  { apply scan_invariant; [|exact I].
    intros x Hx Hge. apply filter_In in Hx. destruct Hx as [Hx Ty].
    split; [assumption|]. split; [|lra].
    destruct (sc_type x), type; simpl in Ty; congruence. }
  destruct (fold_left (scanStep q threshold) stickers (None, 0%R))
    as [[bm|] bs]; simpl in Hinv.
  - intros [= <- <-]. tauto.
  - discriminate.
Qed.

Lemma findSimilarSticker_below type detail threshold s :
  (forall x, In x s -> sc_type x = type ->
             (cosineSimilarity (computeTextEmbedding toLowerCase detail)
                               (sc_embedding x) < threshold)%R) ->
  findSimilarSticker toLowerCase type detail threshold s = (None, s).
Proof.
  intros Hlow. unfold findSimilarSticker.
  rewrite scan_unchanged; [reflexivity|].
  intros x Hx. apply filter_In in Hx. destruct Hx as [Hx Ty].
  assert (H : sc_type x = type)
    by (destruct (sc_type x), type; simpl in Ty; congruence).
  specialize (Hlow x Hx H). unfold scanStep.
  match goal with
  | |- context [Rgt_dec ?a ?b] => destruct (Rgt_dec a b); [|reflexivity]
  end.
  match goal with
  | |- context [Rge_dec ?a ?b] => destruct (Rge_dec a b); [lra | reflexivity]
  end.
Qed.

(** C5. A match of [findSimilarSticker] is a sticker of the store, of the
    requested category, whose stored embedding has a cosine similarity with
    the query embedding that is not below the threshold; and when every
    sticker of the requested category is below the threshold, there is no
    match and the store is unchanged. *)
Theorem findSimilarSticker_sound type detail threshold s :
  let queryEmbedding := computeTextEmbedding toLowerCase detail in
  (forall m s',
      findSimilarSticker toLowerCase type detail threshold s = (Some m, s') ->
      In m s /\ sc_type m = type /\
      ~ (cosineSimilarity queryEmbedding (sc_embedding m) < threshold)%R /\
      s' = updateUsageCount (sc_id m) s) /\
  ((forall x, In x s -> sc_type x = type ->
              (cosineSimilarity queryEmbedding (sc_embedding x) < threshold)%R)
   -> findSimilarSticker toLowerCase type detail threshold s = (None, s)).
Proof.
  intros q. split.
  - intros m s'. apply findSimilarSticker_match.
  - apply findSimilarSticker_below.
Qed.

Lemma featureVector_fixed text :
  toLowerCase text = text ->
  featureVector toLowerCase text = featureVector lowerCaseText text.
Proof.
  intros H. unfold featureVector, countFeatures. rewrite H. reflexivity.
Qed.

End CacheFacts.

Lemma findSimilarSticker_short_descriptor_witness :
  findSimilarSticker lowerCaseText hikari_emotion (js "h") (7 / 10)%R
    [happySticker] = (None, [happySticker]).
Proof.
  apply (findSimilarSticker_short_descriptor lowerCaseText hikari_emotion
           (js "h") (7 / 10)%R [happySticker]).
  simpl. lia.
Defined.

(** A hit: the query "happy" against a sticker that stores the embedding of
    "happy" has similarity 1; the sticker is returned as it was read and
    its usage count in the store goes from 1 to 2. *)
Lemma findSimilarSticker_hit :
  findSimilarSticker lowerCaseText hikari_emotion (js "happy") (7 / 10)%R
    [happySticker]
  = (Some happySticker, [incrementUsage happySticker]).
Proof.
  unfold findSimilarSticker.
  change (filter (fun x => StickerType_eqb (sc_type x) hikari_emotion)
                 [happySticker]) with [happySticker].
  cbn [fold_left]. unfold scanStep.
  change (sc_embedding happySticker)
    with (computeTextEmbedding lowerCaseText (js "happy")).
  rewrite cosineSimilarity_self by (vm_compute; reflexivity).
  cbn [snd].
  destruct (Rgt_dec 1 0) as [_ | H]; [|lra].
  destruct (Rge_dec 1 (7 / 10)) as [_ | H]; [|lra].
  reflexivity.
Qed.

Lemma findSimilarSticker_sound_witness :
  In happySticker [happySticker] /\
  sc_type happySticker = hikari_emotion /\
  ~ (cosineSimilarity (computeTextEmbedding lowerCaseText (js "happy"))
                      (sc_embedding happySticker) < 7 / 10)%R /\
  [incrementUsage happySticker]
  = updateUsageCount (sc_id happySticker) [happySticker].
Proof.
  apply (proj1 (findSimilarSticker_sound lowerCaseText hikari_emotion
                  (js "happy") (7 / 10)%R [happySticker])
               happySticker [incrementUsage happySticker]).
  exact findSimilarSticker_hit.
Defined.

(** ** Saving a sticker, then looking it up *)

Lemma happy_against_red_heart :
  (4 / (sqrt 4 * sqrt 24) < 7 / 10)%R.
Proof.
  rewrite <- sqrt_mult by lra.
  assert (H : (9 < sqrt (4 * 24))%R).
  { rewrite <- (sqrt_square 9) at 1 by lra. apply sqrt_lt_1; lra. }
  apply (Rmult_lt_reg_r (sqrt (4 * 24))); [lra|].
  unfold Rdiv. rewrite Rmult_assoc, Rinv_l by lra. lra.
Qed.

(** C6, on the code.  [saveSticker] stores the embedding of
    "red heart sticker happy" and [findSimilarSticker] queries with the
    embedding of "happy": the two share 4 bigrams out of 4 and 22, their
    cosine similarity is [4 / (sqrt 4 * sqrt 24)], about 0.41 and below 0.7;
    the lookup returns no match and the usage count stays 1. *)
Theorem saveSticker_then_findSimilarSticker
    (toLowerCase : jsstring -> jsstring) (stamp : string * Z)
    (imageData : jsstring) :
  toLowerCase (js "happy") = js "happy" ->
  toLowerCase (js "red heart sticker happy") = js "red heart sticker happy" ->
  exists sticker,
    saveSticker toLowerCase stamp (js "red heart sticker") hikari_emotion
      (js "happy") imageData [] = Some ([sticker], sticker) /\
    sc_usageCount sticker = 1%Z /\
    cosineSimilarity (computeTextEmbedding toLowerCase (js "happy"))
                     (sc_embedding sticker)
    = (4 / (sqrt 4 * sqrt 24))%R /\
    findSimilarSticker toLowerCase hikari_emotion (js "happy") (7 / 10)%R
      [sticker] = (None, [sticker]).
Proof.
  intros Hq Hs.
  eexists. split; [reflexivity|]. split; [reflexivity|].
  cbn [sc_embedding].
  change (js "red heart sticker" ++ js " " ++ js "happy")
    with (js "red heart sticker happy").
  assert (Hcos :
    cosineSimilarity (computeTextEmbedding toLowerCase (js "happy"))
      (computeTextEmbedding toLowerCase (js "red heart sticker happy"))
    = (4 / (sqrt 4 * sqrt 24))%R).
  { rewrite cosineSimilarity_embeddings;
      rewrite !(featureVector_fixed toLowerCase) by assumption;
      vm_compute; reflexivity. }
  split; [exact Hcos|].
  apply findSimilarSticker_below.
  intros x [<- | []] _. cbn [sc_embedding].
  change (js "red heart sticker" ++ js " " ++ js "happy")
    with (js "red heart sticker happy").
  rewrite Hcos. apply happy_against_red_heart.
Qed.

Lemma saveSticker_then_findSimilarSticker_witness :
  exists sticker,
    saveSticker lowerCaseText ("sticker-1"%string, 1000%Z)
      (js "red heart sticker") hikari_emotion (js "happy")
      (js "data:image/png;base64,AAAA") [] = Some ([sticker], sticker) /\
    sc_usageCount sticker = 1%Z /\
    cosineSimilarity (computeTextEmbedding lowerCaseText (js "happy"))
                     (sc_embedding sticker)
    = (4 / (sqrt 4 * sqrt 24))%R /\
    findSimilarSticker lowerCaseText hikari_emotion (js "happy") (7 / 10)%R
      [sticker] = (None, [sticker]).
Proof.
  apply (saveSticker_then_findSimilarSticker lowerCaseText
           ("sticker-1"%string, 1000%Z) (js "data:image/png;base64,AAAA"));
    reflexivity.
Defined.

(* ================================================================= *)
(** * Further properties *)

(** ** Listings *)

Section DescendingFacts.
Context {A : Type}.
Variable f : A -> Z.

Lemma insertDesc_perm x l : Permutation (Listing.insertDesc f x l) (x :: l).
Proof.
  induction l as [|y r IH]; simpl; [reflexivity|].
  destruct (f y <=? f x)%Z; [reflexivity|].
  rewrite IH. apply perm_swap.
Qed.

Lemma insertDesc_sorted x l :
  StronglySorted (fun a b => (f b <= f a)%Z) l ->
  StronglySorted (fun a b => (f b <= f a)%Z) (Listing.insertDesc f x l).
Proof.
  induction 1 as [|y r Hs IH Hy]; simpl.
  - constructor; constructor.
  - destruct (f y <=? f x)%Z eqn:E.
    + apply Z.leb_le in E. constructor.
      * now constructor.
      * constructor; [assumption|].
        eapply Forall_impl; [|exact Hy]. simpl. intros; lia.
    + apply Z.leb_gt in E. constructor; [assumption|].
      eapply Permutation_Forall.
      * symmetry. apply insertDesc_perm.
      * constructor; [lia | assumption].
Qed.

Lemma insertDesc_stable x l t :
  filter (fun y => (f y =? t)%Z) (Listing.insertDesc f x l)
  = filter (fun y => (f y =? t)%Z) (x :: l).
Proof.
  induction l as [|y r IH]; [reflexivity|].
  cbn [Listing.insertDesc].
  destruct (f y <=? f x)%Z eqn:E; [reflexivity|].
  apply Z.leb_gt in E.
  cbn [filter] in *. rewrite IH.
  destruct (f x =? t)%Z eqn:Ex; [|reflexivity].
  apply Z.eqb_eq in Ex.
  assert (Ey : (f y =? t)%Z = false) by (apply Z.eqb_neq; lia).
  now rewrite Ey.
Qed.

Lemma sortDesc_descendingOf l : descendingOf f l (Listing.sortDesc f l).
Proof.
  unfold descendingOf. induction l as [|x l [IHp [IHs IHt]]]; simpl.
  - repeat split; constructor.
  - split; [|split].
    + rewrite insertDesc_perm. now constructor.
    + now apply insertDesc_sorted.
    + intros t. rewrite insertDesc_stable. simpl. now rewrite IHt.
Qed.
End DescendingFacts.

Lemma sortNewestFirst_sortDesc l :
  sortNewestFirst l = Listing.sortDesc mf_timestamp l.
Proof.
  induction l as [|x l IH]; simpl; [reflexivity|].
  rewrite IH. generalize (Listing.sortDesc mf_timestamp l).
  intros r. induction r as [|y r IHr]; simpl; [reflexivity|].
  now rewrite IHr.
Qed.

Lemma In_indexGetAll ty m s :
  In m (indexGetAll ty s) <-> In m s /\ mf_type m = ty.
Proof.
  unfold indexGetAll. rewrite filter_In.
  destruct (mf_type m), ty; simpl; intuition congruence.
Qed.

(** X1. [getShortTermMemories], [getLongTermMemories] and
    [getAllMemoryFacts] return exactly the facts of the type (of both
    types), each once per record, newest first, and facts with the same
    time in the order of the store. *)
Theorem memories_listed_newest_first s :
  (forall ty m, In m (indexGetAll ty s) <-> In m s /\ mf_type m = ty) /\
  descendingOf mf_timestamp (indexGetAll short_term s)
               (getShortTermMemories s) /\
  descendingOf mf_timestamp (indexGetAll long_term s)
               (getLongTermMemories s) /\
  descendingOf mf_timestamp s (getAllMemoryFacts s).
Proof.
  split; [intros ty m; apply In_indexGetAll|].
  unfold getShortTermMemories, getLongTermMemories, getAllMemoryFacts.
  rewrite !sortNewestFirst_sortDesc.
  repeat split; apply sortDesc_descendingOf.
Qed.

(** X2. The counts of [getMemoryStats] agree: the total is the
    number of records, and it is the short-term count plus the long-term
    count; the relation count is the number of relations. *)
Theorem getMemoryStats_consistent s r :
  let stats := getMemoryStats s r in
  totalFacts stats = length s /\
  totalFacts stats = (shortTermCount stats + longTermCount stats)%nat /\
  relationsCount stats = length r.
Proof.
  simpl. unfold getAllMemoryFacts, getAllRelations.
  rewrite (Permutation_length (sortNewestFirst_perm s)).
  rewrite length_types.
  destruct (sortDesc_descendingOf rel_timestamp r) as [Hp _].
  rewrite (Permutation_length Hp). auto.
Qed.

(** ** The object store keeps its keys unique *)

Section StoreInvariant.
Context {T : Type}.
Variable key : T -> string.

Lemma existsb_insert k x s :
  existsb (fun y => String.eqb k (key y)) (ObjectStore.insert key x s)
  = String.eqb k (key x) || existsb (fun y => String.eqb k (key y)) s.
Proof.
  induction s as [|y r IH]; simpl; [reflexivity|].
  destruct (String.ltb (key x) (key y)); simpl; [reflexivity|].
  rewrite IH. destruct (String.eqb k (key x)), (String.eqb k (key y));
    reflexivity.
Qed.

Lemma get_None_existsb k s :
  ObjectStore.get key k s = None ->
  existsb (fun y => String.eqb k (key y)) s = false.
Proof.
  induction s as [|y r IH]; simpl; [reflexivity|].
  destruct (String.eqb k (key y)); [discriminate | assumption].
Qed.

Lemma insert_uniqueKeys x s :
  ObjectStore.get key (key x) s = None ->
  ObjectStore.uniqueKeys key s = true ->
  ObjectStore.uniqueKeys key (ObjectStore.insert key x s) = true.
Proof.
  induction s as [|y r IH]; simpl; [reflexivity|].
  destruct (String.eqb (key x) (key y)) eqn:E; [discriminate|].
  intros Hn Hu. apply andb_true_iff in Hu. destruct Hu as [Hy Hr].
  destruct (String.ltb (key x) (key y)); simpl.
  - rewrite E, (get_None_existsb _ _ Hn). simpl. now rewrite Hy, Hr.
  - rewrite existsb_insert, String.eqb_sym, E. simpl.
    rewrite Hy. simpl. auto.
Qed.

Lemma keys_replace x s :
  map key (ObjectStore.replace key x s) = map key s.
Proof.
  induction s as [|y r IH]; simpl; [reflexivity|].
  destruct (String.eqb (key x) (key y)) eqn:E; simpl.
  - apply String.eqb_eq in E. now rewrite E.
  - now rewrite IH.
Qed.

Lemma uniqueKeys_keys s s' :
  map key s = map key s' ->
  ObjectStore.uniqueKeys key s = ObjectStore.uniqueKeys key s'.
Proof.
  revert s'. induction s as [|x r IH]; intros [|x' r']; simpl;
    try discriminate; [reflexivity|].
  intros [= Hx Hr]. rewrite (IH r' Hr). f_equal. f_equal.
  rewrite Hx. clear -Hr. revert r' Hr.
  induction r as [|y r IH]; intros [|y' r']; simpl; try discriminate;
    [reflexivity|].
  intros [= Hy Hr]. now rewrite Hy, (IH r' Hr).
Qed.

Lemma put_uniqueKeys x s :
  ObjectStore.uniqueKeys key s = true ->
  ObjectStore.uniqueKeys key (ObjectStore.put key x s) = true.
Proof.
  intros Hu. unfold ObjectStore.put.
  destruct (ObjectStore.get key (key x) s) eqn:G.
  - now rewrite (uniqueKeys_keys _ s (keys_replace x s)).
  - now apply insert_uniqueKeys.
Qed.

Lemma add_uniqueKeys x s s' :
  ObjectStore.add key x s = Some s' ->
  ObjectStore.uniqueKeys key s = true ->
  ObjectStore.uniqueKeys key s' = true.
Proof.
  unfold ObjectStore.add.
  destruct (ObjectStore.get key (key x) s) eqn:G; [discriminate|].
  intros [= <-]. now apply insert_uniqueKeys.
Qed.

Lemma delete_uniqueKeys k s :
  ObjectStore.uniqueKeys key s = true ->
  ObjectStore.uniqueKeys key (ObjectStore.delete key k s) = true.
Proof.
  unfold ObjectStore.delete. induction s as [|y r IH]; simpl; [reflexivity|].
  intros Hu. apply andb_true_iff in Hu. destruct Hu as [Hy Hr].
  destruct (negb (String.eqb k (key y))); simpl; [|auto].
  rewrite IH by assumption. rewrite andb_true_r.
  apply negb_true_iff in Hy. apply negb_true_iff.
  clear -Hy. induction r as [|z r IH]; simpl in *; [reflexivity|].
  apply orb_false_iff in Hy. destruct Hy as [Hz Hr].
  destruct (negb (String.eqb k (key z))); simpl; [|auto].
  rewrite Hz. auto.
Qed.

Lemma insert_perm x s : Permutation (ObjectStore.insert key x s) (x :: s).
Proof.
  induction s as [|y r IH]; simpl; [reflexivity|].
  destruct (String.ltb (key x) (key y)); [reflexivity|].
  rewrite IH. apply perm_swap.
Qed.

Lemma delete_absent k s :
  ObjectStore.get key k s = None -> ObjectStore.delete key k s = s.
Proof.
  unfold ObjectStore.delete. induction s as [|y r IH]; simpl; [reflexivity|].
  destruct (String.eqb k (key y)); [discriminate|].
  intros H. simpl. now rewrite IH.
Qed.

Lemma delete_insert x s :
  ObjectStore.get key (key x) s = None ->
  ObjectStore.delete key (key x) (ObjectStore.insert key x s) = s.
Proof.
  intros Hn. pose proof (delete_absent _ _ Hn) as Hd.
  unfold ObjectStore.delete in *.
  induction s as [|y r IH]; simpl in *.
  - now rewrite String.eqb_refl.
  - destruct (String.eqb (key x) (key y)) eqn:E; [discriminate|].
    simpl in Hd. injection Hd as Hd.
    destruct (String.ltb (key x) (key y)); simpl.
    + rewrite String.eqb_refl, E. simpl. now rewrite Hd.
    + rewrite E. simpl. now rewrite IH.
Qed.
End StoreInvariant.

Lemma promoteToLongTerm_uniqueKeys k s :
  store_uniqueKeys s = true -> store_uniqueKeys (promoteToLongTerm k s) = true.
Proof.
  intros Hu. unfold promoteToLongTerm.
  destruct (store_get k s) as [f|]; [|assumption].
  destruct (mf_type f); [|assumption].
  now apply put_uniqueKeys.
Qed.

Lemma fold_promote_uniqueKeys {A} (idOf : A -> string) (l : list A) s :
  store_uniqueKeys s = true ->
  store_uniqueKeys
    (fold_left (fun st m => promoteToLongTerm (idOf m) st) l s) = true.
Proof.
  revert s. induction l as [|m l IH]; intros s Hu; simpl; [assumption|].
  apply IH. now apply promoteToLongTerm_uniqueKeys.
Qed.

Lemma addMemoryFact_uniqueKeys stamp fact s s' m :
  addMemoryFact stamp fact s = Some (s', m) ->
  store_uniqueKeys s = true -> store_uniqueKeys s' = true.
Proof.
  unfold addMemoryFact, store_add.
  destruct (ObjectStore.add mf_id (stampFact stamp fact) s) as [s0|] eqn:E;
    [|discriminate].
  intros [= <- _] Hu. eapply (add_uniqueKeys mf_id); eauto.
Qed.

Lemma organizeMemories_uniqueKeys reply s :
  store_uniqueKeys s = true ->
  store_uniqueKeys (fst (organizeMemories reply s)) = true.
Proof.
  intros Hu. rewrite (organizeMemories_spec reply s Hu). simpl.
  now rewrite promoteAll_uniqueKeys.
Qed.

Lemma addSummaries_uniqueKeys stamp k summaries s :
  store_uniqueKeys s = true ->
  store_uniqueKeys (fst (addSummaries stamp k summaries s)) = true.
Proof.
  revert k s. induction summaries as [|x rest IH]; intros k s Hu; simpl;
    [assumption|].
  destruct (addMemoryFact (stamp k) (summaryFact x) s) as [[s' m]|] eqn:E;
    [|assumption].
  apply IH. eapply addMemoryFact_uniqueKeys; eauto.
Qed.

Lemma addExtracted_uniqueKeys stamp k memories s added :
  store_uniqueKeys s = true ->
  store_uniqueKeys (fst (addExtracted stamp k memories s added)) = true.
Proof.
  revert k s added.
  induction memories as [|mem rest IH]; intros k s added Hu; simpl;
    [assumption|].
  destruct (factOf mem) as [fact|]; [|now apply IH].
  match goal with
  | |- context [addMemoryFact ?a ?b s] =>
      destruct (addMemoryFact a b s) as [[s' m]|] eqn:E
  end; [|assumption].
  apply IH. eapply addMemoryFact_uniqueKeys; eauto.
Qed.

Lemma fold_delete_uniqueKeys (l : list MemoryFact) s :
  store_uniqueKeys s = true ->
  store_uniqueKeys
    (fold_left (fun st mem => deleteMemoryFact (mf_id mem) st) l s) = true.
Proof.
  revert s. induction l as [|m l IH]; intros s Hu; simpl; [assumption|].
  apply IH. now apply delete_uniqueKeys.
Qed.

Lemma step_uniqueKeys op s :
  store_uniqueKeys s = true -> store_uniqueKeys (step op s) = true.
Proof.
  intros Hu. destruct op; simpl.
  - destruct (addMemoryFact stamp fact s) as [[s' m]|] eqn:E; [|assumption].
    eapply addMemoryFact_uniqueKeys; eauto.
  - unfold recordConversationMemory.
    destruct reply as [|[result|]]; try assumption.
    destruct (factOf result) as [fact|]; [|assumption].
    destruct (isDuplicateMemory fact s); [assumption|].
    match goal with
    | |- context [addMemoryFact ?a ?b s] =>
        destruct (addMemoryFact a b s) as [[s' m]|] eqn:E
    end; [|assumption].
    eapply addMemoryFact_uniqueKeys; eauto.
  - now apply promoteToLongTerm_uniqueKeys.
  - now apply (fold_promote_uniqueKeys (fun i : string => i)).
  - unfold updateMemoryFact.
    destruct (store_get factId s) as [f|]; [|assumption].
    now apply put_uniqueKeys.
  - now apply organizeMemories_uniqueKeys.
  - unfold organizeAndSummarizeLongTerm.
    pose proof (organizeMemories_uniqueKeys organizeReply s Hu) as H1.
    destruct (organizeMemories organizeReply s) as [s1 organized].
    simpl in H1.
    destruct (8 <=? length (getLongTermMemories s))%nat; [|exact H1].
    assert (H2 : store_uniqueKeys
                   (fst (summarizeLongTermMemories summarizeReply stamp
                           (getLongTermMemories s) s1)) = true).
    { unfold summarizeLongTermMemories.
      destruct (length (getLongTermMemories s) <? 8)%nat; [exact H1|].
      destruct summarizeReply as [|result]; [exact H1|].
      pose proof (addSummaries_uniqueKeys stamp 0 (orElse result []) s1 H1)
        as H.
      destruct (addSummaries stamp 0 (orElse result []) s1) as [s2 [|]];
        exact H. }
    destruct (summarizeLongTermMemories summarizeReply stamp
                (getLongTermMemories s) s1) as [s2 result].
    simpl in *.
    destruct (0 <? sr_summarized result)%nat; [|exact H2].
    now apply fold_delete_uniqueKeys.
  - unfold extractMemoriesFromHistory.
    destruct messages as [|m0 ms]; [assumption|].
    destruct (conversationPairsOf (m0 :: ms)); [assumption|].
    destruct reply as [|result]; [assumption|].
    pose proof (addExtracted_uniqueKeys stamp 0 (orElse result []) s [] Hu)
      as H.
    destruct (addExtracted stamp 0 (orElse result []) s []) as [s' [a|]];
      exact H.
  - now apply delete_uniqueKeys.
Qed.

(** X3. No sequence of operations on the facts makes two records
    share an id: additions, recordings, promotions, updates (also those
    that name an [id]), organisations, consolidations, extractions and
    deletions keep the ids of the store pairwise different. *)
Theorem run_keeps_ids_unique ops s :
  store_uniqueKeys s = true -> store_uniqueKeys (run ops s) = true.
Proof.
  revert s. induction ops as [|op ops IH]; intros s Hu; [assumption|].
  rewrite run_cons. apply IH. now apply step_uniqueKeys.
Qed.

Lemma run_keeps_ids_unique_witness :
  store_uniqueKeys (run sampleOps oneLongTerm) = true.
Proof. apply (run_keeps_ids_unique sampleOps oneLongTerm). reflexivity. Defined.

(** ** Adding, promoting, updating and deleting a fact *)

(** X4. [addMemoryFact] is rejected exactly when the id is taken, and
    then adds nothing.  With a fresh id the new fact carries the stamp and
    the given fields, [get] finds it under its id, every other id reads as
    before, the store has that one record more, and the listing of all
    facts shows it. *)
Theorem addMemoryFact_round_trip stamp fact s :
  (addMemoryFact stamp fact s = None <-> store_get (fst stamp) s <> None) /\
  (store_get (fst stamp) s = None ->
   exists s',
     addMemoryFact stamp fact s = Some (s', stampFact stamp fact) /\
     store_get (fst stamp) s' = Some (stampFact stamp fact) /\
     (forall k, k <> fst stamp -> store_get k s' = store_get k s) /\
     Permutation s' (stampFact stamp fact :: s) /\
     In (stampFact stamp fact) (getAllMemoryFacts s')).
Proof.
  split.
  - split; [apply addMemoryFact_None|].
    intros Hn. destruct (addMemoryFact stamp fact s) as [[s' m]|] eqn:E;
      [|reflexivity].
    apply addMemoryFact_Some in E. tauto.
  - intros Hn. rewrite (addMemoryFact_fresh stamp fact s Hn).
    eexists. split; [reflexivity|].
    split; [apply (store_get_insert_same (stampFact stamp fact) s Hn)|].
    split; [intros k Hk; now apply (StoreFacts.get_insert_other mf_id)|].
    split; [apply insert_perm|].
    apply In_sortNewestFirst.
    apply (Permutation_in _ (Permutation_sym (insert_perm mf_id _ s))).
    now left.
Qed.

Lemma addMemoryFact_round_trip_witness :
  exists s',
    addMemoryFact ("fact-2"%string, 2000%Z) shortTermNote corianderStore
    = Some (s', stampFact ("fact-2"%string, 2000%Z) shortTermNote) /\
    store_get "fact-2" s'
    = Some (stampFact ("fact-2"%string, 2000%Z) shortTermNote) /\
    (forall k, k <> "fact-2"%string ->
               store_get k s' = store_get k corianderStore) /\
    Permutation s'
      (stampFact ("fact-2"%string, 2000%Z) shortTermNote :: corianderStore) /\
    In (stampFact ("fact-2"%string, 2000%Z) shortTermNote)
       (getAllMemoryFacts s').
Proof.
  apply (proj2 (addMemoryFact_round_trip ("fact-2"%string, 2000%Z)
                  shortTermNote corianderStore)).
  reflexivity.
Defined.

Lemma promoteToLongTerm_short k s f :
  store_get k s = Some f -> mf_type f = short_term ->
  promoteToLongTerm k s = ObjectStore.replace mf_id (setType long_term f) s.
Proof.
  intros G Ty. unfold promoteToLongTerm. rewrite G, Ty.
  unfold store_put, ObjectStore.put.
  destruct (StoreFacts.get_In mf_id k s f G) as [_ Hk].
  simpl. rewrite Hk. unfold store_get in G. now rewrite G.
Qed.

(** X5. [promoteToLongTerm] changes nothing when the id is
    missing or the fact is long-term already; on a short-term fact it sets
    the type and nothing else: the other fields of the fact, the other
    records and the ids of the store are as before.  Promoting twice is
    promoting once. *)
Theorem promoteToLongTerm_behaviour k s :
  (store_get k s = None -> promoteToLongTerm k s = s) /\
  (forall f, store_get k s = Some f -> mf_type f = long_term ->
             promoteToLongTerm k s = s) /\
  (forall f, store_get k s = Some f -> mf_type f = short_term ->
             store_get k (promoteToLongTerm k s) = Some (setType long_term f) /\
             (forall k', k' <> k ->
                store_get k' (promoteToLongTerm k s) = store_get k' s) /\
             map mf_id (promoteToLongTerm k s) = map mf_id s) /\
  promoteToLongTerm k (promoteToLongTerm k s) = promoteToLongTerm k s.
Proof.
  split; [|split; [|split]].
  - intros G. unfold promoteToLongTerm. now rewrite G.
  - intros f G Ty. unfold promoteToLongTerm. now rewrite G, Ty.
  - intros f G Ty.
    destruct (StoreFacts.get_In mf_id k s f G) as [_ Hk].
    rewrite (promoteToLongTerm_short k s f G Ty).
    split; [|split].
    + rewrite <- Hk at 1.
      apply (StoreFacts.get_replace_same mf_id (setType long_term f) s f).
      simpl. now rewrite Hk.
    + intros k' Hk'.
      apply (StoreFacts.get_replace_other mf_id k' (setType long_term f) s).
      simpl. congruence.
    + apply keys_replace.
  - destruct (store_get k s) as [f|] eqn:G.
    + destruct (mf_type f) eqn:Ty.
      * destruct (StoreFacts.get_In mf_id k s f G) as [_ Hk].
        assert (G' : store_get k (promoteToLongTerm k s)
                     = Some (setType long_term f)).
        { rewrite (promoteToLongTerm_short k s f G Ty).
          rewrite <- Hk at 1.
          apply (StoreFacts.get_replace_same mf_id (setType long_term f) s f).
          simpl. now rewrite Hk. }
        unfold promoteToLongTerm at 1. now rewrite G'.
      * unfold promoteToLongTerm at 2. rewrite G, Ty.
        unfold promoteToLongTerm. now rewrite G, Ty.
    + unfold promoteToLongTerm at 2. rewrite G.
      unfold promoteToLongTerm. now rewrite G.
Qed.

Lemma promoteToLongTerm_behaviour_witness :
  store_get "fact-1" (promoteToLongTerm "fact-1" corianderStore)
  = Some (setType long_term
            (sampleFact "fact-1" text_dislikes_coriander 1000 short_term)) /\
  (forall k', k' <> "fact-1"%string ->
     store_get k' (promoteToLongTerm "fact-1" corianderStore)
     = store_get k' corianderStore) /\
  map mf_id (promoteToLongTerm "fact-1" corianderStore)
  = map mf_id corianderStore.
Proof.
  apply (proj1 (proj2 (proj2
           (promoteToLongTerm_behaviour "fact-1" corianderStore)))
           (sampleFact "fact-1" text_dislikes_coriander 1000 short_term));
    reflexivity.
Defined.

Lemma promoteAll_same_ids ids ids' s :
  (forall k, In k ids <-> In k ids') -> promoteAll ids s = promoteAll ids' s.
Proof.
  intros H. unfold promoteAll. apply map_ext. intros f.
  assert (E : existsb (String.eqb (mf_id f)) ids
              = existsb (String.eqb (mf_id f)) ids').
  { apply eq_iff_eq_true. rewrite !existsb_exists.
    split; intros [k [Hk E]]; exists k; split; auto; now apply H. }
  now rewrite E.
Qed.

(** X6. With unique ids, [batchPromoteToLongTerm] depends on the set
    of the ids only, not on their order or repetition, and afterwards no
    record with one of the ids is short-term. *)
Theorem batchPromoteToLongTerm_set ids ids' s :
  store_uniqueKeys s = true ->
  (forall k, In k ids <-> In k ids') ->
  batchPromoteToLongTerm ids s = batchPromoteToLongTerm ids' s /\
  forall k f, In k ids ->
              store_get k (batchPromoteToLongTerm ids s) = Some f ->
              mf_type f = long_term.
Proof.
  intros Hu H. unfold batchPromoteToLongTerm.
  rewrite !fold_promote by assumption.
  split; [now apply promoteAll_same_ids|].
  intros k f Hk G.
  destruct (StoreFacts.get_In mf_id k _ f G) as [Hin Hid].
  unfold promoteAll in Hin. apply in_map_iff in Hin.
  destruct Hin as [g [Hg _]].
  destruct (existsb (String.eqb (mf_id g)) ids) eqn:E.
  - now subst f.
  - subst f. exfalso.
    assert (existsb (String.eqb (mf_id g)) ids = true); [|congruence].
    apply existsb_exists. exists k. split; [assumption|].
    rewrite Hid. apply String.eqb_refl.
Qed.

Lemma batchPromoteToLongTerm_set_witness :
  batchPromoteToLongTerm ["fact-1"; "fact-3"; "fact-1"]%string fiveShortTerm
  = batchPromoteToLongTerm ["fact-3"; "fact-1"]%string fiveShortTerm /\
  forall k f,
    In k ["fact-1"; "fact-3"; "fact-1"]%string ->
    store_get k
      (batchPromoteToLongTerm ["fact-1"; "fact-3"; "fact-1"]%string
         fiveShortTerm) = Some f ->
    mf_type f = long_term.
Proof.
  apply (batchPromoteToLongTerm_set
           ["fact-1"; "fact-3"; "fact-1"]%string ["fact-3"; "fact-1"]%string
           fiveShortTerm).
  - reflexivity.
  - intros k. simpl. tauto.
Defined.

(** X7. When the facts the application has loaded include every
    short-term fact of the store, [handlePromoteAllShortTerm] leaves every
    record in place with its type set to long-term and nothing else
    changed, so that no short-term fact remains. *)
Theorem handlePromoteAllShortTerm_all facts s :
  store_uniqueKeys s = true ->
  (forall f, In f s -> mf_type f = short_term -> In f facts) ->
  handlePromoteAllShortTerm facts s = map (setType long_term) s /\
  getShortTermMemories (handlePromoteAllShortTerm facts s) = [] /\
  length (getLongTermMemories (handlePromoteAllShortTerm facts s)) = length s.
Proof.
  intros Hu Hall.
  assert (E : handlePromoteAllShortTerm facts s = map (setType long_term) s).
  { unfold handlePromoteAllShortTerm.
    rewrite fold_promote_facts by assumption.
    unfold promoteAll. apply map_ext_in. intros f Hf.
    destruct (mf_type f) eqn:Ty.
    - assert (Ex : existsb (String.eqb (mf_id f))
                     (map mf_id
                        (filter (fun f => MemoryType_eqb (mf_type f) short_term)
                                facts)) = true).
      { apply existsb_exists. exists (mf_id f). split.
        - apply in_map. apply filter_In. split; [auto|]. now rewrite Ty.
        - apply String.eqb_refl. }
      now rewrite Ex.
    - rewrite (setType_same long_term f Ty).
      now destruct (existsb _ _). }
  assert (Hs : getShortTermMemories (map (setType long_term) s) = []).
  { unfold getShortTermMemories, indexGetAll.
    assert (F : filter (fun f => MemoryType_eqb (mf_type f) short_term)
                       (map (setType long_term) s) = []).
    { clear. induction s as [|f s IH]; simpl; auto. }
    now rewrite F. }
  rewrite E. split; [reflexivity|]. split; [exact Hs|].
  pose proof (length_types (map (setType long_term) s)) as L.
  rewrite Hs, length_map in L. simpl in L. exact L.
Qed.

Lemma handlePromoteAllShortTerm_all_witness :
  handlePromoteAllShortTerm (getAllMemoryFacts fiveShortTerm) fiveShortTerm
  = map (setType long_term) fiveShortTerm /\
  getShortTermMemories
    (handlePromoteAllShortTerm (getAllMemoryFacts fiveShortTerm)
       fiveShortTerm) = [] /\
  length (getLongTermMemories
            (handlePromoteAllShortTerm (getAllMemoryFacts fiveShortTerm)
               fiveShortTerm)) = length fiveShortTerm.
Proof.
  apply (handlePromoteAllShortTerm_all (getAllMemoryFacts fiveShortTerm)
           fiveShortTerm).
  - reflexivity.
  - intros f Hf _. now apply In_sortNewestFirst.
Defined.

(** X8. [updateMemoryFact] changes nothing when the id is missing.
    When the update names no [id], the record under the id becomes the
    merge of the old record and the update, every other id reads as before
    and the ids of the store are unchanged. *)
Theorem updateMemoryFact_round_trip k updates s :
  (store_get k s = None -> updateMemoryFact k updates s = s) /\
  (forall f, store_get k s = Some f -> up_id updates = None ->
             store_get k (updateMemoryFact k updates s)
             = Some (spread f updates) /\
             (forall k', k' <> k ->
                store_get k' (updateMemoryFact k updates s) = store_get k' s) /\
             map mf_id (updateMemoryFact k updates s) = map mf_id s).
Proof.
  split.
  - intros G. unfold updateMemoryFact. now rewrite G.
  - intros f G Hid. unfold updateMemoryFact. rewrite G.
    destruct (StoreFacts.get_In mf_id k s f G) as [_ Hk].
    assert (Hkey : mf_id (spread f updates) = k)
      by (unfold spread; simpl; now rewrite Hid).
    split; [|split].
    + rewrite <- Hkey at 1.
      apply (StoreFacts.get_put_same mf_id (spread f updates) s).
    + intros k' Hk'.
      apply (StoreFacts.get_put_other mf_id k' (spread f updates) s).
      congruence.
    + unfold store_put, ObjectStore.put. rewrite Hkey.
      unfold store_get in G. rewrite G. apply keys_replace.
Qed.

Lemma updateMemoryFact_round_trip_witness :
  store_get "fact-1" (updateMemoryFact "fact-1" retext corianderStore)
  = Some (spread (sampleFact "fact-1" text_dislikes_coriander 1000 short_term)
                 retext) /\
  (forall k', k' <> "fact-1"%string ->
     store_get k' (updateMemoryFact "fact-1" retext corianderStore)
     = store_get k' corianderStore) /\
  map mf_id (updateMemoryFact "fact-1" retext corianderStore)
  = map mf_id corianderStore.
Proof.
  apply (proj2 (updateMemoryFact_round_trip "fact-1" retext corianderStore)
           (sampleFact "fact-1" text_dislikes_coriander 1000 short_term));
    reflexivity.
Defined.

(** X9. An update that names another [id] does not move the fact:
    the record under the old id stays as it was, and the merge is written
    under the new id, over whatever record was there. *)
Theorem updateMemoryFact_with_id k k' updates s f :
  store_get k s = Some f -> up_id updates = Some k' -> k' <> k ->
  store_get k (updateMemoryFact k updates s) = Some f /\
  store_get k' (updateMemoryFact k updates s) = Some (spread f updates) /\
  mf_id (spread f updates) = k' /\
  forall k'', k'' <> k' ->
    store_get k'' (updateMemoryFact k updates s) = store_get k'' s.
Proof.
  intros G Hid Hne. unfold updateMemoryFact. rewrite G.
  assert (Hkey : mf_id (spread f updates) = k')
    by (unfold spread; simpl; now rewrite Hid).
  split; [|split; [|split]].
  - rewrite <- G.
    apply (StoreFacts.get_put_other mf_id k (spread f updates) s).
    congruence.
  - rewrite <- Hkey at 1.
    apply (StoreFacts.get_put_same mf_id (spread f updates) s).
  - exact Hkey.
  - intros k'' Hk''.
    apply (StoreFacts.get_put_other mf_id k'' (spread f updates) s).
    congruence.
Qed.

Lemma updateMemoryFact_with_id_witness :
  store_get "fact-1" (updateMemoryFact "fact-1" rename corianderStore)
  = Some (sampleFact "fact-1" text_dislikes_coriander 1000 short_term) /\
  store_get "fact-9" (updateMemoryFact "fact-1" rename corianderStore)
  = Some (spread (sampleFact "fact-1" text_dislikes_coriander 1000 short_term)
                 rename) /\
  mf_id (spread (sampleFact "fact-1" text_dislikes_coriander 1000 short_term)
                rename) = "fact-9"%string /\
  forall k'', k'' <> "fact-9"%string ->
    store_get k'' (updateMemoryFact "fact-1" rename corianderStore)
    = store_get k'' corianderStore.
Proof.
  apply (updateMemoryFact_with_id "fact-1" "fact-9" rename corianderStore
           (sampleFact "fact-1" text_dislikes_coriander 1000 short_term));
    [reflexivity | reflexivity | discriminate].
Defined.

(** X10. After [deleteMemoryFact] the id is not in the store and
    every other id reads as before; deleting an id that is not in the store
    changes nothing; and deleting a fact that was just added gives the
    store back as it was. *)
Theorem deleteMemoryFact_round_trip k s :
  store_get k (deleteMemoryFact k s) = None /\
  (forall k', k' <> k ->
     store_get k' (deleteMemoryFact k s) = store_get k' s) /\
  (store_get k s = None -> deleteMemoryFact k s = s) /\
  (forall time fact s' m,
     addMemoryFact (k, time) fact s = Some (s', m) ->
     deleteMemoryFact k s' = s).
Proof.
  unfold deleteMemoryFact, store_delete, store_get.
  split; [apply StoreFacts.get_delete_same|].
  split; [intros k' Hk'; now apply StoreFacts.get_delete_other|].
  split; [apply delete_absent|].
  intros time fact s' m H.
  pose proof (addMemoryFact_Some _ _ _ _ _ H) as [Hn _]. simpl in Hn.
  rewrite (addMemoryFact_fresh (k, time) fact s Hn) in H.
  injection H as <- _.
  apply (delete_insert mf_id (stampFact (k, time) fact) s). exact Hn.
Qed.

Lemma deleteMemoryFact_round_trip_witness :
  deleteMemoryFact "fact-2"
    (ObjectStore.insert mf_id
       (stampFact ("fact-2"%string, 2000%Z) shortTermNote) corianderStore)
  = corianderStore.
Proof.
  apply (proj2 (proj2 (proj2
           (deleteMemoryFact_round_trip "fact-2" corianderStore)))
           2000%Z shortTermNote _
           (stampFact ("fact-2"%string, 2000%Z) shortTermNote)).
  reflexivity.
Defined.

Lemma filter_uniqueKeys {T} (key : T -> string) (q : T -> bool) s :
  ObjectStore.uniqueKeys key s = true ->
  ObjectStore.uniqueKeys key (filter q s) = true.
Proof.
  induction s as [|y r IH]; simpl; [reflexivity|].
  intros Hu. apply andb_true_iff in Hu. destruct Hu as [Hy Hr].
  destruct (q y); simpl; [|auto].
  rewrite IH by assumption. rewrite andb_true_r.
  apply negb_true_iff in Hy. apply negb_true_iff.
  clear -Hy. induction r as [|z r IH]; simpl in *; [reflexivity|].
  apply orb_false_iff in Hy. destruct Hy as [Hz Hr].
  destruct (q z); simpl; [|auto].
  rewrite Hz. auto.
Qed.

(** ** The order of the ISO strings *)

Local Open Scope Z_scope.

Lemma compare_app (x y s t : jsstring) :
  length x = length y ->
  compare (x ++ s) (y ++ t)
  = match compare x y with Eq => compare s t | c => c end.
Proof.
  revert y. induction x as [|a x IH]; intros [|b y]; simpl; try discriminate.
  - destruct (compare s t); reflexivity.
  - intros [= H]. destruct (N.compare a b); auto.
Qed.

Lemma length_digits w n : length (digits w n) = w.
Proof.
  revert n. induction w as [|w IH]; intros n; simpl; [reflexivity|].
  rewrite length_app, IH. simpl. lia.
Qed.

Lemma compare_by_quotient a b base :
  0 < base ->
  (a ?= b)
  = match a / base ?= b / base with
    | Eq => a mod base ?= b mod base
    | c => c
    end.
Proof.
  intros Hb.
  assert (Ha : a = base * (a / base) + a mod base) by (apply Z.div_mod; lia).
  assert (Hb' : b = base * (b / base) + b mod base) by (apply Z.div_mod; lia).
  pose proof (Z.mod_pos_bound a base Hb) as Ra.
  pose proof (Z.mod_pos_bound b base Hb) as Rb.
  destruct (Z.compare_spec (a / base) (b / base)) as [E | L | L];
    [destruct (Z.compare_spec (a mod base) (b mod base)) as [E' | L' | L']|..];
    [apply Z.compare_eq_iff | apply Z.compare_lt_iff | apply Z.compare_gt_iff
     | apply Z.compare_lt_iff | apply Z.compare_gt_iff]; nia.
Qed.

Lemma compare_digits w a b :
  0 <= a < 10 ^ Z.of_nat w -> 0 <= b < 10 ^ Z.of_nat w ->
  compare (digits w a) (digits w b) = (a ?= b).
Proof.
  revert a b. induction w as [|w IH]; intros a b Ha Hb.
  - simpl in *. symmetry. apply Z.compare_eq_iff. lia.
  - cbn [digits]. rewrite compare_app by now rewrite !length_digits.
    assert (P : 10 ^ Z.of_nat (S w) = 10 * 10 ^ Z.of_nat w).
    { rewrite Nat2Z.inj_succ, Z.pow_succ_r by lia. reflexivity. }
    rewrite P in Ha, Hb.
    rewrite IH.
    + rewrite (compare_by_quotient a b 10) by lia.
      destruct (a / 10 ?= b / 10); try reflexivity.
      cbn [compare].
      pose proof (Z.mod_pos_bound a 10 ltac:(lia)).
      pose proof (Z.mod_pos_bound b 10 ltac:(lia)).
      rewrite Z2N.inj_compare by lia.
      rewrite Z.add_compare_mono_l.
      destruct (a mod 10 ?= b mod 10); reflexivity.
    + split; [apply Z.div_pos; lia|].
      apply Z.div_lt_upper_bound; lia.
    + split; [apply Z.div_pos; lia|].
      apply Z.div_lt_upper_bound; lia.
Qed.

Lemma DayFromYear_mono y1 y2 : y1 <= y2 -> DayFromYear y1 <= DayFromYear y2.
Proof. unfold DayFromYear. intros H. Z.to_euclidean_division_equations; lia. Qed.

Lemma DayFromYear_next y : DayFromYear (y + 1) = DayFromYear y + DaysInYear y.
Proof.
  unfold DayFromYear, DaysInYear.
  destruct (y mod 4 =? 0) eqn:E4; destruct (y mod 100 =? 0) eqn:E100;
    destruct (y mod 400 =? 0) eqn:E400; cbn [negb];
    rewrite ?Z.eqb_eq, ?Z.eqb_neq in *;
    Z.to_euclidean_division_equations; lia.
Qed.

Lemma YearFromTime_spec t :
  DayFromYear (YearFromTime t) <= Day t < DayFromYear (YearFromTime t + 1).
Proof.
  unfold YearFromTime. generalize (Day t). intros day. cbv zeta.
  destruct (day <? DayFromYear (1970 + day * 400 / 146097)) eqn:E1.
  - apply Z.ltb_lt in E1. unfold DayFromYear in *. Z.to_euclidean_division_equations; lia.
  - apply Z.ltb_ge in E1.
    destruct (DayFromYear (1970 + day * 400 / 146097 + 1) <=? day) eqn:E2.
    + apply Z.leb_le in E2. unfold DayFromYear in *. Z.to_euclidean_division_equations; lia.
    + apply Z.leb_gt in E2. lia.
Qed.

Lemma DayWithinYear_bound t :
  0 <= DayWithinYear t < DaysInYear (YearFromTime t).
Proof.
  unfold DayWithinYear. pose proof (YearFromTime_spec t) as H.
  rewrite DayFromYear_next in H. lia.
Qed.

Lemma InLeapYear_days t :
  (InLeapYear t = 0 \/ InLeapYear t = 1) /\
  DaysInYear (YearFromTime t) = 365 + InLeapYear t.
Proof.
  unfold InLeapYear, DaysInYear.
  destruct (negb (YearFromTime t mod 4 =? 0));
    [|destruct (negb (YearFromTime t mod 100 =? 0));
      [|destruct (negb (YearFromTime t mod 400 =? 0))]];
    cbn; split; auto.
Qed.

Lemma YearFromTime_range t :
  inFourDigitYears t -> 0 <= YearFromTime t <= 9999.
Proof.
  intros [Hlo Hhi]. pose proof (YearFromTime_spec t) as [H1 H2].
  assert (Hd : -719528 <= Day t < 2932897).
  { unfold Day, msPerDay. Z.to_euclidean_division_equations; lia. }
  split.
  - destruct (Z_lt_le_dec (YearFromTime t) 0) as [L | L]; [|assumption].
    pose proof (DayFromYear_mono (YearFromTime t + 1) 0 ltac:(lia)) as M.
    change (DayFromYear 0) with (-719528) in M. lia.
  - destruct (Z_lt_le_dec 9999 (YearFromTime t)) as [L | L]; [|assumption].
    pose proof (DayFromYear_mono 10000 (YearFromTime t) ltac:(lia)) as M.
    change (DayFromYear 10000) with 2932897 in M. lia.
Qed.

Ltac split_tests :=
  repeat match goal with
         | |- context [if ?a <? ?b then _ else _] =>
             let E := fresh "E" in
             destruct (a <? b) eqn:E;
             [apply Z.ltb_lt in E | apply Z.ltb_ge in E]
         end.

Lemma monthOfDay_range d leap : 0 <= monthOfDay d leap <= 11.
Proof. unfold monthOfDay. split_tests; lia. Qed.

Lemma dateOfDay_range d leap :
  leap = 0 \/ leap = 1 -> 0 <= d < 365 + leap -> 1 <= dateOfDay d leap <= 31.
Proof.
  intros Hl Hd. unfold dateOfDay, monthOfDay.
  split_tests; cbv iota beta; lia.
Qed.

Lemma monthOfDay_order leap da db :
  leap = 0 \/ leap = 1 -> 0 <= da < 365 + leap -> 0 <= db < 365 + leap ->
  match monthOfDay da leap + 1 ?= monthOfDay db leap + 1 with
  | Eq => dateOfDay da leap ?= dateOfDay db leap
  | c => c
  end = (da ?= db).
Proof.
  intros Hl Ha Hb. unfold dateOfDay, monthOfDay.
  split_tests; cbv iota beta;
    match goal with
    | |- match ?a + 1 ?= ?b + 1 with _ => _ end = _ =>
        let c := eval cbv in (a + 1 ?= b + 1) in
        change (a + 1 ?= b + 1) with c; cbv iota
    end;
    symmetry;
    first [ apply Z.compare_lt_iff; lia
          | apply Z.compare_gt_iff; lia
          | destruct (Z.compare_spec da db); symmetry;
            [apply Z.compare_eq_iff | apply Z.compare_lt_iff
             | apply Z.compare_gt_iff]; lia ].
Qed.

Lemma date_compare ta tb :
  YearFromTime ta = YearFromTime tb ->
  match MonthFromTime ta + 1 ?= MonthFromTime tb + 1 with
  | Eq => DateFromTime ta ?= DateFromTime tb
  | c => c
  end = (Day ta ?= Day tb).
Proof.
  intros Hy.
  pose proof (DayWithinYear_bound ta) as Ha.
  pose proof (DayWithinYear_bound tb) as Hb.
  destruct (InLeapYear_days ta) as [Hl Hda]. rewrite Hda in Ha.
  destruct (InLeapYear_days tb) as [_ Hdb]. rewrite Hdb in Hb.
  assert (El : InLeapYear tb = InLeapYear ta)
    by (unfold InLeapYear; now rewrite Hy).
  assert (Ed : (Day ta ?= Day tb) = (DayWithinYear ta ?= DayWithinYear tb)).
  { rewrite <- (Z.add_compare_mono_l (DayFromYear (YearFromTime tb))
                  (DayWithinYear ta) (DayWithinYear tb)).
    unfold DayWithinYear. rewrite Hy. f_equal; lia. }
  rewrite Ed. unfold DateFromTime, MonthFromTime. rewrite El in *.
  now apply monthOfDay_order.
Qed.

Lemma compare_sep (sep x y : jsstring) :
  compare (sep ++ x) (sep ++ y) = compare x y.
Proof.
  induction sep as [|c sep IH]; simpl; [reflexivity|].
  now rewrite N.compare_refl.
Qed.

Lemma time_compare ta tb :
  (ta ?= tb)
  = match Day ta ?= Day tb with
    | Eq =>
        match HourFromTime ta ?= HourFromTime tb with
        | Eq =>
            match MinFromTime ta ?= MinFromTime tb with
            | Eq =>
                match SecFromTime ta ?= SecFromTime tb with
                | Eq => msFromTime ta ?= msFromTime tb
                | c => c
                end
            | c => c
            end
        | c => c
        end
    | c => c
    end.
Proof.
  unfold Day, msPerDay, HourFromTime, MinFromTime, SecFromTime, msFromTime.
  rewrite (compare_by_quotient ta tb 86400000) by lia.
  destruct (ta / 86400000 ?= tb / 86400000); try reflexivity.
  rewrite (compare_by_quotient (ta mod 86400000) (tb mod 86400000) 3600000)
    by lia.
  replace (ta mod 86400000 / 3600000) with ((ta / 3600000) mod 24)
    by (Z.to_euclidean_division_equations; lia).
  replace (tb mod 86400000 / 3600000) with ((tb / 3600000) mod 24)
    by (Z.to_euclidean_division_equations; lia).
  destruct ((ta / 3600000) mod 24 ?= (tb / 3600000) mod 24); try reflexivity.
  replace ((ta mod 86400000) mod 3600000) with (ta mod 3600000)
    by (Z.to_euclidean_division_equations; lia).
  replace ((tb mod 86400000) mod 3600000) with (tb mod 3600000)
    by (Z.to_euclidean_division_equations; lia).
  rewrite (compare_by_quotient (ta mod 3600000) (tb mod 3600000) 60000)
    by lia.
  replace (ta mod 3600000 / 60000) with ((ta / 60000) mod 60)
    by (Z.to_euclidean_division_equations; lia).
  replace (tb mod 3600000 / 60000) with ((tb / 60000) mod 60)
    by (Z.to_euclidean_division_equations; lia).
  destruct ((ta / 60000) mod 60 ?= (tb / 60000) mod 60); try reflexivity.
  replace ((ta mod 3600000) mod 60000) with (ta mod 60000)
    by (Z.to_euclidean_division_equations; lia).
  replace ((tb mod 3600000) mod 60000) with (tb mod 60000)
    by (Z.to_euclidean_division_equations; lia).
  rewrite (compare_by_quotient (ta mod 60000) (tb mod 60000) 1000) by lia.
  replace (ta mod 60000 / 1000) with ((ta / 1000) mod 60)
    by (Z.to_euclidean_division_equations; lia).
  replace (tb mod 60000 / 1000) with ((tb / 1000) mod 60)
    by (Z.to_euclidean_division_equations; lia).
  destruct ((ta / 1000) mod 60 ?= (tb / 1000) mod 60); try reflexivity.
  replace ((ta mod 60000) mod 1000) with (ta mod 1000)
    by (Z.to_euclidean_division_equations; lia).
  replace ((tb mod 60000) mod 1000) with (tb mod 1000)
    by (Z.to_euclidean_division_equations; lia).
  reflexivity.
Qed.

Lemma formatISO_fields t :
  inFourDigitYears t ->
  formatISO t
  = digits 4 (YearFromTime t) ++ js "-" ++
    digits 2 (MonthFromTime t + 1) ++ js "-" ++
    digits 2 (DateFromTime t) ++ js "T" ++
    digits 2 (HourFromTime t) ++ js ":" ++
    digits 2 (MinFromTime t) ++ js ":" ++
    digits 2 (SecFromTime t) ++ js "." ++
    digits 3 (msFromTime t) ++ js "Z".
Proof.
  intros H. apply YearFromTime_range in H. unfold formatISO, yearString.
  replace ((0 <=? YearFromTime t) && (YearFromTime t <=? 9999)) with true;
    [reflexivity|].
  symmetry. apply andb_true_iff. split; apply Z.leb_le; lia.
Qed.

Lemma field_bounds t :
  inFourDigitYears t ->
  0 <= YearFromTime t < 10 ^ Z.of_nat 4 /\
  0 <= MonthFromTime t + 1 < 10 ^ Z.of_nat 2 /\
  0 <= DateFromTime t < 10 ^ Z.of_nat 2 /\
  0 <= HourFromTime t < 10 ^ Z.of_nat 2 /\
  0 <= MinFromTime t < 10 ^ Z.of_nat 2 /\
  0 <= SecFromTime t < 10 ^ Z.of_nat 2 /\
  0 <= msFromTime t < 10 ^ Z.of_nat 3.
Proof.
  intros H. apply YearFromTime_range in H.
  pose proof (monthOfDay_range (DayWithinYear t) (InLeapYear t)) as Hm.
  pose proof (DayWithinYear_bound t) as Hd.
  destruct (InLeapYear_days t) as [Hl Hy]. rewrite Hy in Hd.
  pose proof (dateOfDay_range _ _ Hl Hd) as Hdate.
  change (10 ^ Z.of_nat 4) with 10000.
  change (10 ^ Z.of_nat 2) with 100.
  change (10 ^ Z.of_nat 3) with 1000.
  unfold MonthFromTime, DateFromTime, HourFromTime, MinFromTime, SecFromTime,
    msFromTime.
  repeat split; try lia; Z.to_euclidean_division_equations; lia.
Qed.

Lemma formatISO_compare ta tb :
  inFourDigitYears ta -> inFourDigitYears tb ->
  compare (formatISO ta) (formatISO tb) = (ta ?= tb).
Proof.
  intros Ha Hb.
  rewrite (formatISO_fields ta Ha), (formatISO_fields tb Hb).
  destruct (field_bounds ta Ha) as [A1 [A2 [A3 [A4 [A5 [A6 A7]]]]]].
  destruct (field_bounds tb Hb) as [B1 [B2 [B3 [B4 [B5 [B6 B7]]]]]].
  do 6 (rewrite compare_app by (now rewrite !length_digits);
        rewrite compare_sep).
  rewrite compare_app by (now rewrite !length_digits).
  rewrite !compare_digits by assumption.
  change (compare (js "Z") (js "Z")) with Eq.
  rewrite (time_compare ta tb).
  pose proof (YearFromTime_spec ta) as Sa.
  pose proof (YearFromTime_spec tb) as Sb.
  destruct (Z.compare_spec (YearFromTime ta) (YearFromTime tb)) as [E | L | L].
  - rewrite <- (date_compare ta tb E).
    destruct (MonthFromTime ta + 1 ?= MonthFromTime tb + 1); try reflexivity.
    destruct (DateFromTime ta ?= DateFromTime tb); try reflexivity.
    destruct (HourFromTime ta ?= HourFromTime tb); try reflexivity.
    destruct (MinFromTime ta ?= MinFromTime tb); try reflexivity.
    destruct (SecFromTime ta ?= SecFromTime tb); try reflexivity.
    destruct (msFromTime ta ?= msFromTime tb); reflexivity.
  - pose proof (DayFromYear_mono (YearFromTime ta + 1) (YearFromTime tb)
                  ltac:(lia)) as M.
    replace (Day ta ?= Day tb) with Lt; [reflexivity|].
    symmetry. apply Z.compare_lt_iff. lia.
  - pose proof (DayFromYear_mono (YearFromTime tb + 1) (YearFromTime ta)
                  ltac:(lia)) as M.
    replace (Day ta ?= Day tb) with Gt; [reflexivity|].
    symmetry. apply Z.compare_gt_iff. lia.
Qed.

Lemma lessThan_formatISO ta tb :
  inFourDigitYears ta -> inFourDigitYears tb ->
  lessThan (formatISO ta) (formatISO tb) = (ta <? tb).
Proof.
  intros Ha Hb. unfold lessThan, Z.ltb.
  now rewrite formatISO_compare.
Qed.

Local Close Scope Z_scope.

(** ** Cleaning up old short-term facts *)

Lemma fold_cleanup_filter (old : MemoryFact -> bool) (l : list MemoryFact) s :
  fold_left (fun st fact =>
               if old fact then store_delete (mf_id fact) st else st) l s
  = filter (fun x =>
              negb (existsb (fun fact =>
                               old fact
                               && String.eqb (mf_id fact) (mf_id x)) l)) s.
Proof.
  revert s. induction l as [|m l IH]; intros s; simpl.
  - induction s as [|x s IHs]; simpl; [reflexivity | now rewrite <- IHs].
  - rewrite IH. destruct (old m); simpl.
    + unfold store_delete, ObjectStore.delete.
      induction s as [|x s IHs]; simpl; [reflexivity|].
      destruct (String.eqb (mf_id m) (mf_id x)); simpl.
      * exact IHs.
      * destruct (negb _); [now rewrite IHs | exact IHs].
    + reflexivity.
Qed.

Lemma toISOString_valid t :
  inFourDigitYears t -> toISOString t = Some (formatISO t).
Proof.
  intros [Hlo Hhi]. unfold toISOString.
  replace (Z.abs t <=? 8640000000000000)%Z with true; [reflexivity|].
  symmetry. apply Z.leb_le. lia.
Qed.

(** X11. With unique ids, and when the cutoff [now - maxAgeHours] hours
    and the times of the short-term facts are dates of the years 0000 to
    9999, where the ISO strings that the code compares are in the order of
    the times, [cleanupOldShortTermMemories] removes exactly the short-term
    facts older than the cutoff: the store afterwards is the store before
    without them, in the same order.  Long-term facts and short-term facts
    at or after the cutoff stay, and cleaning up twice with the same clock
    is cleaning up once. *)
Theorem cleanupOldShortTermMemories_exact now maxAgeHours s :
  let cutoffTime := (now - maxAgeHours * 3600000)%Z in
  store_uniqueKeys s = true ->
  inFourDigitYears cutoffTime ->
  (forall f, In f s -> mf_type f = short_term ->
             inFourDigitYears (mf_timestamp f)) ->
  exists s',
    cleanupOldShortTermMemories now maxAgeHours s = Some s' /\
    s' = filter (fun f => negb (MemoryType_eqb (mf_type f) short_term
                                 && (mf_timestamp f <? cutoffTime)%Z)) s /\
    getLongTermMemories s' = getLongTermMemories s /\
    (forall f, In f (getShortTermMemories s') <->
               In f (getShortTermMemories s) /\
               (cutoffTime <= mf_timestamp f)%Z) /\
    cleanupOldShortTermMemories now maxAgeHours s' = Some s'.
Proof.
  intros cutoffTime Hu Hc Hs.
  assert (Ec : (now - maxAgeHours * 60 * 60 * 1000 = cutoffTime)%Z)
    by (unfold cutoffTime; lia).
  assert (Hgen : forall t,
            store_uniqueKeys t = true ->
            (forall f, In f t -> mf_type f = short_term ->
                       inFourDigitYears (mf_timestamp f)) ->
            cleanupOldShortTermMemories now maxAgeHours t
            = Some (filter
                      (fun f => negb (MemoryType_eqb (mf_type f) short_term
                                      && (mf_timestamp f <? cutoffTime)%Z))
                      t)).
  { intros t Ht Hr. unfold cleanupOldShortTermMemories. rewrite Ec.
    rewrite (toISOString_valid cutoffTime Hc). f_equal.
    rewrite fold_cleanup_filter. apply filter_ext_in. intros x Hx.
    f_equal. apply eq_iff_eq_true.
    rewrite existsb_exists, andb_true_iff. split.
    - intros [m [Hm E]]. apply andb_true_iff in E. destruct E as [Et Ei].
      apply String.eqb_eq in Ei. apply In_indexGetAll in Hm.
      destruct Hm as [Hm Ty].
      unfold timestampOf in Et.
      rewrite (lessThan_formatISO _ _ (Hr m Hm Ty) Hc) in Et.
      rewrite <- (uniqueKeys_same_record m x t Ht Hm Hx Ei).
      rewrite Ty. auto.
    - intros [Ty Et].
      assert (Tx : mf_type x = short_term)
        by (destruct (mf_type x); [reflexivity | discriminate]).
      exists x. split.
      + apply In_indexGetAll. now split.
      + unfold timestampOf.
        rewrite (lessThan_formatISO _ _ (Hr x Hx Tx) Hc).
        now rewrite Et, String.eqb_refl. }
  exists (filter (fun f => negb (MemoryType_eqb (mf_type f) short_term
                                 && (mf_timestamp f <? cutoffTime)%Z)) s).
  split; [apply Hgen; assumption|]. split; [reflexivity|].
  split; [|split].
  - unfold getLongTermMemories, indexGetAll. f_equal.
    clear. induction s as [|f s IH]; simpl; [reflexivity|].
    destruct (mf_type f) eqn:Ty;
      destruct (mf_timestamp f <? cutoffTime)%Z eqn:Et; simpl;
      rewrite ?Ty; simpl; rewrite ?IH; reflexivity.
  - intros f. rewrite !In_getShortTermMemories, filter_In.
    split.
    + intros [[Hin Hk] Ty]. rewrite Ty in Hk. simpl in Hk.
      apply negb_true_iff, Z.ltb_ge in Hk. tauto.
    + intros [[Hin Ty] Ht]. rewrite Ty. simpl.
      split; [|reflexivity]. split; [assumption|].
      apply negb_true_iff, Z.ltb_ge. exact Ht.
  - rewrite Hgen.
    + apply f_equal.
      clear. induction s as [|f s IH]; simpl; [reflexivity|].
      destruct (negb (MemoryType_eqb (mf_type f) short_term
                      && (mf_timestamp f <? cutoffTime)%Z)) eqn:E; simpl.
      * rewrite E. now rewrite IH.
      * exact IH.
    + now apply (filter_uniqueKeys mf_id).
    + intros f Hf. apply filter_In in Hf. apply Hs. tauto.
Qed.

Lemma cleanupOldShortTermMemories_exact_witness :
  exists s',
    cleanupOldShortTermMemories 176400000 48 oldAndNew = Some s' /\
    s' = filter (fun f => negb (MemoryType_eqb (mf_type f) short_term
                                 && (mf_timestamp f
                                     <? 176400000 - 48 * 3600000)%Z))
                oldAndNew /\
    getLongTermMemories s' = getLongTermMemories oldAndNew /\
    (forall f, In f (getShortTermMemories s') <->
               In f (getShortTermMemories oldAndNew) /\
               (176400000 - 48 * 3600000 <= mf_timestamp f)%Z) /\
    cleanupOldShortTermMemories 176400000 48 s' = Some s'.
Proof.
  apply (cleanupOldShortTermMemories_exact 176400000 48 oldAndNew).
  - reflexivity.
  - unfold inFourDigitYears. lia.
  - intros f [<- | [<- | [<- | []]]] _; unfold inFourDigitYears; simpl; lia.
Defined.

(** At the clock 176400000 the cutoff of 48 hours is the time 3600000: the
    short-term fact from time 1000 is removed, the long-term fact of the
    same age and the short-term fact from time 9000000 stay. *)
Example cleanup_sample :
  option_map (map mf_id) (cleanupOldShortTermMemories 176400000 48 oldAndNew)
  = Some ["fact-2"; "fact-3"]%string.
Proof. reflexivity. Qed.

(** A cutoff of the year 10012 is written +010012-05-25T16:00:00.000Z, and
    no timestamp of a four-digit year is smaller than that string: nothing
    is removed, although every short-term fact is older. *)
Example cleanup_beyond_year_9999 :
  toISOString (1793577600000 - -70000000 * 60 * 60 * 1000)
  = Some (js "+010012-05-25T16:00:00.000Z") /\
  cleanupOldShortTermMemories 1793577600000 (-70000000) oldAndNew
  = Some oldAndNew.
Proof. split; reflexivity. Qed.

(** A cutoff beyond 8.64e15 is no valid date: [toISOString] throws. *)
Example cleanup_invalid_cutoff :
  cleanupOldShortTermMemories 0 (-3000000000) oldAndNew = None.
Proof. reflexivity. Qed.

(** ** Adding a list of facts *)

Lemma addAll_extends stamp k facts s :
  extends s (fst (addAll stamp k facts s)).
Proof.
  revert k s. induction facts as [|x rest IH]; intros k s; simpl.
  - apply extends_refl.
  - destruct (addMemoryFact (stamp k) x s) as [[s' m]|] eqn:E.
    + eapply extends_trans; [eapply addMemoryFact_extends; eauto | apply IH].
    + apply extends_refl.
Qed.

Lemma addAll_spec stamp k facts s s' :
  addAll stamp k facts s = (s', true) ->
  (forall i, (i < length facts)%nat ->
             store_get (fst (stamp (k + i)%nat)) s = None) /\
  (forall i, (i < length facts)%nat ->
             store_get (fst (stamp (k + i)%nat)) s'
             = Some (stampFact (stamp (k + i)%nat) (nth i facts noFact))) /\
  (forall key,
      store_get key s' = store_get key s \/
      exists i, (i < length facts)%nat /\ key = fst (stamp (k + i)%nat)) /\
  length s' = (length s + length facts)%nat.
Proof.
  revert k s. induction facts as [|x rest IH]; intros k s; simpl.
  - intros [= <-]. repeat split; try (intros; lia). intros key. now left.
  - destruct (addMemoryFact (stamp k) x s) as [[s1 m]|] eqn:E;
      [|discriminate].
    intros H.
    assert (L1 : length s1 = S (length s)).
    { pose proof (addMemoryFact_Some _ _ _ _ _ E) as [Hn0 _].
      rewrite (addMemoryFact_fresh (stamp k) x s Hn0) in E.
      injection E as <- _.
      apply (Permutation_length (insert_perm mf_id _ s)). }
    apply addMemoryFact_Some in E. destruct E as [Hn [Hm Hk]].
    destruct (IH (S k) s1 H) as [P1 [P2 [P3 P4]]].
    assert (Hne : forall i, (i < length rest)%nat ->
                            fst (stamp (S k + i)%nat) <> fst (stamp k)).
    { intros i Hi E. specialize (P1 i Hi). rewrite Hk, E in P1.
      rewrite String.eqb_refl in P1. discriminate. }
    split; [|split; [|split]].
    + intros [|i] Hi.
      * now rewrite Nat.add_0_r.
      * assert (Hi' : (i < length rest)%nat) by lia.
        specialize (P1 i Hi'). rewrite Hk in P1.
        replace (k + S i)%nat with (S k + i)%nat by lia.
        destruct (String.eqb (fst (stamp (S k + i)%nat)) (fst (stamp k)));
          [discriminate | assumption].
    + intros [|i] Hi.
      * rewrite Nat.add_0_r.
        destruct (P3 (fst (stamp k))) as [E | [i [Hi' E]]].
        -- rewrite E, Hk, String.eqb_refl, Hm. reflexivity.
        -- exfalso. symmetry in E. exact (Hne i Hi' E).
      * replace (k + S i)%nat with (S k + i)%nat by lia.
        apply P2. lia.
    + intros key. destruct (P3 key) as [E | [i [Hi E]]].
      * rewrite E, Hk. destruct (String.eqb key (fst (stamp k))) eqn:K.
        -- right. exists 0%nat. split; [lia|].
           apply String.eqb_eq in K. now rewrite Nat.add_0_r.
        -- now left.
      * right. exists (S i). split; [lia|].
        now replace (k + S i)%nat with (S k + i)%nat by lia.
    + lia.
Qed.

Lemma addAll_fresh stamp k facts s :
  (forall i, (i < length facts)%nat ->
             store_get (fst (stamp (k + i)%nat)) s = None) ->
  (forall i j, (i < j < length facts)%nat ->
               fst (stamp (k + i)%nat) <> fst (stamp (k + j)%nat)) ->
  snd (addAll stamp k facts s) = true.
Proof.
  revert k s. induction facts as [|x rest IH]; intros k s Hn Hd; simpl.
  - reflexivity.
  - assert (H0 : store_get (fst (stamp k)) s = None).
    { specialize (Hn 0%nat). rewrite Nat.add_0_r in Hn. apply Hn.
      simpl. lia. }
    rewrite (addMemoryFact_fresh (stamp k) x s H0).
    apply IH.
    + intros i Hi.
      replace (S k + i)%nat with (k + S i)%nat by lia.
      rewrite (StoreFacts.get_insert_other mf_id).
      * apply Hn. simpl. lia.
      * simpl. intros E. apply (Hd 0%nat (S i)); [simpl; lia|].
        now rewrite Nat.add_0_r.
    + intros i j Hij.
      replace (S k + i)%nat with (k + S i)%nat by lia.
      replace (S k + j)%nat with (k + S j)%nat by lia.
      apply Hd. simpl. lia.
Qed.

(** The loop stops at the first rejected fact and keeps what it added. *)
Lemma addAll_stops stamp k done fact rest s s' :
  addAll stamp k done s = (s', true) ->
  store_get (fst (stamp (k + length done)%nat)) s' <> None ->
  addAll stamp k (done ++ fact :: rest) s = (s', false).
Proof.
  revert k s. induction done as [|x done IH]; intros k s; simpl.
  - intros [= <-]. rewrite Nat.add_0_r. intros Hn.
    destruct (addMemoryFact (stamp k) fact s) as [[s1 m]|] eqn:E;
      [|reflexivity].
    apply addMemoryFact_Some in E. tauto.
  - destruct (addMemoryFact (stamp k) x s) as [[s1 m]|]; [|discriminate].
    intros H Hn. apply IH; [assumption|].
    now replace (S k + length done)%nat with (k + S (length done))%nat by lia.
Qed.

Lemma migrateFacts_addAll stamp k facts s :
  migrateFacts stamp k facts s = addAll stamp k (map legacyToNew facts) s.
Proof.
  revert k s. induction facts as [|x rest IH]; intros k s; simpl;
    [reflexivity|].
  destruct (addMemoryFact (stamp k) (legacyToNew x) s) as [[s' m]|];
    [apply IH | reflexivity].
Qed.

Lemma addSummaries_addAll stamp k summaries s :
  addSummaries stamp k summaries s
  = addAll stamp k (map summaryFact summaries) s.
Proof.
  revert k s. induction summaries as [|x rest IH]; intros k s; simpl;
    [reflexivity|].
  destruct (addMemoryFact (stamp k) (summaryFact x) s) as [[s' m]|];
    [apply IH | reflexivity].
Qed.

(** ** Migrating the old data *)

Lemma migrateRelations_fresh stamp k relations r :
  (forall i, (i < length relations)%nat ->
             ObjectStore.get rel_id (fst (stamp (k + i)%nat)) r = None) ->
  (forall i j, (i < j < length relations)%nat ->
               fst (stamp (k + i)%nat) <> fst (stamp (k + j)%nat)) ->
  snd (migrateRelations stamp k relations r) = true /\
  length (fst (migrateRelations stamp k relations r))
  = (length r + length relations)%nat.
Proof.
  revert k r. induction relations as [|x rest IH]; intros k r Hn Hd; simpl.
  - split; [reflexivity | lia].
  - assert (H0 : ObjectStore.get rel_id (fst (stamp k)) r = None).
    { specialize (Hn 0%nat). rewrite Nat.add_0_r in Hn. apply Hn.
      simpl. lia. }
    unfold addRelation, ObjectStore.add. simpl. rewrite H0.
    destruct (IH (S k)
                (ObjectStore.insert rel_id
                   (stampRelation (stamp k) (relationToNew x)) r))
      as [Ht Hl].
    + intros i Hi.
      replace (S k + i)%nat with (k + S i)%nat by lia.
      rewrite (StoreFacts.get_insert_other rel_id).
      * apply Hn. simpl. lia.
      * simpl. intros E. apply (Hd 0%nat (S i)); [simpl; lia|].
        now rewrite Nat.add_0_r.
    + intros i j Hij.
      replace (S k + i)%nat with (k + S i)%nat by lia.
      replace (S k + j)%nat with (k + S j)%nat by lia.
      apply Hd. simpl. lia.
    + split; [exact Ht|]. rewrite Hl.
      rewrite (Permutation_length (insert_perm rel_id _ r)). simpl. lia.
Qed.

Lemma migrateRelations_length stamp k relations r :
  (length r <= length (fst (migrateRelations stamp k relations r)))%nat.
Proof.
  revert k r. induction relations as [|x rest IH]; intros k r; simpl;
    [lia|].
  unfold addRelation, ObjectStore.add. simpl.
  destruct (ObjectStore.get rel_id (fst (stamp k)) r); simpl; [lia|].
  specialize (IH (S k) (ObjectStore.insert rel_id
                          (stampRelation (stamp k) (relationToNew x)) r)).
  rewrite (Permutation_length (insert_perm rel_id _ r)) in IH. simpl in IH.
  lia.
Qed.

Lemma addAll_count stamp k facts s :
  exists n,
    length (fst (addAll stamp k facts s)) = (length s + n)%nat /\
    (n <= length facts)%nat /\
    (snd (addAll stamp k facts s) = true <-> n = length facts).
Proof.
  revert k s. induction facts as [|x rest IH]; intros k s; simpl.
  - exists 0%nat. split; [lia|]. split; [lia|]. tauto.
  - destruct (addMemoryFact (stamp k) x s) as [[s1 m]|] eqn:E.
    + assert (L1 : length s1 = S (length s)).
      { pose proof (addMemoryFact_Some _ _ _ _ _ E) as [Hn0 _].
        rewrite (addMemoryFact_fresh (stamp k) x s Hn0) in E.
        injection E as <- _.
        apply (Permutation_length (insert_perm mf_id _ s)). }
      destruct (IH (S k) s1) as [n [Hl [Hle Hb]]].
      exists (S n). split; [lia|]. split; [lia|].
      rewrite Hb. lia.
    + exists 0%nat. simpl. split; [lia|]. split; [lia|].
      split; [discriminate | lia].
Qed.

Lemma migrateRelations_count stamp k relations r :
  exists n,
    length (fst (migrateRelations stamp k relations r)) = (length r + n)%nat /\
    (n <= length relations)%nat /\
    (snd (migrateRelations stamp k relations r) = true
     <-> n = length relations).
Proof.
  revert k r. induction relations as [|x rest IH]; intros k r; simpl.
  - exists 0%nat. split; [lia|]. split; [lia|]. tauto.
  - unfold addRelation, ObjectStore.add. cbn [stampRelation rel_id].
    destruct (ObjectStore.get rel_id (fst (stamp k)) r) eqn:G.
    + exists 0%nat. simpl. split; [lia|]. split; [lia|].
      split; [discriminate | lia].
    + destruct (IH (S k) (ObjectStore.insert rel_id
                            (stampRelation (stamp k) (relationToNew x)) r))
        as [n [Hl [Hle Hb]]].
      rewrite (Permutation_length (insert_perm rel_id _ r)) in Hl.
      simpl in Hl.
      exists (S n). split; [lia|]. split; [lia|].
      rewrite Hb. lia.
Qed.

Lemma migrateRelations_keeps stamp k relations r key x :
  ObjectStore.get rel_id key r = Some x ->
  ObjectStore.get rel_id key (fst (migrateRelations stamp k relations r))
  = Some x.
Proof.
  revert k r. induction relations as [|y rest IH]; intros k r G; simpl;
    [assumption|].
  unfold addRelation, ObjectStore.add. cbn [stampRelation rel_id].
  destruct (ObjectStore.get rel_id (fst (stamp k)) r) eqn:G0;
    [assumption|].
  apply IH. rewrite (StoreFacts.get_insert_other rel_id); [assumption|].
  cbn [stampRelation rel_id]. intros ->. congruence.
Qed.

Lemma migrateRelations_spec stamp k relations r r' :
  migrateRelations stamp k relations r = (r', true) ->
  forall i relation,
    nth_error relations i = Some relation ->
    ObjectStore.get rel_id (fst (stamp (k + i)%nat)) r'
    = Some (stampRelation (stamp (k + i)%nat) (relationToNew relation)).
Proof.
  revert k r. induction relations as [|y rest IH]; intros k r; simpl.
  - intros _ [|i] relation; discriminate.
  - unfold addRelation, ObjectStore.add. cbn [stampRelation rel_id].
    destruct (ObjectStore.get rel_id (fst (stamp k)) r) eqn:G0;
      [discriminate|].
    intros E [|i] relation Hi.
    + injection Hi as <-. rewrite Nat.add_0_r.
      replace r' with
        (fst (migrateRelations stamp (S k) rest
                (ObjectStore.insert rel_id
                   (stampRelation (stamp k) (relationToNew y)) r)))
        by now rewrite E.
      apply migrateRelations_keeps.
      apply (StoreFacts.get_insert_same rel_id
               (stampRelation (stamp k) (relationToNew y)) r G0).
    + replace (k + S i)%nat with (S k + i)%nat by lia.
      now apply (IH (S k) _ E).
Qed.

(** X12. [migrateFromLocalStorage] does nothing without old data
    or with old data that do not parse, and it never changes or removes a
    fact or a relation of the stores.  It adds at most the old facts and
    relations, and it removes the old data exactly when it has added every
    one of them: after a rejected add the old data stay as they were.
    With fresh ids it adds every old fact and every old relation, under
    its new id and time (the old ones are not kept): a fact without type as
    a short-term fact of importance 0.5 and source [system], a fact with a
    type with its own type, importance and source, a relation with its
    source, predicate and target. *)
Theorem migrateFromLocalStorage_behaviour factStamp relationStamp p :
  let p' := migrateFromLocalStorage factStamp relationStamp p in
  (p_saved p = None \/ p_saved p = Some Unparsable -> p' = p) /\
  extends (p_facts p) (p_facts p') /\
  (forall key relation,
      ObjectStore.get rel_id key (p_relations p) = Some relation ->
      ObjectStore.get rel_id key (p_relations p') = Some relation) /\
  (forall oldData,
      p_saved p = Some (Parsed oldData) ->
      let facts := orElse (ld_facts oldData) [] in
      let relations := orElse (ld_relations oldData) [] in
      (length (p_facts p') <= length (p_facts p) + length facts)%nat /\
      (length (p_relations p')
       <= length (p_relations p) + length relations)%nat /\
      (p_saved p' = None <->
       length (p_facts p') = (length (p_facts p) + length facts)%nat /\
       length (p_relations p')
       = (length (p_relations p) + length relations)%nat) /\
      (p_saved p' <> None -> p_saved p' = Some (Parsed oldData)) /\
      (freshStamps factStamp (length facts) (p_facts p) ->
       freshRelationStamps relationStamp (length relations) (p_relations p) ->
       p_saved p' = None /\
       (forall i fact, nth_error facts i = Some fact ->
          exists m,
            store_get (fst (factStamp i)) (p_facts p') = Some m /\
            mf_id m = fst (factStamp i) /\
            mf_timestamp m = snd (factStamp i) /\
            mf_fact m = lf_fact fact /\
            mf_category m = lf_category fact /\
            match lf_type fact with
            | None =>
                mf_type m = short_term /\
                mf_importance m = Some (5 # 10) /\
                mf_source m = Some system
            | Some type =>
                mf_type m = type /\
                mf_importance m = lf_importance fact /\
                mf_source m = lf_source fact
            end) /\
       (forall i relation, nth_error relations i = Some relation ->
          exists r,
            ObjectStore.get rel_id (fst (relationStamp i)) (p_relations p')
            = Some r /\
            rel_id r = fst (relationStamp i) /\
            rel_timestamp r = snd (relationStamp i) /\
            rel_source r = rel_source relation /\
            rel_predicate r = rel_predicate relation /\
            rel_target r = rel_target relation))).
Proof.
  intros p'. subst p'. unfold migrateFromLocalStorage.
  destruct (p_saved p) as [[|oldData]|] eqn:Sv.
  - repeat split; auto using extends_refl; try discriminate.
  - pose proof (addAll_extends factStamp 0
                  (map legacyToNew (orElse (ld_facts oldData) []))
                  (p_facts p)) as Hext.
    destruct (addAll_count factStamp 0
                (map legacyToNew (orElse (ld_facts oldData) []))
                (p_facts p)) as [n [Hn [Hnle Hnb]]].
    rewrite length_map in Hnle, Hnb.
    rewrite <- migrateFacts_addAll in Hext, Hn, Hnb.
    pose proof (migrateRelations_keeps relationStamp 0
                  (orElse (ld_relations oldData) []) (p_relations p))
      as Hkeep.
    destruct (migrateRelations_count relationStamp 0
                (orElse (ld_relations oldData) []) (p_relations p))
      as [k [Hk [Hkle Hkb]]].
    destruct (migrateFacts factStamp 0 (orElse (ld_facts oldData) [])
                (p_facts p)) as [s' bf] eqn:Ef.
    cbn [fst snd] in Hext, Hn, Hnb.
    destruct bf.
    + destruct (migrateRelations relationStamp 0
                  (orElse (ld_relations oldData) []) (p_relations p))
        as [r' br] eqn:Er.
      cbn [fst snd] in Hkeep, Hk, Hkb.
      assert (En : n = length (orElse (ld_facts oldData) []))
        by now apply Hnb.
      destruct br; cbn [p_saved p_facts p_relations].
      * assert (Ek : k = length (orElse (ld_relations oldData) []))
          by now apply Hkb.
        split; [intros [H | H]; discriminate|].
        split; [exact Hext|]. split; [exact Hkeep|].
        intros od [= <-]. cbv zeta.
        set (facts := orElse (ld_facts oldData) []) in *.
        set (relations := orElse (ld_relations oldData) []) in *.
        split; [lia|]. split; [lia|].
        split; [split; [intros _; split; lia | reflexivity]|].
        split; [intros H; now elim H|].
        intros _ _. split; [reflexivity|]. split.
        -- rewrite migrateFacts_addAll in Ef.
           destruct (addAll_spec _ _ _ _ _ Ef) as [_ [P2 _]].
           rewrite length_map in P2.
           intros i fact Hi.
           assert (Hlt : (i < length facts)%nat)
             by (apply nth_error_Some; congruence).
           eexists. split; [apply (P2 i Hlt)|].
           rewrite (nth_indep _ noFact (legacyToNew fact))
             by now rewrite length_map.
           rewrite (map_nth legacyToNew).
           rewrite (nth_error_nth _ _ _ Hi).
           unfold legacyToNew. destruct (lf_type fact); simpl; repeat split.
        -- intros i relation Hi. eexists.
           split; [apply (migrateRelations_spec _ _ _ _ _ Er i relation Hi)|].
           repeat split.
      * assert (Ek : k <> length (orElse (ld_relations oldData) [])).
        { intros E. apply Hkb in E. discriminate. }
        split; [intros [H | H]; discriminate|].
        split; [exact Hext|]. split; [exact Hkeep|].
        intros od [= <-]. cbv zeta.
        set (facts := orElse (ld_facts oldData) []) in *.
        set (relations := orElse (ld_relations oldData) []) in *.
        split; [lia|]. split; [lia|].
        split; [split; [discriminate | intros [_ H]; lia]|].
        split; [reflexivity|].
        intros _ [Hrn Hrd]. exfalso.
        destruct (migrateRelations_fresh relationStamp 0 relations
                    (p_relations p)) as [Ht _]; auto.
        rewrite Er in Ht. discriminate.
    + cbn [p_saved p_facts p_relations].
      assert (En : n <> length (orElse (ld_facts oldData) [])).
      { intros E. apply Hnb in E. discriminate. }
      split; [intros [H | H]; discriminate|].
      split; [exact Hext|]. split; [auto|].
      intros od [= <-]. cbv zeta.
      set (facts := orElse (ld_facts oldData) []) in *.
      split; [lia|]. split; [lia|].
      split; [split; [discriminate | intros [H _]; lia]|].
      split; [reflexivity|].
      intros [Hfn Hfd] _. exfalso.
      rewrite migrateFacts_addAll in Ef.
      pose proof (addAll_fresh factStamp 0 (map legacyToNew facts)
                    (p_facts p)) as Ht.
      rewrite length_map in Ht.
      rewrite Ef in Ht. simpl in Ht.
      assert (false = true); [apply Ht; auto | discriminate].
  - repeat split; auto using extends_refl; try discriminate.
Qed.

Lemma migrateFacts_fresh stamp facts s :
  freshStamps stamp (length facts) s ->
  exists s', migrateFacts stamp 0 facts s = (s', true) /\
             length s' = (length s + length facts)%nat.
Proof.
  intros [Hn Hd]. rewrite migrateFacts_addAll.
  pose proof (addAll_fresh stamp 0 (map legacyToNew facts) s) as Ht.
  rewrite length_map in Ht. specialize (Ht Hn Hd).
  destruct (addAll stamp 0 (map legacyToNew facts) s) as [s' b] eqn:E.
  simpl in Ht. subst b. exists s'. split; [reflexivity|].
  destruct (addAll_spec _ _ _ _ _ E) as [_ [_ [_ P4]]].
  now rewrite length_map in P4.
Qed.

Lemma migrateFromLocalStorage_behaviour_witness :
  let p' := migrateFromLocalStorage summaryStamp relationStampOf
              beforeMigration in
  p_saved p' = None /\
  (forall i fact, nth_error legacyFacts i = Some fact ->
     exists m,
       store_get (fst (summaryStamp i)) (p_facts p') = Some m /\
       mf_id m = fst (summaryStamp i) /\
       mf_timestamp m = snd (summaryStamp i) /\
       mf_fact m = lf_fact fact /\
       mf_category m = lf_category fact /\
       match lf_type fact with
       | None =>
           mf_type m = short_term /\
           mf_importance m = Some (5 # 10) /\
           mf_source m = Some system
       | Some type =>
           mf_type m = type /\
           mf_importance m = lf_importance fact /\
           mf_source m = lf_source fact
       end) /\
  (forall i relation, nth_error legacyRelations i = Some relation ->
     exists r,
       ObjectStore.get rel_id (fst (relationStampOf i)) (p_relations p')
       = Some r /\
       rel_id r = fst (relationStampOf i) /\
       rel_timestamp r = snd (relationStampOf i) /\
       rel_source r = rel_source relation /\
       rel_predicate r = rel_predicate relation /\
       rel_target r = rel_target relation).
Proof.
  apply (proj2 (proj2 (proj2 (proj2
           (proj2 (proj2 (proj2
              (migrateFromLocalStorage_behaviour summaryStamp
                 relationStampOf beforeMigration))) legacyData
              eq_refl))))).
  - split.
    + intros i Hi. simpl in Hi.
      do 2 (destruct i as [|i]; [reflexivity|]). lia.
    + intros i j Hij. simpl in Hij.
      do 2 (destruct i as [|i];
            [do 2 (destruct j as [|j]; [try lia; discriminate|]); lia|]).
      lia.
  - split.
    + intros i Hi. simpl in Hi. destruct i as [|i]; [reflexivity | lia].
    + intros i j Hij. simpl in Hij. lia.
Defined.

(** X13. The migration is not atomic.  When the old facts were added
    and the add of the first old relation is rejected, the old data stay
    in [localStorage] with the facts already in the store; the next
    migration adds every old fact a second time. *)
Theorem migrateFromLocalStorage_retry
    factStamp relationStamp factStamp2 relationStamp2 p oldData
    relation rest :
  p_saved p = Some (Parsed oldData) ->
  ld_relations oldData = Some (relation :: rest) ->
  freshStamps factStamp (length (orElse (ld_facts oldData) [])) (p_facts p) ->
  ObjectStore.get rel_id (fst (relationStamp 0%nat)) (p_relations p) <> None ->
  let facts := orElse (ld_facts oldData) [] in
  let p' := migrateFromLocalStorage factStamp relationStamp p in
  p_saved p' = Some (Parsed oldData) /\
  p_relations p' = p_relations p /\
  length (p_facts p') = (length (p_facts p) + length facts)%nat /\
  (freshStamps factStamp2 (length facts) (p_facts p') ->
   length (p_facts (migrateFromLocalStorage factStamp2 relationStamp2 p'))
   = (length (p_facts p) + 2 * length facts)%nat).
Proof.
  intros Sv Hr Hf Hrel facts p'.
  destruct (migrateFacts_fresh factStamp facts (p_facts p) Hf)
    as [s1 [E1 L1]].
  assert (Ep : p' = mkPersisted (Some (Parsed oldData)) s1 (p_relations p)).
  { subst p'. unfold migrateFromLocalStorage. rewrite Sv.
    fold facts. rewrite E1, Hr. simpl.
    unfold addRelation, ObjectStore.add. simpl.
    destruct (ObjectStore.get rel_id (fst (relationStamp 0%nat))
                (p_relations p)); [reflexivity | congruence]. }
  rewrite Ep. simpl.
  split; [reflexivity|]. split; [reflexivity|]. split; [exact L1|].
  intros Hf2.
  destruct (migrateFacts_fresh factStamp2 facts s1 Hf2) as [s2 [E2 L2]].
  unfold migrateFromLocalStorage. simpl. fold facts. rewrite E2.
  destruct (migrateRelations relationStamp2 0
              (orElse (ld_relations oldData) []) (p_relations p))
    as [r' [|]]; simpl; lia.
Qed.

Lemma migrateFromLocalStorage_retry_witness :
  let facts := legacyFacts in
  let p' := migrateFromLocalStorage summaryStamp relationStampOf
              clashingMigration in
  p_saved p' = Some (Parsed legacyData) /\
  p_relations p' = p_relations clashingMigration /\
  length (p_facts p')
  = (length (p_facts clashingMigration) + length facts)%nat /\
  (freshStamps (fun i => summaryStamp (i + 2)) (length facts) (p_facts p') ->
   length (p_facts (migrateFromLocalStorage
                      (fun i => summaryStamp (i + 2)) relationStampOf p'))
   = (length (p_facts clashingMigration) + 2 * length facts)%nat).
Proof.
  apply (migrateFromLocalStorage_retry summaryStamp relationStampOf
           (fun i => summaryStamp (i + 2)) relationStampOf
           clashingMigration legacyData
           (mkRelation "oldrel-1" (js "fan") (js "likes") (js "takoyaki") 30)
           []).
  - reflexivity.
  - reflexivity.
  - split.
    + intros i Hi. simpl in Hi.
      do 2 (destruct i as [|i]; [reflexivity|]). lia.
    + intros i j Hij. simpl in Hij.
      do 2 (destruct i as [|i];
            [do 2 (destruct j as [|j]; [try lia; discriminate|]); lia|]).
      lia.
  - discriminate.
Defined.

(** ** Recording a conversation *)

(** X14. [shouldRecordMemory] answers true on every even round
    whatever the random number, and on an odd round exactly when the random
    number is above 0.5; so of two rounds in a row at least one is
    recorded. *)
Theorem shouldRecordMemory_every_other rounds random random' :
  (shouldRecordMemory rounds random = true <->
   Z.even rounds = true \/ (5 # 10 < random)%Q) /\
  (shouldRecordMemory rounds random = true \/
   shouldRecordMemory (rounds + 1) random' = true).
Proof.
  assert (Hrem : forall n, (Z.rem n 2 =? 0)%Z = Z.even n).
  { intros n. apply eq_iff_eq_true. rewrite Z.eqb_eq, Z.even_spec.
    split.
    - intros H. exists (Z.quot n 2).
      pose proof (Z.quot_rem' n 2). lia.
    - intros [k ->]. rewrite Z.mul_comm. apply Z.rem_mul. lia. }
  assert (Hq : forall q, negb (Qle_bool q (5 # 10)) = true <-> (5 # 10 < q)%Q).
  { intros q. rewrite negb_true_iff. split.
    - intros H. apply Qnot_le_lt. intros Hle.
      apply Qle_bool_iff in Hle. congruence.
    - intros H. destruct (Qle_bool q (5 # 10)) eqn:E; [|reflexivity].
      apply Qle_bool_iff in E. exfalso. now apply (Qlt_not_le _ _ H). }
  unfold shouldRecordMemory. rewrite !Hrem. split.
  - rewrite orb_true_iff, Hq. tauto.
  - rewrite Z.even_add. simpl (Z.even 1).
    destruct (Z.even rounds); simpl; auto.
Qed.

Lemma isDuplicateMemory_same_text fact s m :
  In m s -> mf_fact m = fact -> isDuplicateMemory fact s = true.
Proof.
  intros Hin Hf. apply isDuplicateMemory_iff. exists m.
  split; [assumption|]. now left.
Qed.

Lemma recordConversationMemory_cases reply stamp s :
  recordConversationMemory reply stamp s = s \/
  exists result fact,
    reply = OracleReturns (Some result) /\
    factOf result = Some fact /\
    isDuplicateMemory fact s = false /\
    store_get (fst stamp) s = None /\
    recordConversationMemory reply stamp s
    = ObjectStore.insert mf_id
        (stampFact stamp
           {| nf_fact := fact;
              nf_category := orElse (cd_category result) shared_event;
              nf_originalEventDate := None;
              nf_type := short_term;
              nf_importance :=
                Some (importanceOr (cd_importance result) (6 # 10));
              nf_source := Some conversation |}) s.
Proof.
  unfold recordConversationMemory.
  destruct reply as [|[result|]]; auto.
  destruct (factOf result) as [fact|] eqn:Ef; auto.
  destruct (isDuplicateMemory fact s) eqn:Ed; auto.
  match goal with
  | |- context [addMemoryFact ?a ?b s] =>
      destruct (addMemoryFact a b s) as [[s' m]|] eqn:E
  end; auto.
  right. exists result, fact.
  pose proof (addMemoryFact_Some _ _ _ _ _ E) as [Hn _].
  rewrite (addMemoryFact_fresh stamp _ s Hn) in E.
  injection E as <- _. auto.
Qed.

(** X15. [recordConversationMemory] leaves the store as it is
    or adds one short-term fact of source [conversation] with the
    candidate's text; it leaves the store as it is when some fact has that
    text already; so once a reply has been recorded, recording the same
    reply again, under any id, changes nothing. *)
Theorem recordConversationMemory_once reply stamp stamp' s :
  let s1 := recordConversationMemory reply stamp s in
  (s1 = s \/
   exists m, Permutation s1 (m :: s) /\ mf_type m = short_term /\
             mf_source m = Some conversation /\ mf_id m = fst stamp /\
             exists result, reply = OracleReturns (Some result) /\
                            factOf result = Some (mf_fact m)) /\
  (forall result fact m,
      reply = OracleReturns (Some result) -> factOf result = Some fact ->
      In m s -> mf_fact m = fact -> s1 = s) /\
  (s1 <> s -> recordConversationMemory reply stamp' s1 = s1).
Proof.
  intros s1. subst s1.
  destruct (recordConversationMemory_cases reply stamp s)
    as [E | [result [fact [Hr [Hf [Hd [Hn E]]]]]]].
  - rewrite E. split; [now left|]. split; [auto | congruence].
  - split; [|split].
    + right. eexists. rewrite E. split; [apply insert_perm|].
      simpl. repeat split. exists result. auto.
    + intros result' fact' m Hr' Hf' Hin Hm. exfalso.
      rewrite Hr in Hr'. injection Hr' as <-.
      rewrite Hf in Hf'. injection Hf' as <-.
      rewrite (isDuplicateMemory_same_text fact s m Hin Hm) in Hd.
      discriminate.
    + intros _. rewrite E. unfold recordConversationMemory at 1.
      rewrite Hr, Hf.
      match goal with
      | |- context [ObjectStore.insert mf_id ?x s] =>
          rewrite (isDuplicateMemory_same_text fact
                     (ObjectStore.insert mf_id x s) x)
      end; [reflexivity | | reflexivity].
      apply (Permutation_in _ (Permutation_sym (insert_perm mf_id _ s))).
      now left.
Qed.

Lemma recordConversationMemory_once_witness :
  recordConversationMemory
    (OracleReturns (Some (sampleCandidate text_dislikes_vegetables)))
    ("fact-3"%string, 3000%Z)
    (recordConversationMemory
       (OracleReturns (Some (sampleCandidate text_dislikes_vegetables)))
       ("fact-2"%string, 2000%Z) corianderStore)
  = recordConversationMemory
      (OracleReturns (Some (sampleCandidate text_dislikes_vegetables)))
      ("fact-2"%string, 2000%Z) corianderStore.
Proof.
  apply (proj2 (proj2
           (recordConversationMemory_once
              (OracleReturns (Some (sampleCandidate text_dislikes_vegetables)))
              ("fact-2"%string, 2000%Z) ("fact-3"%string, 3000%Z)
              corianderStore))).
  discriminate.
Defined.

Lemma nearDuplicate_sym a b : nearDuplicate a b -> nearDuplicate b a.
Proof.
  unfold nearDuplicate. intros [E | [[S | S] L]].
  - now left.
  - right. split; [now right | lia].
  - right. split; [now left | lia].
Qed.

Lemma duplicateFree_insert x s :
  duplicateFree s ->
  (forall m, In m s -> ~ nearDuplicate (mf_fact x) (mf_fact m)) ->
  duplicateFree (ObjectStore.insert mf_id x s).
Proof.
  unfold duplicateFree. intros Hs Hx.
  induction s as [|y r IH]; simpl.
  - constructor; constructor.
  - inversion Hs as [|? ? Hy Hr]; subst.
    destruct (String.ltb (mf_id x) (mf_id y)).
    + constructor; [|assumption].
      rewrite Forall_forall. intros m Hm. intros D. now apply (Hx m).
    + constructor.
      * eapply Permutation_Forall;
          [symmetry; apply (insert_perm mf_id x r)|].
        constructor; [|assumption].
        intros D. apply (Hx y); [now left|]. now apply nearDuplicate_sym.
      * apply IH; [assumption|]. intros m Hm. apply Hx. now right.
Qed.

(** X16. [recordConversationMemory] keeps the store free of
    duplicates: when no two facts are duplicates of one another before the
    call (equal texts, or one text in the other with lengths at most 3
    apart), none are afterwards. *)
Theorem recordConversationMemory_duplicateFree reply stamp s :
  duplicateFree s ->
  duplicateFree (recordConversationMemory reply stamp s).
Proof.
  intros Hs.
  destruct (recordConversationMemory_cases reply stamp s)
    as [E | [result [fact [Hr [Hf [Hd [Hn E]]]]]]]; rewrite E;
    [assumption|].
  apply duplicateFree_insert; [assumption|].
  intros m Hm D. simpl in D.
  assert (isDuplicateMemory fact s = true); [|congruence].
  apply isDuplicateMemory_iff. exists m. auto.
Qed.

Lemma recordConversationMemory_duplicateFree_witness :
  duplicateFree
    (recordConversationMemory
       (OracleReturns (Some (sampleCandidate text_dislikes_vegetables)))
       ("fact-2"%string, 2000%Z) corianderStore).
Proof.
  apply (recordConversationMemory_duplicateFree
           (OracleReturns (Some (sampleCandidate text_dislikes_vegetables)))
           ("fact-2"%string, 2000%Z) corianderStore).
  unfold duplicateFree, corianderStore. constructor; constructor.
Defined.

(** ** Pairing the messages of a history *)

Lemma findAssistant_spec messages n :
  forall start j text,
    findAssistant messages start n = Some (j, text) ->
    (start <= j < start + n)%nat /\
    (exists ma, nth_error messages j = Some ma /\ isReply ma = true /\
                msg_content ma = text) /\
    (forall k mk, (start <= k < j)%nat -> nth_error messages k = Some mk ->
                  isReply mk = false).
Proof.
  induction n as [|n IH]; intros start j text; simpl; [discriminate|].
  destruct (nth_error messages start) as [nextMsg|] eqn:E; [|discriminate].
  assert (Hrec : findAssistant messages (S start) n = Some (j, text) ->
                 isReply nextMsg = false ->
                 (start <= j < start + S n)%nat /\
                 (exists ma, nth_error messages j = Some ma /\
                             isReply ma = true /\ msg_content ma = text) /\
                 (forall k mk, (start <= k < j)%nat ->
                               nth_error messages k = Some mk ->
                               isReply mk = false)).
  { intros H Hno. destruct (IH _ _ _ H) as [Hj [Hma Hbefore]].
    split; [lia|]. split; [assumption|].
    intros k mk Hk Hmk.
    destruct (Nat.eq_dec k start) as [-> | Hne].
    - congruence.
    - apply (Hbefore k mk); [lia | assumption]. }
  unfold isReply in Hrec.
  destruct (msg_role nextMsg) eqn:R.
  - intros H. now apply Hrec.
  - destruct (truthy (msg_content nextMsg)
              && negb (truthy (orElse (msg_imageUrl nextMsg) []))) eqn:C.
    + intros [= <- <-]. split; [lia|]. split.
      * exists nextMsg. unfold isReply. now rewrite R, C.
      * intros k mk Hk. lia.
    + intros H. now apply Hrec.
Qed.

Lemma pairLoop_sound messages fuel :
  forall i u a,
    In (u, a) (pairLoop fuel messages i) ->
    exists iu ia mu ma,
      (i <= iu < ia)%nat /\
      nth_error messages iu = Some mu /\ isQuestion mu = true /\
      msg_content mu = u /\
      nth_error messages ia = Some ma /\ isReply ma = true /\
      msg_content ma = a /\
      forall k mk, (iu < k < ia)%nat -> nth_error messages k = Some mk ->
                   isReply mk = false.
Proof.
  induction fuel as [|fuel IH]; intros i u a; simpl; [tauto|].
  destruct (nth_error messages i) as [msg|] eqn:E; [|simpl; tauto].
  assert (Hnext : forall i', (i < i')%nat ->
            In (u, a) (pairLoop fuel messages i') ->
            exists iu ia mu ma,
              (i <= iu < ia)%nat /\
              nth_error messages iu = Some mu /\ isQuestion mu = true /\
              msg_content mu = u /\
              nth_error messages ia = Some ma /\ isReply ma = true /\
              msg_content ma = a /\
              forall k mk, (iu < k < ia)%nat ->
                           nth_error messages k = Some mk ->
                           isReply mk = false).
  { intros i' Hi' H. destruct (IH _ _ _ H)
      as [iu [ia [mu [ma [Hr Hrest]]]]].
    exists iu, ia, mu, ma. split; [lia | exact Hrest]. }
  destruct (msg_role msg) eqn:R; [|apply Hnext; lia].
  destruct (truthy (msg_content msg)) eqn:C; [|apply Hnext; lia].
  destruct (findAssistant messages (S i) (length messages - S i))
    as [[j text]|] eqn:F; [|apply Hnext; lia].
  destruct (findAssistant_spec _ _ _ _ _ F) as [Hj [[ma [Hma [Hr Ht]]] Hb]].
  intros [[= <- <-] | H].
  - exists i, j, msg, ma. split; [lia|].
    split; [assumption|]. split; [unfold isQuestion; now rewrite R|].
    split; [reflexivity|]. split; [assumption|]. split; [assumption|].
    split; [assumption|].
    intros k mk Hk. apply Hb. lia.
  - apply (Hnext (S (j + 1))); [lia | assumption].
Qed.

Lemma pairLoop_count messages fuel :
  forall i, (2 * length (pairLoop fuel messages i) <= length messages - i)%nat.
Proof.
  induction fuel as [|fuel IH]; intros i; simpl; [lia|].
  destruct (nth_error messages i) as [msg|] eqn:E; [|simpl; lia].
  assert (Hlt : (i < length messages)%nat)
    by (apply nth_error_Some; congruence).
  assert (Hnext : (2 * length (pairLoop fuel messages (S i))
                   <= length messages - i)%nat)
    by (specialize (IH (S i)); lia).
  destruct (msg_role msg); [|exact Hnext].
  destruct (truthy (msg_content msg)); [|exact Hnext].
  destruct (findAssistant messages (S i) (length messages - S i))
    as [[j text]|] eqn:F; [|exact Hnext].
  destruct (findAssistant_spec _ _ _ _ _ F) as [Hj _].
  specialize (IH (S (j + 1))). simpl. lia.
Qed.

(** X17. Every pair that [extractMemoriesFromHistory] builds is the
    text of a user message and the text of the first assistant message
    after it that has text and no image; and the pairs are at most half as
    many as the messages. *)
Theorem conversationPairs_sound messages :
  (forall u a,
      In (u, a) (conversationPairsOf messages) ->
      exists iu ia mu ma,
        (iu < ia)%nat /\
        nth_error messages iu = Some mu /\ isQuestion mu = true /\
        msg_content mu = u /\
        nth_error messages ia = Some ma /\ isReply ma = true /\
        msg_content ma = a /\
        forall k mk, (iu < k < ia)%nat -> nth_error messages k = Some mk ->
                     isReply mk = false) /\
  (2 * length (conversationPairsOf messages) <= length messages)%nat.
Proof.
  unfold conversationPairsOf. split.
  - intros u a H.
    destruct (pairLoop_sound _ _ _ _ _ H)
      as [iu [ia [mu [ma [Hr Hrest]]]]].
    exists iu, ia, mu, ma. split; [lia | exact Hrest].
  - pose proof (pairLoop_count messages (length messages) 0). lia.
Qed.

Lemma nth_error_after {A} (pre l : list A) k :
  nth_error (pre ++ l) (length pre + k) = nth_error l k.
Proof.
  rewrite nth_error_app2 by lia. f_equal. lia.
Qed.

Lemma pairLoop_alternating n :
  forall exchanges msgs pre fuel,
    (length exchanges <= n)%nat ->
    alternating msgs exchanges ->
    (length msgs <= fuel)%nat ->
    pairLoop fuel (pre ++ msgs) (length pre) = everyOther exchanges.
Proof.
  induction n as [n IH] using lt_wf_ind.
  intros exchanges msgs pre fuel Hn Halt Hfuel.
  destruct Halt as [|mu ma rest exchanges Hq Hr Halt].
  - destruct fuel; simpl; [reflexivity|].
    rewrite <- (Nat.add_0_r (length pre)), nth_error_after. reflexivity.
  - simpl in Hfuel, Hn. destruct fuel as [|fuel]; [lia|].
    cbn [pairLoop].
    rewrite <- (Nat.add_0_r (length pre)) at 1. rewrite nth_error_after.
    cbn [nth_error].
    unfold isQuestion in Hq. destruct (msg_role mu) eqn:Ru; [|discriminate].
    rewrite Hq.
    assert (F : findAssistant (pre ++ mu :: ma :: rest) (S (length pre))
                  (length (pre ++ mu :: ma :: rest) - S (length pre))
                = Some (S (length pre), msg_content ma)).
    { assert (N1 : nth_error (pre ++ mu :: ma :: rest) (S (length pre))
                   = Some ma).
      { replace (S (length pre)) with (length pre + 1)%nat by lia.
        rewrite nth_error_after. reflexivity. }
      replace (length (pre ++ mu :: ma :: rest) - S (length pre))%nat
        with (S (length rest))
        by (rewrite length_app; cbn [length]; lia).
      cbn [findAssistant]. rewrite N1.
      unfold isReply in Hr. destruct (msg_role ma); [discriminate|].
      now rewrite Hr. }
    rewrite F. clear F.
    destruct Halt as [|mu2 ma2 rest2 exchanges2 Hq2 Hr2 Halt2].
    + cbn [everyOther]. f_equal.
      destruct fuel; [reflexivity|]. cbn [pairLoop].
      replace (S (S (length pre) + 1)) with (length pre + 3)%nat by lia.
      rewrite nth_error_after. reflexivity.
    + cbn [everyOther]. f_equal.
      simpl in Hfuel, Hn. destruct fuel as [|fuel]; [lia|].
      cbn [pairLoop].
      replace (S (S (length pre) + 1)) with (length pre + 3)%nat by lia.
      rewrite nth_error_after. cbn [nth_error].
      unfold isReply in Hr2.
      destruct (msg_role ma2) eqn:Ra2; [discriminate|].
      replace (pre ++ mu :: ma :: mu2 :: ma2 :: rest2)
        with ((pre ++ [mu; ma; mu2; ma2]) ++ rest2)
        by (rewrite <- app_assoc; reflexivity).
      replace (S (length pre + 3)) with (length (pre ++ [mu; ma; mu2; ma2]))
        by (rewrite length_app; simpl; lia).
      apply (IH (length exchanges2)); try lia. assumption.
Qed.

(** X18. In a dialogue in which user messages with text and
    assistant messages with text and without image take turns, the pairing
    keeps the first, the third, the fifth, ... exchange only: after a pair
    the loop steps over the message that follows the assistant's reply. *)
Theorem conversationPairs_alternating messages exchanges :
  alternating messages exchanges ->
  conversationPairsOf messages = everyOther exchanges.
Proof.
  intros H. unfold conversationPairsOf.
  apply (pairLoop_alternating (length exchanges) exchanges messages []
           (length messages)); auto.
Qed.

Lemma conversationPairs_alternating_witness :
  conversationPairsOf twoExchanges = [(js "hello", js "hi!")].
Proof.
  apply (conversationPairs_alternating twoExchanges
           [(js "hello", js "hi!"); (js "I like ramen", js "me too")]).
  repeat (constructor; try reflexivity).
Defined.

Lemma conversationPairs_sound_witness :
  exists iu ia mu ma,
    (iu < ia)%nat /\
    nth_error twoExchanges iu = Some mu /\ isQuestion mu = true /\
    msg_content mu = js "hello" /\
    nth_error twoExchanges ia = Some ma /\ isReply ma = true /\
    msg_content ma = js "hi!" /\
    forall k mk, (iu < k < ia)%nat -> nth_error twoExchanges k = Some mk ->
                 isReply mk = false.
Proof.
  apply (proj1 (conversationPairs_sound twoExchanges)).
  left. reflexivity.
Defined.

(** ** A rejected add while summarising *)

(** X19. [summarizeLongTermMemories] does not undo what it wrote.
    When the ids of the first summaries are fresh and the id of the next
    one is taken, the summaries before it are in the store as long-term
    facts, no other record has changed, and the result reports 0
    summaries. *)
Theorem summarizeLongTermMemories_partial
    stamp done summary rest longTermMemories s :
  (8 <= length longTermMemories)%nat ->
  freshStamps stamp (length done) s ->
  store_get (fst (stamp (length done))) s <> None ->
  let out :=
    summarizeLongTermMemories
      (OracleReturns (Some (done ++ summary :: rest))) stamp
      longTermMemories s in
  snd out = mkSummarizeResult 0 [] /\
  length (fst out) = (length s + length done)%nat /\
  extends s (fst out) /\
  forall i, (i < length done)%nat ->
            store_get (fst (stamp i)) (fst out)
            = Some (summaryRecord (stamp i) (nth i done [])).
Proof.
  intros L8 [Hn Hd] Htaken out.
  pose proof (addAll_fresh stamp 0 (map summaryFact done) s) as Ht.
  rewrite length_map in Ht. specialize (Ht Hn Hd).
  destruct (addAll stamp 0 (map summaryFact done) s) as [s' b] eqn:E.
  simpl in Ht. subst b.
  destruct (addAll_spec _ _ _ _ _ E) as [_ [P2 [P3 P4]]].
  rewrite length_map in P2, P3, P4. simpl in P2, P3.
  assert (Hstop : addSummaries stamp 0 (done ++ summary :: rest) s
                  = (s', false)).
  { rewrite addSummaries_addAll, map_app. simpl.
    apply addAll_stops; [assumption|].
    rewrite length_map. simpl.
    destruct (P3 (fst (stamp (length done)))) as [Eq | [i [Hi Eq]]].
    - now rewrite Eq.
    - rewrite Eq, (P2 i Hi). discriminate. }
  assert (Eo : out = (s', mkSummarizeResult 0 [])).
  { subst out. unfold summarizeLongTermMemories.
    apply Nat.ltb_ge in L8. rewrite L8. simpl. now rewrite Hstop. }
  rewrite Eo. simpl.
  split; [reflexivity|]. split; [exact P4|]. split.
  - pose proof (addAll_extends stamp 0 (map summaryFact done) s) as Hx.
    now rewrite E in Hx.
  - intros i Hi. rewrite (P2 i Hi). f_equal.
    rewrite (nth_indep _ noFact (summaryFact [])) by now rewrite length_map.
    now rewrite (map_nth summaryFact).
Qed.

Lemma summarizeLongTermMemories_partial_witness :
  let out :=
    summarizeLongTermMemories
      (OracleReturns (Some ([js "likes running"]
                            ++ js "dislikes coriander" :: [])))
      (fun i => match i with O => summaryStamp 0 | _ => ("fact-1"%string, 0%Z) end)
      eightLongTerm eightLongTerm in
  snd out = mkSummarizeResult 0 [] /\
  length (fst out) = (length eightLongTerm + 1)%nat /\
  extends eightLongTerm (fst out) /\
  forall i, (i < 1)%nat ->
            store_get
              (fst (match i with
                    | O => summaryStamp 0
                    | _ => ("fact-1"%string, 0%Z)
                    end)) (fst out)
            = Some (summaryRecord
                      (match i with
                       | O => summaryStamp 0
                       | _ => ("fact-1"%string, 0%Z)
                       end) (nth i [js "likes running"] [])).
Proof.
  apply (summarizeLongTermMemories_partial
           (fun i => match i with
                     | O => summaryStamp 0
                     | _ => ("fact-1"%string, 0%Z)
                     end)
           [js "likes running"] (js "dislikes coriander") []
           eightLongTerm eightLongTerm).
  - simpl. lia.
  - split.
    + intros i Hi. simpl in Hi. destruct i; [reflexivity | lia].
    + intros i j Hij. simpl in Hij. lia.
  - discriminate.
Defined.

(** ** The hash of a bigram *)

Lemma toInt32_wrap z : exists q, toInt32 z = (z + q * 2 ^ 32)%Z.
Proof.
  unfold toInt32. exists (- ((z + 2 ^ 31) / 2 ^ 32))%Z.
  pose proof (Z.div_mod (z + 2 ^ 31) (2 ^ 32)). lia.
Qed.

Lemma toInt32_shift a q : toInt32 (a + q * 2 ^ 32) = toInt32 a.
Proof.
  unfold toInt32.
  replace (a + q * 2 ^ 32 + 2 ^ 31)%Z with (a + 2 ^ 31 + q * 2 ^ 32)%Z by lia.
  now rewrite Z.mod_add by lia.
Qed.

Lemma toInt32_range z : (- 2 ^ 31 <= toInt32 z < 2 ^ 31)%Z.
Proof.
  unfold toInt32. pose proof (Z.mod_pos_bound (z + 2 ^ 31) (2 ^ 32)). lia.
Qed.

Lemma toInt32_small z : (- 2 ^ 31 <= z < 2 ^ 31)%Z -> toInt32 z = z.
Proof.
  intros H. unfold toInt32. rewrite Z.mod_small; lia.
Qed.

Lemma hashStep_poly hash char :
  hashStep hash char = toInt32 (31 * hash + Z.of_N char).
Proof.
  unfold hashStep. rewrite Z.land_diag, Z.shiftl_mul_pow2 by lia.
  destruct (toInt32_wrap hash) as [q Hq].
  destruct (toInt32_wrap (toInt32 hash * 2 ^ 5)) as [q' Hq'].
  rewrite Hq', Hq.
  replace ((hash + q * 2 ^ 32) * 2 ^ 5 + q' * 2 ^ 32 - hash + Z.of_N char)%Z
    with (31 * hash + Z.of_N char + (q * 2 ^ 5 + q') * 2 ^ 32)%Z by lia.
  apply toInt32_shift.
Qed.

Lemma hashStep_toInt32 a c :
  hashStep (toInt32 a) c = toInt32 (31 * a + Z.of_N c).
Proof.
  rewrite hashStep_poly.
  destruct (toInt32_wrap a) as [q Hq]. rewrite Hq.
  replace (31 * (a + q * 2 ^ 32) + Z.of_N c)%Z
    with (31 * a + Z.of_N c + (31 * q) * 2 ^ 32)%Z by lia.
  apply toInt32_shift.
Qed.

Lemma fold_left_cons {A B : Type} (f : A -> B -> A) x l a :
  fold_left f (x :: l) a = fold_left f l (f a x).
Proof. reflexivity. Qed.

Lemma fold_hashStep str : forall a,
  fold_left hashStep str (toInt32 a)
  = toInt32 (fold_left (fun h c => (31 * h + Z.of_N c)%Z) str a).
Proof.
  induction str as [|c str IH]; intros a.
  - reflexivity.
  - rewrite !fold_left_cons, hashStep_toInt32. apply IH.
Qed.

Lemma hashString_index str :
  (Z.to_nat (Z.rem (hashString str) 256) < 256)%nat.
Proof.
  assert (H : (0 <= Z.rem (hashString str) 256 < 256)%Z).
  { apply Z.rem_bound_pos; [|lia]. unfold hashString. apply Z.abs_nonneg. }
  apply Nat2Z.inj_lt. rewrite Z2Nat.id by apply H.
  change (Z.of_nat 256) with 256%Z. apply H.
Qed.

(** X20. [hashString] is the absolute value of the polynomial hash
    [c0 * 31^(n-1) + ... + c(n-1)] wrapped to a signed 32-bit integer: it
    lies between 0 and 2^31, [hash % 256] is an index of the 256
    components, and when the polynomial is below 2^31, as for every bigram
    of UTF-16 code units, the hash is the polynomial itself. *)
Theorem hashString_polynomial str :
  hashString str = Z.abs (toInt32 (poly31 str)) /\
  (0 <= hashString str <= 2 ^ 31)%Z /\
  (Z.to_nat (Z.rem (hashString str) 256) < 256)%nat /\
  ((poly31 str < 2 ^ 31)%Z -> hashString str = poly31 str) /\
  (forall c0 c1, (c0 < 65536)%N -> (c1 < 65536)%N ->
                 hashString [c0; c1] = (31 * Z.of_N c0 + Z.of_N c1)%Z).
Proof.
  assert (E : hashString str = Z.abs (toInt32 (poly31 str))).
  { unfold hashString, poly31. f_equal.
    rewrite <- (toInt32_small 0) at 1 by lia. apply fold_hashStep. }
  assert (Hpos : forall s a, (0 <= a)%Z ->
            (0 <= fold_left (fun h c => (31 * h + Z.of_N c)%Z) s a)%Z).
  { intros s. induction s as [|c s IH]; intros a Ha; cbn [fold_left];
      [assumption|].
    apply IH. lia. }
  pose proof (toInt32_range (poly31 str)) as R.
  assert (H4 : forall t, (poly31 t < 2 ^ 31)%Z ->
             Z.abs (toInt32 (poly31 t)) = poly31 t).
  { intros t Hlt. pose proof (Hpos t 0%Z (Z.le_refl 0)) as Hp.
    fold (poly31 t) in Hp.
    rewrite toInt32_small by lia. now apply Z.abs_eq. }
  split; [exact E|]. split; [rewrite E; lia|].
  split; [apply hashString_index|]. split.
  - intros Hlt. rewrite E. now apply H4.
  - intros c0 c1 H0 H1.
    assert (P : poly31 [c0; c1] = (31 * Z.of_N c0 + Z.of_N c1)%Z).
    { unfold poly31. cbn [fold_left]. lia. }
    assert (E2 : hashString [c0; c1] = Z.abs (toInt32 (poly31 [c0; c1]))).
    { unfold hashString, poly31. f_equal.
      rewrite <- (toInt32_small 0) at 1 by lia. apply fold_hashStep. }
    rewrite E2, H4; [exact P|]. rewrite P. lia.
Qed.

Lemma hashString_polynomial_witness :
  hashString (js "ha") = poly31 (js "ha").
Proof.
  apply (proj1 (proj2 (proj2 (proj2 (hashString_polynomial (js "ha")))))).
  vm_compute. reflexivity.
Defined.

(** ** The bigram counts *)

Lemma sumZ_addAt i c v :
  (i < length v)%nat -> sumZ (addAt i c v) = (sumZ v + c)%Z.
Proof.
  revert i. induction v as [|x v IH]; intros [|i] H; simpl in *; try lia.
  rewrite IH by lia. lia.
Qed.

Lemma nonneg_addAt i c v :
  (0 <= c)%Z -> Forall (fun x => (0 <= x)%Z) v ->
  Forall (fun x => (0 <= x)%Z) (addAt i c v).
Proof.
  intros Hc. revert i. induction v as [|x v IH]; intros [|i] H; simpl;
    inversion H; subst; constructor; auto; lia.
Qed.

Lemma foldFeatures_total features :
  Forall (fun e => (0 <= snd e)%Z) features ->
  sumZ (foldFeatures features) = totalOf features /\
  Forall (fun x => (0 <= x)%Z) (foldFeatures features).
Proof.
  unfold foldFeatures, totalOf.
  assert (G : forall v,
            length v = 256%nat -> Forall (fun x => (0 <= x)%Z) v ->
            Forall (fun e => (0 <= snd e)%Z) features ->
            let out :=
              fold_left
                (fun vector entry =>
                   addAt (Z.to_nat (Z.rem (hashString (fst entry)) 256))
                         (snd entry) vector) features v in
            sumZ out = (sumZ v + sumZ (map snd features))%Z /\
            Forall (fun x => (0 <= x)%Z) out).
  { induction features as [|e features IH]; intros v Hl Hv Hf; simpl.
    - split; [lia | assumption].
    - inversion Hf as [|? ? He Hf']; subst.
      destruct (IH (addAt (Z.to_nat (Z.rem (hashString (fst e)) 256))
                          (snd e) v)) as [Hs Hn].
      + now rewrite length_addAt.
      + now apply nonneg_addAt.
      + assumption.
      + split; [|exact Hn]. rewrite Hs, sumZ_addAt; [lia|].
        rewrite Hl. apply hashString_index. }
  intros Hf.
  assert (Hz : Forall (fun x => (0 <= x)%Z) (repeat 0%Z 256)).
  { apply Forall_forall. intros x Hx. apply repeat_spec in Hx. lia. }
  destruct (G (repeat 0%Z 256) (repeat_length _ _) Hz Hf) as [Hs Hn].
  split; [|exact Hn]. rewrite Hs.
  assert (Z0 : sumZ (repeat 0%Z 256) = 0%Z) by reflexivity. lia.
Qed.

Lemma features_set_total gram m :
  Forall (fun e => (0 <= snd e)%Z) m ->
  let m' := features_set gram (orElse (features_get gram m) 0 + 1)%Z m in
  totalOf m' = (totalOf m + 1)%Z /\ Forall (fun e => (0 <= snd e)%Z) m'.
Proof.
  unfold totalOf, sumZ. induction m as [|[g c] r IH]; intros Hm; cbn.
  - split; [reflexivity|]. constructor; [cbn; lia | constructor].
  - inversion Hm as [|? ? Hc Hr]; subst. cbn in Hc.
    destruct (str_eqb g gram); cbn.
    + split; [lia|]. constructor; [cbn; lia | assumption].
    + destruct (IH Hr) as [Ht Hf]. cbn in Ht, Hf. split; [lia|].
      constructor; [cbn; lia | assumption].
Qed.

Section CountFacts.
Variable toLowerCase : jsstring -> jsstring.

Lemma countFeatures_total text :
  totalOf (countFeatures toLowerCase text) = Z.of_nat (length text - 1) /\
  Forall (fun e => (0 <= snd e)%Z) (countFeatures toLowerCase text).
Proof.
  unfold countFeatures.
  replace (length text - 1)%nat with (length (seq 0 (S (length text) - 2)))
    by (rewrite length_seq; lia).
  generalize (seq 0 (S (length text) - 2)). intros positions.
  assert (G : forall m,
            Forall (fun e => (0 <= snd e)%Z) m ->
            let out :=
              fold_left
                (fun features i =>
                   let gram := substring (toLowerCase text) i (i + 2) in
                   features_set gram
                     (orElse (features_get gram features) 0 + 1)%Z features)
                positions m in
            totalOf out = (totalOf m + Z.of_nat (length positions))%Z /\
            Forall (fun e => (0 <= snd e)%Z) out).
  { induction positions as [|i positions IH]; intros m Hm; cbv zeta.
    - cbn [fold_left length]. split; [cbn; lia | assumption].
    - cbn [fold_left length].
      destruct (features_set_total
                  (substring (toLowerCase text) i (i + 2)) m Hm) as [Ht Hf].
      destruct (IH _ Hf) as [Ht' Hf']. cbv zeta in *.
      split; [|exact Hf']. rewrite Ht', Ht. lia. }
  destruct (G [] (Forall_nil _)) as [Ht Hf]. cbv zeta in *.
  split; [|exact Hf]. rewrite Ht. reflexivity.
Qed.

(** X21. The 256 bigram counts of a text are not negative and add
    up to the number of its bigrams, one less than the number of its code
    units (none for the empty text): the hashing into 256 components can
    merge bigrams, it loses and invents none. *)
Theorem featureVector_counts text :
  length (featureVector toLowerCase text) = 256%nat /\
  Forall (fun x => (0 <= x)%Z) (featureVector toLowerCase text) /\
  sumZ (featureVector toLowerCase text) = Z.of_nat (length text - 1).
Proof.
  destruct (countFeatures_total text) as [Ht Hf].
  destruct (foldFeatures_total _ Hf) as [Hs Hn].
  split; [apply length_foldFeatures|]. split; [exact Hn|].
  unfold featureVector. now rewrite Hs.
Qed.

End CountFacts.

(** ** The best match *)

Lemma scan_best q threshold stickers : forall best,
  let sim x := cosineSimilarity q (sc_embedding x) in
  let out := fold_left (scanStep q threshold) stickers best in
  (snd best <= snd out)%R /\
  (forall x, In x stickers -> (sim x <= snd out)%R \/ (sim x < threshold)%R) /\
  ((fst out = fst best /\ snd out = snd best) \/
   (exists m, fst out = Some m /\ In m stickers /\ snd out = sim m /\
              (threshold <= sim m)%R /\ (snd best < sim m)%R)).
Proof.
  induction stickers as [|x l IH]; intros best; cbv zeta.
  - cbn [fold_left]. split; [lra|]. split; [intros x []|]. now left.
  - cbn [fold_left].
    destruct (IH (scanStep q threshold best x)) as [Hle [Hall Hout]].
    cbv zeta in *.
    set (out := fold_left (scanStep q threshold) l
                          (scanStep q threshold best x)) in *.
    unfold scanStep in Hle, Hout.
    destruct (Rgt_dec (cosineSimilarity q (sc_embedding x)) (snd best))
      as [Hgt | Hgt];
      [destruct (Rge_dec (cosineSimilarity q (sc_embedding x)) threshold)
        as [Hge | Hge]|]; cbn [fst snd] in Hle, Hout.
    + split; [lra|]. split.
      * intros y [<- | Hy]; [left; lra | now apply Hall].
      * right. destruct Hout as [[Hf Hs] | [m [Hf [Hin [Hs [Ht Hb]]]]]].
        -- exists x. rewrite Hf, Hs. repeat split; auto with datatypes; lra.
        -- exists m. repeat split; auto with datatypes; lra.
    + split; [lra|]. split.
      * intros y [<- | Hy]; [right; lra | now apply Hall].
      * destruct Hout as [Hsame | [m [Hf [Hin [Hs [Ht Hb]]]]]];
          [now left | right].
        exists m. repeat split; auto with datatypes.
    + split; [lra|]. split.
      * intros y [<- | Hy]; [left; lra | now apply Hall].
      * destruct Hout as [Hsame | [m [Hf [Hin [Hs [Ht Hb]]]]]];
          [now left | right].
        exists m. repeat split; auto with datatypes.
Qed.

Lemma updateUsageCount_keys id s :
  map sc_id (updateUsageCount id s) = map sc_id s.
Proof.
  unfold updateUsageCount.
  destruct (ObjectStore.get sc_id id s) as [sticker|] eqn:G; [|reflexivity].
  destruct (StoreFacts.get_In sc_id id s sticker G) as [_ Hk].
  unfold ObjectStore.put. cbn [incrementUsage sc_id]. rewrite Hk, G.
  apply keys_replace.
Qed.

Lemma updateUsageCount_uniqueKeys id s :
  ObjectStore.uniqueKeys sc_id s = true ->
  ObjectStore.uniqueKeys sc_id (updateUsageCount id s) = true.
Proof.
  intros Hu.
  rewrite (uniqueKeys_keys sc_id _ s (updateUsageCount_keys id s)).
  exact Hu.
Qed.

Section BestMatch.
Variable toLowerCase : jsstring -> jsstring.

Lemma findSimilarSticker_scan type detail threshold s :
  let q := computeTextEmbedding toLowerCase detail in
  let out :=
    fold_left (scanStep q threshold)
      (filter (fun x => StickerType_eqb (sc_type x) type) s) (None, 0%R) in
  findSimilarSticker toLowerCase type detail threshold s
  = match fst out with
    | Some m => (Some m, updateUsageCount (sc_id m) s)
    | None => (None, s)
    end.
Proof.
  cbv zeta. unfold findSimilarSticker.
  destruct (fold_left _ _ _) as [[m|] b]; reflexivity.
Qed.

Lemma In_of_type type (x : StickerCache) s :
  In x (filter (fun x => StickerType_eqb (sc_type x) type) s)
  <-> In x s /\ sc_type x = type.
Proof.
  rewrite filter_In.
  destruct (sc_type x), type; simpl; intuition congruence.
Qed.

(** X23. A match of [findSimilarSticker] has a similarity above 0 and
    not below the threshold, and no sticker of the requested category has
    a larger one.  There is no match exactly when no sticker of the
    category has a similarity that is above 0 and reaches the threshold;
    the store is then unchanged. *)
Theorem findSimilarSticker_best type detail threshold s :
  let sim x :=
    cosineSimilarity (computeTextEmbedding toLowerCase detail)
                     (sc_embedding x) in
  (forall m s',
      findSimilarSticker toLowerCase type detail threshold s = (Some m, s') ->
      (0 < sim m)%R /\ (threshold <= sim m)%R /\
      forall x, In x s -> sc_type x = type -> (sim x <= sim m)%R) /\
  (forall s',
      findSimilarSticker toLowerCase type detail threshold s = (None, s') ->
      s' = s /\
      forall x, In x s -> sc_type x = type ->
                (sim x <= 0)%R \/ (sim x < threshold)%R) /\
  ((exists x, In x s /\ sc_type x = type /\
              (0 < sim x)%R /\ (threshold <= sim x)%R) ->
   exists m s',
     findSimilarSticker toLowerCase type detail threshold s = (Some m, s')).
Proof.
  cbv zeta. rewrite findSimilarSticker_scan. cbv zeta.
  destruct (scan_best (computeTextEmbedding toLowerCase detail) threshold
              (filter (fun x => StickerType_eqb (sc_type x) type) s)
              (None, 0%R)) as [Hle [Hall Hout]].
  cbv zeta in *. cbn [fst snd] in *.
  destruct (fold_left _ _ _) as [[b|] sb]; cbn [fst snd] in *.
  - destruct Hout as [[Hf _] | [m [Hf [Hin [Hs [Ht Hb]]]]]];
      [discriminate|].
    injection Hf as <-. subst sb.
    split; [|split].
    + intros m s' [= <- <-]. split; [lra|]. split; [lra|].
      intros x Hx Ty.
      destruct (Hall x (proj2 (In_of_type type x s) (conj Hx Ty))); lra.
    + discriminate.
    + intros _. eauto.
  - destruct Hout as [[_ Hs] | [m [Hf _]]]; [|discriminate].
    subst sb. split; [|split].
    + discriminate.
    + intros s' [= <-]. split; [reflexivity|].
      intros x Hx Ty.
      apply (Hall x (proj2 (In_of_type type x s) (conj Hx Ty))).
    + intros [x [Hx [Ty [Hp Ht]]]]. exfalso.
      destruct (Hall x (proj2 (In_of_type type x s) (conj Hx Ty))); lra.
Qed.

(** X24. With unique ids, a match of [findSimilarSticker] is returned
    with the usage count it had, and the store then holds it with that
    count plus one; every other sticker, the ids and their order are as
    before. *)
Theorem findSimilarSticker_counts_one_use type detail threshold s m s' :
  ObjectStore.uniqueKeys sc_id s = true ->
  findSimilarSticker toLowerCase type detail threshold s = (Some m, s') ->
  ObjectStore.get sc_id (sc_id m) s = Some m /\
  (forall id,
      ObjectStore.get sc_id id s'
      = if String.eqb id (sc_id m) then Some (incrementUsage m)
        else ObjectStore.get sc_id id s) /\
  sc_usageCount (incrementUsage m) = (sc_usageCount m + 1)%Z /\
  map sc_id s' = map sc_id s /\
  ObjectStore.uniqueKeys sc_id s' = true.
Proof.
  intros Hu F.
  destruct (findSimilarSticker_match toLowerCase type detail threshold s m s' F)
    as [Hin [_ [_ ->]]].
  pose proof (StoreFacts.uniqueKeys_get sc_id m s Hu Hin) as G.
  split; [exact G|].
  split; [|split; [reflexivity|split]].
  - intros id. unfold updateUsageCount. rewrite G.
    destruct (String.eqb id (sc_id m)) eqn:E.
    + apply String.eqb_eq in E. subst id.
      apply (StoreFacts.get_put_same sc_id (incrementUsage m) s).
    + apply String.eqb_neq in E.
      now apply (StoreFacts.get_put_other sc_id id (incrementUsage m) s).
  - apply updateUsageCount_keys.
  - now apply updateUsageCount_uniqueKeys.
Qed.

Lemma firstImage_some parts image :
  firstImage parts = Some image ->
  exists mimeType data,
    In (Some (mimeType, data)) parts /\
    image = js "data:" ++ mimeType ++ js ";base64," ++ data.
Proof.
  induction parts as [|[[mimeType data]|] parts IH]; simpl; [discriminate| |].
  - intros [= <-]. eauto.
  - intros H. destruct (IH H) as [mt [d [Hin E]]]. eauto.
Qed.

(** X25. [generateSticker] keeps the ids of the cache unique.
    When it returns no image the cache is as before.  On a cache hit it
    returns the cached image whatever the model replied.  Otherwise the
    cache has the same number of stickers, or one more: then the id of the
    stamp was free, the image returned is the data URL of a part of the
    reply, and the new sticker holds it with the final prompt, the
    descriptor, the category and the usage count 1, every other id reading
    as before. *)
Theorem generateSticker_cache type detail reply stamp s result s' :
  ObjectStore.uniqueKeys sc_id s = true ->
  generateSticker toLowerCase type detail reply stamp s = (result, s') ->
  ObjectStore.uniqueKeys sc_id s' = true /\
  (result = None -> s' = s) /\
  (forall cached s1,
      findSimilarSticker toLowerCase type detail (7 / 10)%R s
      = (Some cached, s1) ->
      result = Some (sc_imageData cached) /\ s' = s1) /\
  (length s' = length s \/
   length s' = S (length s) /\
   ObjectStore.get sc_id (fst stamp) s = None /\
   exists image sticker mimeType data parts,
     reply = OracleReturns parts /\
     In (Some (mimeType, data)) parts /\
     image = js "data:" ++ mimeType ++ js ";base64," ++ data /\
     result = Some image /\
     ObjectStore.get sc_id (fst stamp) s' = Some sticker /\
     sc_imageData sticker = image /\
     sc_prompt sticker = finalPromptOf type detail /\
     sc_detail sticker = detail /\
     sc_type sticker = type /\
     sc_usageCount sticker = 1%Z /\
     sc_createdAt sticker = snd stamp /\
     forall id, id <> fst stamp ->
                ObjectStore.get sc_id id s' = ObjectStore.get sc_id id s).
Proof.
  intros Hu. unfold generateSticker.
  destruct (findSimilarSticker toLowerCase type detail (7 / 10)%R s)
    as [[cached|] s1] eqn:F.
  - intros [= <- <-].
    destruct (findSimilarSticker_match toLowerCase type detail _ s cached s1 F)
      as [_ [_ [_ ->]]].
    split; [now apply updateUsageCount_uniqueKeys|].
    split; [discriminate|].
    split; [intros c s2 [= <- <-]; auto|].
    left. rewrite <- (length_map sc_id), updateUsageCount_keys.
    apply length_map.
  - destruct reply as [|parts].
    + intros [= <- <-]. split; [assumption|]. split; [reflexivity|].
      split; [intros c s2 Hc; discriminate Hc | now left].
    + destruct (firstImage parts) as [image|] eqn:FI.
      * unfold saveSticker.
        match goal with
        | |- context [ObjectStore.add sc_id ?x s] =>
            set (sticker := x);
            destruct (ObjectStore.add sc_id sticker s) as [s2|] eqn:A
        end.
        -- intros [= <- <-].
           split; [eapply (add_uniqueKeys sc_id); eauto|].
           split; [discriminate|].
           split; [intros c s3 Hc; discriminate Hc|].
           right.
           pose proof (StoreFacts.get_add sc_id (fst stamp) sticker s s2 A)
             as [Hn Hg].
           unfold ObjectStore.add in A. rewrite Hn in A.
           injection A as <-.
           split.
           { rewrite (Permutation_length (insert_perm sc_id sticker s)).
             reflexivity. }
           split; [exact Hn|].
           destruct (firstImage_some parts image FI) as [mt [d [Hin E]]].
           exists image, sticker, mt, d, parts.
           repeat split; auto.
           ++ apply (StoreFacts.get_insert_same sc_id sticker s Hn).
           ++ intros id Hid.
              now apply (StoreFacts.get_insert_other sc_id id sticker s).
        -- intros [= <- <-].
           split; [assumption|]. split; [discriminate|].
           split; [intros c s3 Hc; discriminate Hc | now left].
      * intros [= <- <-]. split; [assumption|]. split; [reflexivity|].
        split; [intros c s2 Hc; discriminate Hc | now left].
Qed.

End BestMatch.

Lemma findSimilarSticker_best_witness :
  (0 < cosineSimilarity (computeTextEmbedding lowerCaseText (js "happy"))
                        (sc_embedding happySticker))%R /\
  (7 / 10 <= cosineSimilarity (computeTextEmbedding lowerCaseText (js "happy"))
                              (sc_embedding happySticker))%R /\
  forall x, In x [happySticker] -> sc_type x = hikari_emotion ->
    (cosineSimilarity (computeTextEmbedding lowerCaseText (js "happy"))
                      (sc_embedding x)
     <= cosineSimilarity (computeTextEmbedding lowerCaseText (js "happy"))
                         (sc_embedding happySticker))%R.
Proof.
  apply (proj1 (findSimilarSticker_best lowerCaseText hikari_emotion
                  (js "happy") (7 / 10)%R [happySticker])
               happySticker [incrementUsage happySticker]).
  exact findSimilarSticker_hit.
Defined.

Lemma findSimilarSticker_counts_one_use_witness :
  ObjectStore.get sc_id (sc_id happySticker) [happySticker]
  = Some happySticker /\
  (forall id,
      ObjectStore.get sc_id id [incrementUsage happySticker]
      = if String.eqb id (sc_id happySticker)
        then Some (incrementUsage happySticker)
        else ObjectStore.get sc_id id [happySticker]) /\
  sc_usageCount (incrementUsage happySticker)
  = (sc_usageCount happySticker + 1)%Z /\
  map sc_id [incrementUsage happySticker] = map sc_id [happySticker] /\
  ObjectStore.uniqueKeys sc_id [incrementUsage happySticker] = true.
Proof.
  apply (findSimilarSticker_counts_one_use lowerCaseText hikari_emotion
           (js "happy") (7 / 10)%R [happySticker] happySticker
           [incrementUsage happySticker]).
  - reflexivity.
  - exact findSimilarSticker_hit.
Defined.

Lemma generateSticker_cache_witness :
  ObjectStore.uniqueKeys sc_id [generatedSticker] = true /\
  (Some (sc_imageData generatedSticker) = None -> [generatedSticker] = []) /\
  (forall cached s1,
      findSimilarSticker lowerCaseText hikari_emotion (js "happy")
        (7 / 10)%R [] = (Some cached, s1) ->
      Some (sc_imageData generatedSticker) = Some (sc_imageData cached) /\
      [generatedSticker] = s1) /\
  (length [generatedSticker] = length (@nil StickerCache) \/
   length [generatedSticker] = S (length (@nil StickerCache)) /\
   ObjectStore.get sc_id "sticker-1" [] = None /\
   exists image sticker mimeType data parts,
     OracleReturns imageReply = OracleReturns parts /\
     In (Some (mimeType, data)) parts /\
     image = js "data:" ++ mimeType ++ js ";base64," ++ data /\
     Some (sc_imageData generatedSticker) = Some image /\
     ObjectStore.get sc_id "sticker-1" [generatedSticker] = Some sticker /\
     sc_imageData sticker = image /\
     sc_prompt sticker = finalPromptOf hikari_emotion (js "happy") /\
     sc_detail sticker = js "happy" /\
     sc_type sticker = hikari_emotion /\
     sc_usageCount sticker = 1%Z /\
     sc_createdAt sticker = 1000%Z /\
     forall id, id <> "sticker-1"%string ->
                ObjectStore.get sc_id id [generatedSticker]
                = ObjectStore.get sc_id id []).
Proof.
  apply (generateSticker_cache lowerCaseText hikari_emotion (js "happy")
           (OracleReturns imageReply) ("sticker-1"%string, 1000%Z) []
           (Some (sc_imageData generatedSticker)) [generatedSticker]).
  - reflexivity.
  - reflexivity.
Defined.

(** ** The statistics of the cache *)

Lemma StronglySorted_app_inv {A} (R : A -> A -> Prop) l1 l2 :
  StronglySorted R (l1 ++ l2) ->
  StronglySorted R l1 /\ forall a b, In a l1 -> In b l2 -> R a b.
Proof.
  induction l1 as [|x l1 IH]; simpl; intros H.
  - split; [constructor | intros a b []].
  - inversion H as [|? ? Hs Hx]; subst. destruct (IH Hs) as [H1 H2].
    split.
    + constructor; [assumption|].
      apply Forall_forall. intros y Hy.
      apply (proj1 (Forall_forall _ _) Hx). apply in_or_app. now left.
    + intros a b [<- | Ha] Hb.
      * apply (proj1 (Forall_forall _ _) Hx). apply in_or_app. now right.
      * now apply H2.
Qed.

Lemma totalSize_from stickers total :
  fold_left (fun total sticker =>
               (total + length (sc_imageData sticker) * 2)%nat)
            stickers total
  = (total + 2 * imageUnits stickers)%nat.
Proof.
  unfold imageUnits. revert total.
  induction stickers as [|x l IH]; intros total; simpl; [lia|].
  rewrite IH. lia.
Qed.

(** X26. [getCacheStats] counts the stickers, reports two bytes
    per code unit of their images, and lists under [mostUsed] up to ten
    stickers of the cache, the most used first: a sticker that is used more
    often than a listed one is listed too. *)
Theorem getCacheStats_mostUsed s :
  let stats := getCacheStats s in
  totalCached stats = length s /\
  totalSize stats = (2 * imageUnits s)%nat /\
  length (mostUsed stats) = Nat.min 10 (length s) /\
  StronglySorted (fun a b => (sc_usageCount b <= sc_usageCount a)%Z)
                 (mostUsed stats) /\
  (forall x, In x (mostUsed stats) -> In x s) /\
  (forall x y, In x (mostUsed stats) -> In y s ->
               (sc_usageCount x < sc_usageCount y)%Z ->
               In y (mostUsed stats)).
Proof.
  cbv zeta. unfold getCacheStats, getAllCachedStickers.
  cbn [totalCached totalSize mostUsed].
  destruct (sortDesc_descendingOf sc_usageCount s) as [Hp [Hs _]].
  set (out := Listing.sortDesc sc_usageCount s) in *.
  rewrite <- (firstn_skipn 10 out) in Hs.
  destruct (StronglySorted_app_inv _ _ _ Hs) as [Hs1 Hs2].
  split; [reflexivity|].
  split; [now rewrite totalSize_from|].
  split; [rewrite length_firstn, (Permutation_length Hp); reflexivity|].
  split; [exact Hs1|]. split.
  - intros x Hx. apply (Permutation_in _ Hp). eapply In_firstn_In; eauto.
  - intros x y Hx Hy Hlt.
    apply (Permutation_in _ (Permutation_sym Hp)) in Hy.
    rewrite <- (firstn_skipn 10 out) in Hy.
    apply in_app_or in Hy. destruct Hy as [Hy | Hy]; [assumption|].
    specialize (Hs2 x y Hx Hy). simpl in Hs2. lia.
Qed.

(** ** The title of a session *)

Lemma find_isUser_none messages :
  noUserMessage messages -> find isUser messages = None.
Proof.
  induction 1 as [|m l Hm Hl IH]; simpl; [reflexivity|]. now rewrite Hm.
Qed.

Lemma find_isUser_first pre m post :
  noUserMessage pre -> isUser m = true ->
  find isUser (pre ++ m :: post) = Some m.
Proof.
  induction 1 as [|x l Hx Hl IH]; simpl; intros Hm.
  - now rewrite Hm.
  - rewrite Hx. auto.
Qed.

Lemma generateTitle_find messages :
  generateTitle messages
  = match find isUser messages with
    | Some firstUserMsg =>
        if (20 <? length (msg_content firstUserMsg))%nat
        then firstn 20 (msg_content firstUserMsg) ++ js "..."
        else msg_content firstUserMsg
    | None => newChatTitle
    end.
Proof. destruct messages; reflexivity. Qed.

(** X27. The title that [generateTitle] gives is that of the first
    user message alone, whatever stands before and after it: its text when
    that has at most 20 code units, else its first 20 code units followed
    by three dots.  Without a user message the title is '新对话'.  A title
    has at most 23 code units. *)
Theorem generateTitle_first_user_message :
  (forall messages,
      noUserMessage messages -> generateTitle messages = newChatTitle) /\
  (forall pre m post,
      noUserMessage pre -> isUser m = true ->
      generateTitle (pre ++ m :: post) = generateTitle [m] /\
      ((length (msg_content m) <= 20)%nat ->
       generateTitle [m] = msg_content m) /\
      ((20 < length (msg_content m))%nat ->
       generateTitle [m] = firstn 20 (msg_content m) ++ js "...")) /\
  (forall messages, (length (generateTitle messages) <= 23)%nat).
Proof.
  split; [|split].
  - intros messages H. rewrite generateTitle_find.
    now rewrite find_isUser_none.
  - intros pre m post Hpre Hm.
    rewrite !generateTitle_find.
    rewrite (find_isUser_first pre m post Hpre Hm).
    pose proof (find_isUser_first [] m [] (Forall_nil _) Hm) as H1.
    cbn [app] in H1. rewrite H1.
    split; [reflexivity|]. split; intros H.
    + apply Nat.ltb_ge in H. now rewrite H.
    + apply Nat.ltb_lt in H. now rewrite H.
  - intros messages. rewrite generateTitle_find.
    destruct (find isUser messages) as [m|];
      [|unfold newChatTitle; simpl; lia].
    destruct (20 <? length (msg_content m))%nat eqn:E.
    + rewrite length_app, length_firstn.
      change (length (js "...")) with 3%nat.
      pose proof (Nat.le_min_l 20 (length (msg_content m))). lia.
    + apply Nat.ltb_ge in E. lia.
Qed.

(** ** Writing to a session *)

Lemma updateSession_found now session s old :
  getSession (cs_id session) s = Some old ->
  getSession (cs_id session) (updateSession now session s)
  = Some (touched now session) /\
  (forall id, id <> cs_id session ->
              getSession id (updateSession now session s) = getSession id s) /\
  map cs_id (updateSession now session s) = map cs_id s.
Proof.
  intros G. unfold updateSession, getSession in *.
  split; [|split].
  - apply (StoreFacts.get_put_same cs_id (touched now session) s).
  - intros id Hid.
    now apply (StoreFacts.get_put_other cs_id id (touched now session) s).
  - unfold ObjectStore.put. cbn [touched cs_id]. rewrite G.
    apply keys_replace.
Qed.

Lemma updateSession_listed_first now session s old :
  ObjectStore.uniqueKeys cs_id s = true ->
  getSession (cs_id session) s = Some old ->
  (forall x, In x s -> cs_id x <> cs_id session -> (cs_updatedAt x < now)%Z) ->
  exists rest,
    getAllSessions (updateSession now session s) = touched now session :: rest.
Proof.
  intros Hu G Hlate.
  destruct (updateSession_found now session s old G) as [G' _].
  assert (Hs' : forall x, In x (updateSession now session s) ->
                  x = touched now session \/ (cs_updatedAt x < now)%Z).
  { unfold updateSession, ObjectStore.put, getSession in *.
    cbn [touched cs_id]. rewrite G.
    rewrite (StoreFacts.replace_map cs_id _ s Hu). cbn [touched cs_id].
    intros x Hx. apply in_map_iff in Hx. destruct Hx as [y [E Hy]].
    destruct (String.eqb (cs_id session) (cs_id y)) eqn:K;
      [now left | right]. subst x.
    apply String.eqb_neq in K. apply Hlate; [assumption | congruence]. }
  destruct (StoreFacts.get_In cs_id _ _ _ G') as [Hin _].
  unfold getAllSessions.
  destruct (sortDesc_descendingOf cs_updatedAt (updateSession now session s))
    as [Hp [Hs _]].
  destruct (Listing.sortDesc cs_updatedAt (updateSession now session s))
    as [|h rest].
  - apply Permutation_nil in Hp. rewrite Hp in Hin.
    destruct Hin.
  - exists rest. f_equal.
    destruct (Hs' h (Permutation_in _ Hp (in_eq h rest))) as [E | Hh];
      [assumption|].
    exfalso.
    apply (Permutation_in _ (Permutation_sym Hp)) in Hin.
    destruct Hin as [E | Hin]; [subst h; cbn [touched cs_updatedAt] in Hh; lia|].
    inversion Hs as [|? ? _ Hall]; subst.
    pose proof (proj1 (Forall_forall _ _) Hall _ Hin) as Hle.
    cbn [touched cs_updatedAt] in Hle. lia.
Qed.

(** X28. [updateSessionTitle] throws for a session that is not
    stored.  For a stored session it keeps the given title only when the
    session has no message: if it has one, [updateSession] replaces the
    title by the generated one before it writes.  The messages stay, the
    time of the update is the current one, and the other sessions read as
    before. *)
Theorem updateSessionTitle_kept_without_messages now sessionId newTitle s :
  (getSession sessionId s = None ->
   updateSessionTitle now sessionId newTitle s = None) /\
  (forall session,
      getSession sessionId s = Some session ->
      exists s' session',
        updateSessionTitle now sessionId newTitle s = Some s' /\
        getSession sessionId s' = Some session' /\
        cs_title session'
        = match cs_messages session with
          | [] => newTitle
          | _ :: _ => generateTitle (cs_messages session)
          end /\
        cs_messages session' = cs_messages session /\
        cs_updatedAt session' = now /\
        (forall id, id <> sessionId -> getSession id s' = getSession id s)).
Proof.
  split; unfold updateSessionTitle.
  - intros G. now rewrite G.
  - intros session G. rewrite G.
    destruct (StoreFacts.get_In cs_id _ _ _ G) as [_ Hid].
    match goal with
    | |- context [updateSession now ?x s] => set (renamed := x)
    end.
    assert (G0 : getSession (cs_id renamed) s = Some session)
      by (cbn [renamed cs_id]; now rewrite Hid).
    destruct (updateSession_found now renamed s session G0)
      as [G1 [G2 _]].
    cbn [renamed cs_id] in G1, G2. rewrite Hid in G1, G2.
    exists (updateSession now renamed s), (touched now renamed).
    split; [reflexivity|]. split; [exact G1|].
    split; [|repeat split; assumption].
    cbn [touched renamed cs_title cs_messages].
    destruct (cs_messages session); reflexivity.
Qed.

Lemma updateSessionTitle_kept_without_messages_witness :
  exists s' session',
    updateSessionTitle 3000 "session-1" (js "our first chat") twoSessions
    = Some s' /\
    getSession "session-1" s' = Some session' /\
    cs_title session'
    = match cs_messages helloSession with
      | [] => js "our first chat"
      | _ :: _ => generateTitle (cs_messages helloSession)
      end /\
    cs_messages session' = cs_messages helloSession /\
    cs_updatedAt session' = 3000%Z /\
    (forall id, id <> "session-1"%string ->
                getSession id s' = getSession id twoSessions).
Proof.
  apply (proj2 (updateSessionTitle_kept_without_messages
                  3000 "session-1" (js "our first chat") twoSessions)
               helloSession).
  reflexivity.
Defined.

(** X29. [addMessageToSession] throws for a session that is not
    stored.  For a stored session it appends the message, takes the
    personality when one is given, regenerates the title from the messages
    and sets the time of the update; the other sessions and the ids stay.
    When the ids are unique and the current time is later than the update
    of every other session, [getAllSessions] lists the session first. *)
Theorem addMessageToSession_round_trip now sessionId message personality s :
  (getSession sessionId s = None ->
   addMessageToSession now sessionId message personality s = None) /\
  (forall session,
      getSession sessionId s = Some session ->
      exists s' session',
        addMessageToSession now sessionId message personality s = Some s' /\
        getSession sessionId s' = Some session' /\
        cs_messages session' = cs_messages session ++ [message] /\
        cs_title session' = generateTitle (cs_messages session ++ [message]) /\
        cs_personality session'
        = orElse personality (cs_personality session) /\
        cs_updatedAt session' = now /\
        cs_createdAt session' = cs_createdAt session /\
        (forall id, id <> sessionId -> getSession id s' = getSession id s) /\
        map cs_id s' = map cs_id s /\
        (ObjectStore.uniqueKeys cs_id s = true ->
         (forall x, In x s -> cs_id x <> sessionId ->
                    (cs_updatedAt x < now)%Z) ->
         exists rest, getAllSessions s' = session' :: rest)).
Proof.
  split; unfold addMessageToSession.
  - intros G. now rewrite G.
  - intros session G. rewrite G.
    destruct (StoreFacts.get_In cs_id _ _ _ G) as [_ Hid].
    match goal with
    | |- context [updateSession now ?x s] => set (extended := x)
    end.
    assert (G0 : getSession (cs_id extended) s = Some session)
      by (cbn [extended cs_id]; now rewrite Hid).
    destruct (updateSession_found now extended s session G0)
      as [G1 [G2 G3]].
    exists (updateSession now extended s), (touched now extended).
    split; [reflexivity|].
    split; [cbn [extended cs_id] in G1; now rewrite Hid in G1|].
    split; [reflexivity|].
    split.
    { cbn [touched extended cs_title cs_messages].
      rewrite length_app. cbn [length].
      replace (0 <? length (cs_messages session) + 1)%nat with true
        by (symmetry; apply Nat.ltb_lt; lia).
      reflexivity. }
    split; [reflexivity|]. split; [reflexivity|]. split; [reflexivity|].
    split; [cbn [extended cs_id] in G2; now rewrite Hid in G2|].
    split; [exact G3|].
    intros Hu Hlate.
    apply (updateSession_listed_first now extended s session Hu G0).
    cbn [extended cs_id]. now rewrite Hid.
Qed.

Lemma addMessageToSession_round_trip_witness :
  exists s' session',
    addMessageToSession 3000 "session-1"
      (mkMessage assistant (js "hi!") 3000 None) None twoSessions = Some s' /\
    getSession "session-1" s' = Some session' /\
    cs_messages session'
    = cs_messages helloSession ++ [mkMessage assistant (js "hi!") 3000 None] /\
    cs_title session'
    = generateTitle (cs_messages helloSession
                     ++ [mkMessage assistant (js "hi!") 3000 None]) /\
    cs_personality session' = orElse None (cs_personality helloSession) /\
    cs_updatedAt session' = 3000%Z /\
    cs_createdAt session' = cs_createdAt helloSession /\
    (forall id, id <> "session-1"%string ->
                getSession id s' = getSession id twoSessions) /\
    map cs_id s' = map cs_id twoSessions /\
    (ObjectStore.uniqueKeys cs_id twoSessions = true ->
     (forall x, In x twoSessions -> cs_id x <> "session-1"%string ->
                (cs_updatedAt x < 3000)%Z) ->
     exists rest, getAllSessions s' = session' :: rest).
Proof.
  apply (proj2 (addMessageToSession_round_trip 3000 "session-1"
                  (mkMessage assistant (js "hi!") 3000 None) None twoSessions)
               helloSession).
  reflexivity.
Defined.

(** ** Creating and deleting a session *)

(** X30. [createSession] is rejected exactly when the id is taken.
    With a fresh id the new session holds the first message, if any, has
    the title that [generateTitle] gives for its messages, and is created,
    updated and visited at the time of the stamp; [getSession] finds it,
    [getAllSessions] lists it, every other id reads as before, and
    [deleteSession] of its id gives the store back as it was. *)
Theorem createSession_round_trip stamp firstMessage s :
  (createSession stamp firstMessage s = None
   <-> getSession (fst stamp) s <> None) /\
  (getSession (fst stamp) s = None ->
   exists s' session,
     createSession stamp firstMessage s = Some (s', session) /\
     getSession (fst stamp) s' = Some session /\
     cs_messages session
     = match firstMessage with Some m => [m] | None => [] end /\
     cs_title session = generateTitle (cs_messages session) /\
     cs_createdAt session = snd stamp /\
     cs_updatedAt session = snd stamp /\
     cs_lastVisitTime session = Some (snd stamp) /\
     (forall id, id <> fst stamp -> getSession id s' = getSession id s) /\
     In session (getAllSessions s') /\
     deleteSession (fst stamp) s' = s).
Proof.
  unfold createSession, getSession, deleteSession, ObjectStore.add.
  cbn [cs_id].
  split.
  - destruct (ObjectStore.get cs_id (fst stamp) s); split; congruence.
  - intros G. rewrite G.
    match goal with
    | |- context [ObjectStore.insert cs_id ?x s] => set (session := x)
    end.
    exists (ObjectStore.insert cs_id session s), session.
    split; [reflexivity|].
    split; [apply (StoreFacts.get_insert_same cs_id session s G)|].
    split; [reflexivity|].
    split; [destruct firstMessage; reflexivity|].
    split; [reflexivity|]. split; [reflexivity|]. split; [reflexivity|].
    split.
    { intros id Hid.
      now apply (StoreFacts.get_insert_other cs_id id session s). }
    split.
    + unfold getAllSessions.
      destruct (sortDesc_descendingOf cs_updatedAt
                  (ObjectStore.insert cs_id session s)) as [Hp _].
      apply (Permutation_in _ (Permutation_sym Hp)).
      apply (Permutation_in _ (Permutation_sym (insert_perm cs_id session s))).
      now left.
    + apply (delete_insert cs_id session s G).
Qed.

Lemma createSession_round_trip_witness :
  exists s' session,
    createSession ("session-3"%string, 3000%Z) (Some helloMessage) twoSessions
    = Some (s', session) /\
    getSession "session-3" s' = Some session /\
    cs_messages session = [helloMessage] /\
    cs_title session = generateTitle (cs_messages session) /\
    cs_createdAt session = 3000%Z /\
    cs_updatedAt session = 3000%Z /\
    cs_lastVisitTime session = Some 3000%Z /\
    (forall id, id <> "session-3"%string ->
                getSession id s' = getSession id twoSessions) /\
    In session (getAllSessions s') /\
    deleteSession "session-3" s' = twoSessions.
Proof.
  apply (proj2 (createSession_round_trip ("session-3"%string, 3000%Z)
                  (Some helloMessage) twoSessions)).
  reflexivity.
Defined.

(* ================================================================= *)
(** * The embedding in double precision *)

Local Open Scope R_scope.

(** ** Rounding to the nearest double *)

Lemma nearestEven_close y : Rabs (IZR (Doubles.nearestEven y) - y) <= 1 / 2.
Proof.
  unfold Doubles.nearestEven. cbv zeta.
  destruct (base_Int_part y) as [H1 H2].
  destruct (Rlt_dec (y - IZR (Int_part y)) (1 / 2)) as [L | L].
  - apply Rabs_le. lra.
  - destruct (Rlt_dec (1 / 2) (y - IZR (Int_part y))) as [G | G].
    + rewrite plus_IZR. apply Rabs_le. lra.
    + destruct (Z.even (Int_part y)).
      * apply Rabs_le. lra.
      * rewrite plus_IZR. apply Rabs_le. lra.
Qed.

Lemma Int_part_IZR k : Int_part (IZR k) = k.
Proof. symmetry. apply Int_part_spec. lra. Qed.

Lemma nearestEven_IZR k : Doubles.nearestEven (IZR k) = k.
Proof.
  unfold Doubles.nearestEven. cbv zeta. rewrite Int_part_IZR.
  destruct (Rlt_dec (IZR k - IZR k) (1 / 2)) as [L | L]; [reflexivity|].
  exfalso. apply L. lra.
Qed.

Lemma powerRZ_2_nonneg z : (0 <= z)%Z -> powerRZ 2 z = IZR (2 ^ z).
Proof.
  intros H. rewrite <- (Z2Nat.id z H) at 1.
  rewrite <- pow_powerRZ, pow_IZR. now rewrite Z2Nat.id.
Qed.

Lemma powerRZ_2_pos z : 0 < powerRZ 2 z.
Proof. apply powerRZ_lt. lra. Qed.

Lemma powerRZ_2_le a b : (a <= b)%Z -> powerRZ 2 a <= powerRZ 2 b.
Proof.
  intros H. replace b with (a + (b - a))%Z by lia.
  rewrite powerRZ_add by lra.
  pose proof (powerRZ_2_pos a).
  assert (1 <= powerRZ 2 (b - a)).
  { rewrite powerRZ_2_nonneg by lia. apply IZR_le.
    pose proof (Z.pow_pos_nonneg 2 (b - a)). lia. }
  nra.
Qed.

Lemma exponentOf_spec x :
  x <> 0 ->
  powerRZ 2 (Doubles.exponentOf x) <= Rabs x < powerRZ 2 (Doubles.exponentOf x + 1).
Proof.
  intros Hx. unfold Doubles.exponentOf.
  set (e := Int_part (ln (Rabs x) / ln 2)).
  destruct (base_Int_part (ln (Rabs x) / ln 2)) as [H1 H2]. fold e in H1, H2.
  assert (Hp : 0 < Rabs x) by now apply Rabs_pos_lt.
  assert (L2 : 0 < ln 2) by (rewrite <- ln_1; apply ln_increasing; lra).
  assert (E : forall z, powerRZ 2 z = exp (IZR z * ln 2)).
  { intros z. rewrite powerRZ_Rpower by lra. reflexivity. }
  rewrite !E.
  assert (Hq : ln (Rabs x) = ln (Rabs x) / ln 2 * ln 2) by (field; lra).
  assert (Lo : exp (IZR e * ln 2) <= exp (ln (Rabs x))).
  { destruct (Req_dec_T (IZR e * ln 2) (ln (Rabs x))) as [Q | Q].
    - rewrite Q. lra.
    - left. apply exp_increasing.
      assert (IZR e * ln 2 <= ln (Rabs x) / ln 2 * ln 2) by nra. lra. }
  assert (Hi : exp (ln (Rabs x)) < exp (IZR (e + 1) * ln 2)).
  { apply exp_increasing. rewrite plus_IZR. rewrite Hq at 1.
    apply Rmult_lt_compat_r; lra. }
  rewrite (exp_ln (Rabs x) Hp) in Lo, Hi. split; assumption.
Qed.

Lemma round53_error x :
  Rabs (Doubles.round53 x - x) <= Rabs x / IZR (2 ^ 53).
Proof.
  unfold Doubles.round53.
  destruct (Req_dec_T x 0) as [-> | Hx].
  - rewrite Rminus_0_r, Rabs_R0. unfold Rdiv. lra.
  - cbv zeta. set (e := Doubles.exponentOf x).
    destruct (exponentOf_spec x Hx) as [Hlo _]. fold e in Hlo.
    set (y := x * powerRZ 2 (52 - e)).
    pose proof (nearestEven_close y) as Hn.
    pose proof (powerRZ_2_pos (e - 52)) as Hp.
    assert (Ey : y * powerRZ 2 (e - 52) = x).
    { unfold y. rewrite Rmult_assoc, <- powerRZ_add by lra.
      replace (52 - e + (e - 52))%Z with 0%Z by lia. simpl. lra. }
    clearbody y e. clear Hx. subst x.
    replace (IZR (Doubles.nearestEven y) * powerRZ 2 (e - 52)
             - y * powerRZ 2 (e - 52))
      with ((IZR (Doubles.nearestEven y) - y) * powerRZ 2 (e - 52)) by ring.
    rewrite Rabs_mult, (Rabs_pos_eq (powerRZ 2 (e - 52))) by lra.
    assert (E53 : powerRZ 2 (e - 52) = 2 * (powerRZ 2 e / IZR (2 ^ 53))).
    { assert (P : powerRZ 2 (e - 52) * IZR (2 ^ 53) = 2 * powerRZ 2 e).
      { rewrite <- (powerRZ_2_nonneg 53) by lia.
        rewrite <- powerRZ_add by lra.
        replace (e - 52 + 53)%Z with (1 + e)%Z by lia.
        rewrite powerRZ_add by lra. simpl. lra. }
      assert (0 < IZR (2 ^ 53)) by (apply IZR_lt; reflexivity).
      apply (Rmult_eq_reg_r (IZR (2 ^ 53))); [|lra].
      rewrite P. field. lra. }
    assert (P53 : 0 < IZR (2 ^ 53)) by (apply IZR_lt; reflexivity).
    apply Rle_trans with (1 / 2 * powerRZ 2 (e - 52)).
    + apply Rmult_le_compat_r; [lra | exact Hn].
    + rewrite E53 at 1.
      replace (1 / 2 * (2 * (powerRZ 2 e / IZR (2 ^ 53))))
        with (powerRZ 2 e / IZR (2 ^ 53)) by (field; lra).
      apply Rmult_le_compat_r; [|exact Hlo].
      left. now apply Rinv_0_lt_compat.
Qed.

Lemma round53_exact z : (Z.abs z <= 2 ^ 53)%Z -> Doubles.round53 (IZR z) = IZR z.
Proof.
  intros Hz. unfold Doubles.round53.
  destruct (Req_dec_T (IZR z) 0) as [E | Hx]; [now rewrite E|].
  cbv zeta. set (e := Doubles.exponentOf (IZR z)).
  destruct (exponentOf_spec (IZR z) Hx) as [Hlo Hhi]. fold e in Hlo, Hhi.
  rewrite <- abs_IZR in Hlo, Hhi.
  assert (Hz1 : (1 <= Z.abs z)%Z).
  { assert (z <> 0%Z) by (intros ->; now apply Hx). lia. }
  assert (He0 : (0 <= e)%Z).
  { destruct (Z_lt_le_dec e 0) as [L | L]; [|assumption]. exfalso.
    pose proof (powerRZ_2_le (e + 1) 0 ltac:(lia)) as P. simpl in P.
    apply IZR_le in Hz1. lra. }
  assert (He53 : (e <= 53)%Z).
  { destruct (Z_lt_le_dec 53 e) as [L | L]; [|assumption]. exfalso.
    pose proof (powerRZ_2_le 54 e ltac:(lia)) as P.
    rewrite powerRZ_2_nonneg in P by lia.
    assert (IZR (2 ^ 54) <= IZR (Z.abs z)) by lra.
    apply le_IZR in H. lia. }
  destruct (Z_le_gt_dec e 52) as [L | G].
  - rewrite (powerRZ_2_nonneg (52 - e)) by lia.
    rewrite <- mult_IZR, nearestEven_IZR, mult_IZR.
    rewrite <- (powerRZ_2_nonneg (52 - e)) by lia.
    rewrite Rmult_assoc, <- powerRZ_add by lra.
    replace (52 - e + (e - 52))%Z with 0%Z by lia. simpl. lra.
  - assert (Ee : e = 53%Z) by lia. rewrite Ee.
    assert (Ez : (Z.abs z = 2 ^ 53)%Z).
    { rewrite Ee, powerRZ_2_nonneg in Hlo by lia. apply le_IZR in Hlo. lia. }
    assert (Hh : IZR z * powerRZ 2 (52 - 53) = IZR (z / 2)).
    { assert (z = 2 * (z / 2))%Z by
        (destruct (Z.abs_eq_or_opp z) as [A | A]; rewrite A in Ez;
         [|assert (z = - 2 ^ 53)%Z by lia]; subst z; reflexivity).
      rewrite H at 1. rewrite mult_IZR. simpl. field. }
    rewrite Hh, nearestEven_IZR, <- Hh.
    rewrite Rmult_assoc, <- powerRZ_add by lra. simpl. lra.
Qed.

Lemma round53_roundsToNearest : roundsToNearest Doubles.round53.
Proof.
  split.
  - apply round53_exact.
  - intros x _. apply round53_error.
Qed.

Lemma round53_dyadic x : exists n k, Doubles.round53 x = IZR n * powerRZ 2 k.
Proof.
  unfold Doubles.round53. destruct (Req_dec_T x 0).
  - exists 0%Z, 0%Z. simpl. lra.
  - eexists _, _. reflexivity.
Qed.

Lemma no_square_root_of_2 (a t : Z) : (2 * (a * a) = t * t)%Z -> t = 0%Z.
Proof.
  assert (G : forall (n : nat) (a t : Z),
            (Z.abs t < Z.of_nat n)%Z -> (2 * (a * a) = t * t)%Z -> t = 0%Z).
  { induction n as [|n IH]; intros b u Hn E; [lia|].
    assert (Hu : (u = 2 * (u / 2) + u mod 2)%Z) by (apply Z.div_mod; lia).
    pose proof (Z.mod_pos_bound u 2 ltac:(lia)) as Ru.
    set (q := (u / 2)%Z) in *. set (r := (u mod 2)%Z) in *.
    assert (Er : r = 0%Z).
    { destruct (Z.eq_dec r 0) as [|Nr]; [assumption|].
      assert (r = 1%Z) by lia. exfalso.
      assert (u * u = 4 * (q * q) + 4 * q + 1)%Z by (rewrite Hu, H; ring).
      lia. }
    rewrite Er, Z.add_0_r in Hu.
    assert (Eb : (b * b = 2 * (q * q))%Z).
    { assert (u * u = 4 * (q * q))%Z by (rewrite Hu; ring). lia. }
    assert (Hb : (b = 2 * (b / 2) + b mod 2)%Z) by (apply Z.div_mod; lia).
    pose proof (Z.mod_pos_bound b 2 ltac:(lia)) as Rb.
    set (p := (b / 2)%Z) in *. set (r' := (b mod 2)%Z) in *.
    assert (Er' : r' = 0%Z).
    { destruct (Z.eq_dec r' 0) as [|Nr]; [assumption|].
      assert (r' = 1%Z) by lia. exfalso.
      assert (b * b = 4 * (p * p) + 4 * p + 1)%Z by (rewrite Hb, H; ring).
      lia. }
    rewrite Er', Z.add_0_r in Hb.
    assert (Eq : (2 * (p * p) = q * q)%Z).
    { assert (b * b = 4 * (p * p))%Z by (rewrite Hb; ring). lia. }
    destruct (Z.eq_dec u 0) as [|Nu]; [assumption|].
    assert (q = 0%Z) by (apply (IH p q); [lia | exact Eq]).
    lia. }
  intros E. apply (G (S (Z.to_nat (Z.abs t))) a t); [lia | exact E].
Qed.

(** ** The sum of the squares of the counts *)

Lemma sumsqZ_le_square v :
  Forall (fun x => (0 <= x)%Z) v ->
  (0 <= sumZ v)%Z /\ (sumsqZ v <= sumZ v * sumZ v)%Z.
Proof.
  induction 1 as [|x l Hx Hl [IH1 IH2]]; simpl; [lia|].
  unfold sumZ in *. simpl. nia.
Qed.

Lemma square_le_sumsqZ v c : In c v -> (c * c <= sumsqZ v)%Z.
Proof.
  induction v as [|x l IH]; simpl; [tauto|].
  pose proof (sumsqZ_nonneg l).
  intros [<- | Hc]; [lia|]. specialize (IH Hc). nia.
Qed.

Section DoubleFacts.
Variable fl : R -> R.
Hypothesis Hfl : roundsToNearest fl.

Lemma fl_exact z : (Z.abs z <= 2 ^ 53)%Z -> fl (IZR z) = IZR z.
Proof. apply Hfl. Qed.

Lemma fl_0 : fl 0 = 0.
Proof. apply (fl_exact 0). simpl. lia. Qed.

Lemma sumSquares_exact_from counts : forall a,
  (0 <= a)%Z -> (a + sumsqZ counts <= 2 ^ 53)%Z ->
  fold_left (fun sum val => fl (sum + fl (val * val))) (map IZR counts)
            (IZR a)
  = IZR (a + sumsqZ counts).
Proof.
  induction counts as [|c l IH]; intros a Ha Hs; simpl.
  - now rewrite Z.add_0_r.
  - simpl in Hs. pose proof (sumsqZ_nonneg l) as Hl.
    assert (Hc : (0 <= c * c)%Z) by nia.
    rewrite <- mult_IZR, fl_exact by lia.
    rewrite <- plus_IZR, fl_exact by lia.
    rewrite IH by lia. f_equal. lia.
Qed.

Lemma sumSquares_exact counts :
  (sumsqZ counts <= 2 ^ 53)%Z ->
  Doubles.sumSquares fl (map IZR counts) = IZR (sumsqZ counts).
Proof.
  intros H. unfold Doubles.sumSquares.
  now rewrite (sumSquares_exact_from counts 0%Z) by lia.
Qed.

(** The rounding of a number between 2^-28 and 2^27. *)
Lemma fl_close x :
  / IZR (2 ^ 28) <= Rabs x <= IZR (2 ^ 27) ->
  Rabs (fl x - x) <= Rabs x / IZR (2 ^ 53).
Proof.
  intros [Hlo Hhi]. apply Hfl. split.
  - apply Rle_trans with (/ IZR (2 ^ 28)); [|assumption].
    apply Rinv_le_contravar; [apply IZR_lt; reflexivity|].
    apply IZR_le. apply Z.pow_le_mono_r; lia.
  - apply Rle_trans with (IZR (2 ^ 27)); [assumption|].
    apply IZR_le. apply Z.pow_le_mono_r; lia.
Qed.

End DoubleFacts.

(** ** The norm of a rounded vector *)

Lemma Rabs_le_between r b : Rabs r <= b -> - b <= r <= b.
Proof. unfold Rabs. destruct (Rcase_abs r); lra. Qed.

Lemma square_perturbed u a x :
  0 <= u <= 1 -> Rabs (x - a) <= u * Rabs a ->
  (1 - u) * (1 - u) * (a * a) <= x * x <= (1 + u) * (1 + u) * (a * a).
Proof.
  intros Hu H. apply Rabs_le_between in H.
  replace ((1 - u) * (1 - u) * (a * a))
    with ((a * (1 - u)) * (a * (1 - u))) by ring.
  replace ((1 + u) * (1 + u) * (a * a))
    with ((a * (1 + u)) * (a * (1 + u))) by ring.
  destruct (Rcase_abs a) as [Ha | Ha].
  - rewrite (Rabs_left a Ha) in H.
    assert (P : a * (1 - u) <= 0) by nra.
    assert (Hx : a * (1 + u) <= x <= a * (1 - u)) by lra.
    pose proof (Rmult_le_pos (a * (1 - u) - x) (- (x + a * (1 - u)))
                  ltac:(lra) ltac:(lra)).
    pose proof (Rmult_le_pos (x - a * (1 + u)) (- (x + a * (1 + u)))
                  ltac:(lra) ltac:(lra)).
    split; lra.
  - rewrite (Rabs_right a Ha) in H.
    assert (P : 0 <= a * (1 - u)) by nra.
    assert (Hx : a * (1 - u) <= x <= a * (1 + u)) by lra.
    pose proof (Rmult_le_pos (x - a * (1 - u)) (x + a * (1 - u))
                  ltac:(lra) ltac:(lra)).
    pose proof (Rmult_le_pos (a * (1 + u) - x) (x + a * (1 + u))
                  ltac:(lra) ltac:(lra)).
    split; lra.
Qed.

Lemma sumsq_perturbed u (f g : R -> R) vs :
  0 <= u <= 1 ->
  (forall v, In v vs -> Rabs (g v - f v) <= u * Rabs (f v)) ->
  (1 - u) * (1 - u) * sumsq (map f vs) <= sumsq (map g vs)
  <= (1 + u) * (1 + u) * sumsq (map f vs).
Proof.
  intros Hu. induction vs as [|v vs IH]; intros H; simpl.
  - lra.
  - destruct IH as [I1 I2]; [intros w Hw; apply H; now right|].
    destruct (square_perturbed u (f v) (g v) Hu (H v (or_introl eq_refl)))
      as [S1 S2].
    unfold sumsq in *. split; lra.
Qed.

Lemma norm_near_1 u Q :
  0 < u <= 1 / 8 ->
  (1 - u) * (1 - u) <= Q * ((1 + u) * (1 + u)) ->
  Q * ((1 - u) * (1 - u)) <= (1 + u) * (1 + u) ->
  Rabs (sqrt Q - 1) <= 4 * u.
Proof.
  intros Hu H1 H2.
  assert (L : (1 - 4 * u) * (1 - 4 * u) <= Q).
  { assert (A : (1 - 4 * u) * (1 + u) <= 1 - u) by nra.
    assert (B : 0 <= (1 - 4 * u) * (1 + u)) by nra.
    assert (C : ((1 - 4 * u) * (1 + u)) * ((1 - 4 * u) * (1 + u))
                <= (1 - u) * (1 - u)) by nra.
    assert (D : 0 < (1 + u) * (1 + u)) by nra.
    apply (Rmult_le_reg_r ((1 + u) * (1 + u))); [assumption|]. nra. }
  assert (U : Q <= (1 + 4 * u) * (1 + 4 * u)).
  { assert (A : 1 + u <= (1 + 4 * u) * (1 - u)) by nra.
    assert (C : (1 + u) * (1 + u)
                <= ((1 + 4 * u) * (1 - u)) * ((1 + 4 * u) * (1 - u))) by nra.
    assert (D : 0 < (1 - u) * (1 - u)) by nra.
    apply (Rmult_le_reg_r ((1 - u) * (1 - u))); [assumption|]. nra. }
  assert (L' : 1 - 4 * u <= sqrt Q).
  { rewrite <- (sqrt_square (1 - 4 * u)) by lra. now apply sqrt_le_1_alt. }
  assert (U' : sqrt Q <= 1 + 4 * u).
  { rewrite <- (sqrt_square (1 + 4 * u)) by lra. now apply sqrt_le_1_alt. }
  apply Rabs_le. lra.
Qed.

(** ** The embedding of a text *)

Section EmbeddingDoubles.
Variable fl : R -> R.
Hypothesis Hfl : roundsToNearest fl.
Variable toLowerCase : jsstring -> jsstring.

Lemma counts_small text :
  (Z.of_nat (length text) <= 2 ^ 26)%Z ->
  Forall (fun x => (0 <= x)%Z) (featureVector toLowerCase text) /\
  (sumsqZ (featureVector toLowerCase text) <= 2 ^ 52)%Z.
Proof.
  intros Hlen.
  destruct (countFeatures_total toLowerCase text) as [Ht Hf].
  destruct (foldFeatures_total _ Hf) as [Hs Hn].
  split; [exact Hn|].
  destruct (sumsqZ_le_square _ Hn) as [H0 Hsq].
  unfold featureVector in *. rewrite Hs, Ht in Hsq, H0.
  assert (Z.of_nat (length text - 1) <= 2 ^ 26)%Z by lia.
  change (2 ^ 52)%Z with (2 ^ 26 * 2 ^ 26)%Z. nia.
Qed.

Lemma embedding_zero text :
  (Z.of_nat (length text) <= 2 ^ 26)%Z ->
  sumsqZ (featureVector toLowerCase text) = 0%Z ->
  Doubles.computeTextEmbedding fl toLowerCase text
  = map IZR (featureVector toLowerCase text).
Proof.
  intros Hlen Hz. unfold Doubles.computeTextEmbedding.
  rewrite (sumSquares_exact fl Hfl) by (rewrite Hz; lia).
  rewrite Hz, sqrt_0, (fl_0 fl Hfl).
  destruct (Rlt_dec 0 0) as [H | _]; [lra | reflexivity].
Qed.

Lemma magnitude_close text :
  (Z.of_nat (length text) <= 2 ^ 26)%Z ->
  (0 < sumsqZ (featureVector toLowerCase text))%Z ->
  let s := sqrt (IZR (sumsqZ (featureVector toLowerCase text))) in
  1 <= s <= IZR (2 ^ 26) /\ s * s = IZR (sumsqZ (featureVector toLowerCase text))
  /\ Rabs (fl s - s) <= s / IZR (2 ^ 53).
Proof.
  intros Hlen Hp s.
  destruct (counts_small text Hlen) as [_ Hs].
  assert (H1 : 1 <= s).
  { unfold s. rewrite <- sqrt_1 at 1. apply sqrt_le_1_alt.
    apply IZR_le. lia. }
  assert (H2 : s <= IZR (2 ^ 26)).
  { unfold s. rewrite <- (sqrt_square (IZR (2 ^ 26)))
      by (apply IZR_le; lia).
    apply sqrt_le_1_alt. rewrite <- mult_IZR. apply IZR_le.
    change (2 ^ 26 * 2 ^ 26)%Z with (2 ^ 52)%Z. exact Hs. }
  split; [lra|]. split.
  - unfold s. apply sqrt_sqrt. apply IZR_le. lia.
  - assert (Hr : / IZR (2 ^ 28) <= Rabs s <= IZR (2 ^ 27)).
    { rewrite (Rabs_pos_eq s) by lra. split.
      + apply Rle_trans with 1; [|assumption].
        rewrite <- Rinv_1. apply Rinv_le_contravar; [lra|].
        apply IZR_le. lia.
      + apply Rle_trans with (IZR (2 ^ 26)); [assumption|].
        apply IZR_le. lia. }
    pose proof (fl_close fl Hfl s Hr) as H.
    now rewrite (Rabs_pos_eq s) in H by lra.
Qed.

Lemma embedding_nonzero text :
  (Z.of_nat (length text) <= 2 ^ 26)%Z ->
  (0 < sumsqZ (featureVector toLowerCase text))%Z ->
  let m := fl (sqrt (IZR (sumsqZ (featureVector toLowerCase text)))) in
  0 < m /\
  Doubles.computeTextEmbedding fl toLowerCase text
  = map (fun v => fl (v / m)) (map IZR (featureVector toLowerCase text)).
Proof.
  intros Hlen Hp m.
  destruct (counts_small text Hlen) as [_ Hs].
  destruct (magnitude_close text Hlen Hp) as [[H1 H2] [_ Hc]].
  fold m in Hc. apply Rabs_le_between in Hc.
  assert (P53 : 0 < / IZR (2 ^ 53) <= 1 / 8).
  { split; [apply Rinv_0_lt_compat, IZR_lt; reflexivity|].
    replace (1 / 8) with (/ IZR 8) by (simpl; lra).
    apply Rinv_le_contravar; [lra|]. apply IZR_le. lia. }
  assert (Hm : 0 < m) by (unfold Rdiv in Hc; nra).
  split; [exact Hm|].
  unfold Doubles.computeTextEmbedding.
  rewrite (sumSquares_exact fl Hfl) by lia. fold m.
  destruct (Rlt_dec 0 m) as [_ | N]; [reflexivity | contradiction].
Qed.

Lemma embedding_norm text :
  (Z.of_nat (length text) <= 2 ^ 26)%Z ->
  (0 < sumsqZ (featureVector toLowerCase text))%Z ->
  Rabs (euclideanNorm (Doubles.computeTextEmbedding fl toLowerCase text) - 1)
  <= / IZR (2 ^ 51).
Proof.
  intros Hlen Hp.
  destruct (counts_small text Hlen) as [Hn Hs].
  destruct (magnitude_close text Hlen Hp) as [[H1 H2] [Hss Hc]].
  destruct (embedding_nonzero text Hlen Hp) as [Hm ->].
  set (counts := featureVector toLowerCase text) in *.
  set (s := sqrt (IZR (sumsqZ counts))) in *.
  set (m := fl s) in *.
  set (u := / IZR (2 ^ 53)).
  assert (Hu : 0 < u <= 1 / 8).
  { unfold u. split; [apply Rinv_0_lt_compat, IZR_lt; reflexivity|].
    replace (1 / 8) with (/ IZR 8) by (simpl; lra).
    apply Rinv_le_contravar; [lra|]. apply IZR_le. lia. }
  assert (Hms : s * (1 - u) <= m <= s * (1 + u)).
  { apply Rabs_le_between in Hc. unfold Rdiv in Hc. fold u in Hc. lra. }
  assert (H26 : IZR (2 ^ 26) * 2 <= IZR (2 ^ 27))
    by (rewrite <- (mult_IZR (2 ^ 26) 2); apply IZR_le; lia).
  assert (H28 : 0 < / IZR (2 ^ 28) <= / IZR (2 ^ 27)).
  { split; [apply Rinv_0_lt_compat, IZR_lt; reflexivity|].
    apply Rinv_le_contravar; [apply IZR_lt; reflexivity|].
    apply IZR_le. lia. }
  assert (Hel : forall v, In v (map IZR counts) ->
                  Rabs (fl (v / m) - v / m) <= u * Rabs (v / m)).
  { intros v Hv. apply in_map_iff in Hv. destruct Hv as [c [<- Hc0]].
    pose proof (proj1 (Forall_forall _ _) Hn c Hc0) as Hc1. simpl in Hc1.
    pose proof (square_le_sumsqZ counts c Hc0) as Hc2.
    destruct (Z.eq_dec c 0) as [-> | Nc].
    - unfold Rdiv. rewrite Rmult_0_l, (fl_0 fl Hfl), Rminus_0_r, Rabs_R0. lra.
    - assert (Hc3 : 1 <= IZR c) by (apply IZR_le; lia).
      assert (Hc4 : IZR c <= s).
      { unfold s. rewrite <- (sqrt_square (IZR c)) by lra.
        apply sqrt_le_1_alt. rewrite <- mult_IZR. now apply IZR_le. }
      set (a := IZR c / m).
      assert (Ea : a * m = IZR c) by (unfold a; field; lra).
      assert (Ha0 : 0 < a) by (unfold a; apply Rdiv_lt_0_compat; lra).
      assert (Ha1 : a <= 2) by nra.
      assert (Ha2 : / IZR (2 ^ 27) <= a).
      { apply (Rmult_le_reg_r m); [assumption|]. rewrite Ea.
        apply Rle_trans with 1; [|assumption].
        apply (Rmult_le_reg_l (IZR (2 ^ 27)));
          [apply IZR_lt; reflexivity|].
        rewrite <- Rmult_assoc, Rinv_r, Rmult_1_l, Rmult_1_r
          by (apply not_eq_sym, Rlt_not_eq, IZR_lt; reflexivity).
        nra. }
      rewrite Rmult_comm. apply (fl_close fl Hfl).
      rewrite (Rabs_pos_eq a) by lra. split; [lra|].
      apply Rle_trans with 2; [assumption|]. apply IZR_le. lia. }
  pose proof (sumsq_perturbed u (fun v => v / m) (fun v => fl (v / m))
                (map IZR counts) ltac:(lra) Hel) as [Q1 Q2].
  rewrite (sumsq_scale m (map IZR counts)) in Q1, Q2 by lra.
  rewrite sumsq_IZR, <- Hss in Q1, Q2.
  set (Q := sumsq (map (fun v => fl (v / m)) (map IZR counts))) in *.
  assert (EA : s * s / (m * m) * (m * m) = s * s) by (field; lra).
  set (A := s * s / (m * m)) in *.
  assert (HA : 0 <= A).
  { unfold A. apply Rmult_le_pos; [nra|]. left. apply Rinv_0_lt_compat. nra. }
  assert (Hm1 : m * m <= (s * s) * ((1 + u) * (1 + u))) by nra.
  assert (Hm2 : (s * s) * ((1 - u) * (1 - u)) <= m * m).
  { assert (0 <= s * (1 - u)) by (apply Rmult_le_pos; lra).
    replace (s * s * ((1 - u) * (1 - u)))
      with ((s * (1 - u)) * (s * (1 - u))) by ring.
    apply Rmult_le_compat; lra. }
  assert (Hs2 : 0 < s * s) by nra.
  assert (A1 : 1 <= A * ((1 + u) * (1 + u))).
  { apply (Rmult_le_reg_r (s * s)); [assumption|].
    rewrite Rmult_1_l.
    apply Rle_trans with (A * (m * m)); [rewrite EA; lra|].
    replace (A * ((1 + u) * (1 + u)) * (s * s))
      with (A * ((s * s) * ((1 + u) * (1 + u)))) by ring.
    apply Rmult_le_compat_l; assumption. }
  assert (A2 : A * ((1 - u) * (1 - u)) <= 1).
  { apply (Rmult_le_reg_r (s * s)); [assumption|].
    rewrite Rmult_1_l.
    apply Rle_trans with (A * (m * m)); [|rewrite EA; lra].
    replace (A * ((1 - u) * (1 - u)) * (s * s))
      with (A * ((s * s) * ((1 - u) * (1 - u)))) by ring.
    apply Rmult_le_compat_l; assumption. }
  assert (B1 : (1 - u) * (1 - u) <= Q * ((1 + u) * (1 + u))).
  { assert (0 <= (1 - u) * (1 - u)) by nra.
    assert (0 <= (1 + u) * (1 + u)) by nra.
    apply Rle_trans with ((1 - u) * (1 - u) * (A * ((1 + u) * (1 + u)))).
    - rewrite <- (Rmult_1_r ((1 - u) * (1 - u))) at 1.
      apply Rmult_le_compat_l; assumption.
    - rewrite <- Rmult_assoc. apply Rmult_le_compat_r; assumption. }
  assert (B2 : Q * ((1 - u) * (1 - u)) <= (1 + u) * (1 + u)).
  { assert (0 <= (1 - u) * (1 - u)) by nra.
    assert (0 <= (1 + u) * (1 + u)) by nra.
    apply Rle_trans with ((1 + u) * (1 + u) * A * ((1 - u) * (1 - u))).
    - apply Rmult_le_compat_r; assumption.
    - rewrite Rmult_assoc.
      rewrite <- (Rmult_1_r ((1 + u) * (1 + u))) at 2.
      apply Rmult_le_compat_l; assumption. }
  pose proof (norm_near_1 u Q Hu B1 B2) as Hnorm.
  unfold euclideanNorm. fold Q.
  replace (/ IZR (2 ^ 51)) with (4 * u); [exact Hnorm|].
  unfold u. change (2 ^ 53)%Z with (4 * 2 ^ 51)%Z. rewrite mult_IZR.
  field. apply not_eq_sym, Rlt_not_eq, IZR_lt. reflexivity.
Qed.

End EmbeddingDoubles.

(** C9, as the code computes it.  For a text of at most 2^26 code units
    the embedding has 256 components.  When some bigram count of the text
    is not zero, its Euclidean norm is within 2^-51 of 1: the square root
    and the quotients are rounded to doubles, and the norm need not be 1
    exactly.  When all the counts are zero, as for a text of fewer than two
    code units, it is the zero vector: the division by the norm is not
    evaluated. *)
Theorem computeTextEmbedding_unit_norm_rounded
    (fl : R -> R) (toLowerCase : jsstring -> jsstring) (text : jsstring) :
  roundsToNearest fl ->
  (Z.of_nat (length text) <= 2 ^ 26)%Z ->
  let counts := featureVector toLowerCase text in
  let embedding := Doubles.computeTextEmbedding fl toLowerCase text in
  length embedding = 256%nat /\
  ((exists c, In c counts /\ c <> 0%Z) ->
   Rabs (euclideanNorm embedding - 1) <= / IZR (2 ^ 51)) /\
  ((forall c, In c counts -> c = 0%Z) -> embedding = repeat 0 256) /\
  ((length text < 2)%nat -> counts = repeat 0%Z 256) /\
  ((forall c, In c counts -> c = 0%Z) \/ (exists c, In c counts /\ c <> 0%Z)).
Proof.
  intros Hfl Hlen counts embedding. subst embedding.
  pose proof (sumsqZ_nonneg counts) as Hn.
  assert (Hcases :
    (forall c, In c counts -> c = 0%Z) \/ (exists c, In c counts /\ c <> 0%Z)).
  { destruct (Z.eq_dec (sumsqZ counts) 0) as [E | E].
    - left. now apply sumsqZ_zero.
    - right. clear -E. induction counts as [|x l IH]; simpl in *;
        [congruence|].
      destruct (Z.eq_dec x 0) as [-> | Hx].
      + destruct IH as [c [Hc Hn]]; [lia|]. exists c. auto.
      + exists x. auto. }
  assert (Hzero : (forall c, In c counts -> c = 0%Z) ->
                  counts = repeat 0%Z 256).
  { intros Hz. rewrite <- (length_featureVector toLowerCase text).
    fold counts. clear -Hz. induction counts as [|x l IH]; simpl;
      [reflexivity|].
    rewrite (Hz x) by now left. f_equal. apply IH.
    intros c Hc. apply Hz. now right. }
  split; [|split; [|split; [|split]]].
  - destruct (Z.eq_dec (sumsqZ counts) 0) as [E | E].
    + rewrite (embedding_zero fl Hfl toLowerCase text Hlen E).
      rewrite length_map. apply length_featureVector.
    + destruct (embedding_nonzero fl Hfl toLowerCase text Hlen)
        as [_ ->]; [fold counts; lia|].
      rewrite !length_map. apply length_featureVector.
  - intros [c [Hin Hc]].
    apply (embedding_norm fl Hfl toLowerCase text Hlen).
    now apply (sumsqZ_pos counts c).
  - intros Hz. specialize (Hzero Hz).
    rewrite (embedding_zero fl Hfl toLowerCase text Hlen)
      by (fold counts; rewrite Hzero; reflexivity).
    fold counts. rewrite Hzero, map_repeat. reflexivity.
  - apply featureVector_short.
  - exact Hcases.
Qed.

Lemma computeTextEmbedding_unit_norm_rounded_witness :
  Rabs (euclideanNorm
          (Doubles.computeTextEmbedding Doubles.round53 lowerCaseText
             (js "happy day")) - 1)
  <= / IZR (2 ^ 51).
Proof.
  apply (proj1 (proj2
           (computeTextEmbedding_unit_norm_rounded Doubles.round53
              lowerCaseText (js "happy day")
              round53_roundsToNearest ltac:(simpl; lia)))).
  exists 1%Z. split; [vm_compute; left; reflexivity | discriminate].
Defined.

(** ** A norm that is not 1 *)

Lemma sumsq_zero_one (g : R -> R) counts :
  (forall c, In c counts -> c = 0%Z \/ c = 1%Z) -> g 0 = 0 ->
  sumsq (map g (map IZR counts)) = IZR (sumZ counts) * (g 1 * g 1).
Proof.
  intros Hc Hg. induction counts as [|c l IH]; simpl.
  - lra.
  - fold (sumsq (map g (map IZR l))). rewrite IH by (intros; apply Hc; now right).
    unfold sumZ. simpl. rewrite plus_IZR.
    destruct (Hc c (or_introl eq_refl)) as [-> | ->]; rewrite ?Hg; ring.
Qed.

Lemma dyadic_square_not_eighth n k :
  8 * ((IZR n * powerRZ 2 k) * (IZR n * powerRZ 2 k)) <> 1.
Proof.
  intros E. destruct (Z_le_gt_dec 0 k) as [Hk | Hk].
  - rewrite powerRZ_2_nonneg in E by assumption.
    rewrite <- !mult_IZR in E. apply eq_IZR in E. lia.
  - replace k with (- (- k))%Z in E by lia.
    rewrite powerRZ_neg', powerRZ_2_nonneg in E by lia.
    set (t := (2 ^ (- k))%Z) in *.
    assert (Ht : (0 < t)%Z) by (apply Z.pow_pos_nonneg; lia).
    assert (Hr : 0 < IZR t) by now apply IZR_lt.
    assert (E' : 8 * (IZR n * IZR n) = IZR t * IZR t).
    { apply (Rmult_eq_reg_r (/ IZR t * / IZR t));
        [|apply Rmult_integral_contrapositive_currified;
          apply Rinv_neq_0_compat; lra].
      transitivity 1; [rewrite <- E; ring | field; lra]. }
    rewrite <- !mult_IZR in E'. apply eq_IZR in E'.
    assert (t = 0%Z); [|lia].
    apply (no_square_root_of_2 (2 * n) t). lia.
Qed.

(** C9, against the exact claim.  The bigrams of "happy day", to which
    "HaPPy Day" is lowered, are 8 different ones, each counted once: every
    component that is not 0 is the double next to [1 / sqrt 8], and 8
    squares of a double do not add up to 1. *)
Theorem computeTextEmbedding_norm_counterexample :
  euclideanNorm
    (Doubles.computeTextEmbedding Doubles.round53 lowerCaseText
       (js "happy day")) <> 1.
Proof.
  assert (Hlen : (Z.of_nat (length (js "happy day")) <= 2 ^ 26)%Z)
    by (simpl; lia).
  assert (HS : sumsqZ (featureVector lowerCaseText (js "happy day")) = 8%Z)
    by (vm_compute; reflexivity).
  destruct (embedding_nonzero Doubles.round53 round53_roundsToNearest
              lowerCaseText (js "happy day") Hlen) as [Hm ->];
    [rewrite HS; lia|].
  set (m := Doubles.round53
              (sqrt (IZR (sumsqZ (featureVector lowerCaseText
                                    (js "happy day")))))) in *.
  unfold euclideanNorm.
  rewrite (sumsq_zero_one (fun v => Doubles.round53 (v / m))).
  - assert (H8 : sumZ (featureVector lowerCaseText (js "happy day")) = 8%Z)
      by (vm_compute; reflexivity).
    rewrite H8.
    destruct (round53_dyadic (1 / m)) as [n [k ->]].
    intros E.
    apply (dyadic_square_not_eighth n k).
    set (a := 8 * (IZR n * powerRZ 2 k * (IZR n * powerRZ 2 k))) in *.
    assert (Ha : 0 <= a).
    { unfold a. pose proof (Rle_0_sqr (IZR n * powerRZ 2 k)) as Hq.
      unfold Rsqr in Hq. lra. }
    rewrite <- (sqrt_sqrt a Ha), E. lra.
  - assert (Hb : forallb (fun c => (c =? 0)%Z || (c =? 1)%Z)
                   (featureVector lowerCaseText (js "happy day")) = true)
      by (vm_compute; reflexivity).
    intros c Hc. apply (proj1 (forallb_forall _ _) Hb) in Hc.
    apply orb_true_iff in Hc. rewrite !Z.eqb_eq in Hc. exact Hc.
  - unfold Rdiv. rewrite Rmult_0_l.
    apply (round53_exact 0). simpl. lia.
Qed.

(** ** The cosine similarity in double precision *)

Section CosineDoubles.
Variable fl : R -> R.

Lemma cosineLoop_swap v1 : forall v2 d a b,
  Doubles.cosineLoop fl v2 v1 (d, b, a)
  = (let '(d', a', b') := Doubles.cosineLoop fl v1 v2 (d, a, b) in
     (d', b', a')).
Proof.
  induction v1 as [|x v1 IH]; intros [|y v2] d a b; try reflexivity.
  cbn [Doubles.cosineLoop]. rewrite IH, (Rmult_comm y x). reflexivity.
Qed.

Lemma cosineLoop_zero v1 : forall v2 d b,
  fl 0 = 0 -> Forall (fun x => x = 0) v1 ->
  snd (fst (Doubles.cosineLoop fl v1 v2 (d, 0, b))) = 0.
Proof.
  induction v1 as [|x v1 IH]; intros [|y v2] d b H0 Hz; try reflexivity.
  inversion Hz as [|? ? Hx Hr]; subst. cbn [Doubles.cosineLoop].
  rewrite !Rmult_0_l, !H0, Rplus_0_l, H0. now apply IH.
Qed.

(** X22. In double precision [cosineSimilarity] does not depend on the
    order of its two vectors; it is 0 for vectors of different lengths and
    when all the components of one of them are 0.  Its value is rounded:
    no bound on it is stated. *)
Theorem cosineSimilarity_symmetric v1 v2 :
  fl 0 = 0 ->
  Doubles.cosineSimilarity fl v1 v2 = Doubles.cosineSimilarity fl v2 v1 /\
  (length v1 <> length v2 -> Doubles.cosineSimilarity fl v1 v2 = 0) /\
  (Forall (fun x => x = 0) v1 \/ Forall (fun x => x = 0) v2 ->
   Doubles.cosineSimilarity fl v1 v2 = 0).
Proof.
  intros H0.
  assert (Hsym : forall a b,
             Doubles.cosineSimilarity fl a b = Doubles.cosineSimilarity fl b a).
  { intros a b. unfold Doubles.cosineSimilarity.
    rewrite (Nat.eqb_sym (length b) (length a)).
    destruct (length a =? length b)%nat; [|reflexivity]. cbn [negb].
    rewrite (cosineLoop_swap a b 0 0 0).
    destruct (Doubles.cosineLoop fl a b (0, 0, 0)) as [[d m1] m2].
    destruct (Req_dec_T (fl (sqrt m1)) 0), (Req_dec_T (fl (sqrt m2)) 0);
      try reflexivity.
    now rewrite (Rmult_comm (fl (sqrt m2))). }
  assert (Hzero : forall a b, Forall (fun x => x = 0) a ->
                              Doubles.cosineSimilarity fl a b = 0).
  { intros a b Hz. unfold Doubles.cosineSimilarity.
    destruct (negb (length a =? length b)%nat); [reflexivity|].
    pose proof (cosineLoop_zero a b 0 0 H0 Hz) as E.
    destruct (Doubles.cosineLoop fl a b (0, 0, 0)) as [[d m1] m2].
    cbn [fst snd] in E. subst m1. rewrite sqrt_0, H0.
    destruct (Req_dec_T 0 0) as [_ | N]; [reflexivity | now elim N]. }
  split; [apply Hsym|]. split.
  - intros Hl. unfold Doubles.cosineSimilarity.
    apply Nat.eqb_neq in Hl. now rewrite Hl.
  - intros [Hz | Hz]; [now apply Hzero|].
    rewrite Hsym. now apply Hzero.
Qed.

End CosineDoubles.

Lemma cosineSimilarity_symmetric_witness :
  Doubles.cosineSimilarity Doubles.round53 [1; 2] [0; 0]
  = Doubles.cosineSimilarity Doubles.round53 [0; 0] [1; 2] /\
  (length [1; 2] <> length [0; 0] ->
   Doubles.cosineSimilarity Doubles.round53 [1; 2] [0; 0] = 0) /\
  (Forall (fun x => x = 0) [1; 2] \/ Forall (fun x => x = 0) [0; 0] ->
   Doubles.cosineSimilarity Doubles.round53 [1; 2] [0; 0] = 0).
Proof.
  apply (cosineSimilarity_symmetric Doubles.round53 [1; 2] [0; 0]).
  apply (round53_exact 0). simpl. lia.
Defined.
